(** * The Noir Chronicles: story-turn orchestration

    A shallow embedding of [services/geminiService.ts] (response validation,
    [startNewStory], [generateNextEntry], [fetchWorldNews]) and of the state
    handlers of [App.tsx] that the turn contract relies on (achievement merge,
    save and load, news lookup), with the ECMAScript built-ins they call
    ([String.prototype.trim], [indexOf], [substring], [JSON.parse],
    [JSON.stringify], ...) modelled after ECMA-262. *)

From Stdlib Require Import List NArith ZArith Lia Bool String Ascii DecimalPos.
From Stdlib Require DecimalFacts.
Import ListNotations.

Set Implicit Arguments.

(** ** ECMAScript strings

    A string value is a finite sequence of UTF-16 code units; a code unit is
    kept as its number. *)
Module JSString.

Definition jsstring := list N.

(** The string value of an ASCII literal of the source. *)
Definition lit (s : string) : jsstring :=
  map N_of_ascii (list_ascii_of_string s).

Fixpoint eqb (s t : jsstring) : bool :=
  match s, t with
  | [], [] => true
  | c :: s', d :: t' => N.eqb c d && eqb s' t'
  | _, _ => false
  end.

(** WhiteSpace and LineTerminator code points, the ones [trim] strips. *)
Definition is_white_space (c : N) : bool :=
  ((c =? 9) || (c =? 10) || (c =? 11) || (c =? 12) || (c =? 13) || (c =? 32)
   || (c =? 160) || (c =? 5760) || ((8192 <=? c) && (c <=? 8202))
   || (c =? 8232) || (c =? 8233) || (c =? 8239) || (c =? 8287)
   || (c =? 12288) || (c =? 65279))%N.

Fixpoint trimStart (s : jsstring) : jsstring :=
  match s with
  | [] => []
  | c :: r => if is_white_space c then trimStart r else s
  end.

Definition trimEnd (s : jsstring) : jsstring := rev (trimStart (rev s)).

Definition trim (s : jsstring) : jsstring := trimEnd (trimStart s).

Fixpoint starts_with (pat s : jsstring) : bool :=
  match pat, s with
  | [], _ => true
  | p :: pat', c :: s' => N.eqb p c && starts_with pat' s'
  | _ :: _, [] => false
  end.

(** [s.includes(pat)] *)
Fixpoint includes (pat s : jsstring) : bool :=
  starts_with pat s ||
  match s with
  | [] => false
  | _ :: r => includes pat r
  end.

(** [s.replace(/pat/g, repl)] for a pattern that is a non-empty literal
    (no metacharacters): the matches are found left to right and do not
    overlap. [skip] counts the code units of the current match that are
    still to be dropped. *)
Fixpoint replace_from (pat repl : jsstring) (skip : nat) (s : jsstring) : jsstring :=
  match s with
  | [] => []
  | c :: r =>
      match skip with
      | S k => replace_from pat repl k r
      | O =>
          if starts_with pat s
          then repl ++ replace_from pat repl (Nat.pred (List.length pat)) r
          else c :: replace_from pat repl 0 r
      end
  end.

Definition replace_all (pat repl s : jsstring) : jsstring :=
  replace_from pat repl 0 s.

Fixpoint find_first (c : N) (s : jsstring) : option nat :=
  match s with
  | [] => None
  | x :: r => if N.eqb x c then Some O else option_map S (find_first c r)
  end.

Fixpoint find_last (c : N) (s : jsstring) : option nat :=
  match s with
  | [] => None
  | x :: r =>
      match find_last c r with
      | Some i => Some (S i)
      | None => if N.eqb x c then Some O else None
      end
  end.

(** [s.indexOf(c)] and [s.lastIndexOf(c)] for a search string of one code
    unit: the position, or -1. *)
Definition indexOf (c : N) (s : jsstring) : Z :=
  match find_first c s with Some i => Z.of_nat i | None => (-1)%Z end.

Definition lastIndexOf (c : N) (s : jsstring) : Z :=
  match find_last c s with Some i => Z.of_nat i | None => (-1)%Z end.

(** [s.substring(from, to)]: both ends are clamped to [0, length] and
    swapped when out of order. *)
Definition substring (s : jsstring) (from to : Z) : jsstring :=
  let len := Z.of_nat (List.length s) in
  let a := Z.min (Z.max from 0) len in
  let b := Z.min (Z.max to 0) len in
  let lo := Z.to_nat (Z.min a b) in
  let hi := Z.to_nat (Z.max a b) in
  firstn (hi - lo) (skipn lo s).

End JSString.
Import JSString.

(** ** ECMAScript values, as far as JSON reaches *)

(** A Number is NaN, an infinity, or finite. A finite one is carried as a
    decimal [(-1)^neg * m * 10^e]: an integer [z] is [Dec (z <? 0) |z| 0],
    a JSON literal is kept digit for digit, and the Number it stands for is
    the double nearest to that decimal. Of that rounding the model has the
    two ends, a decimal too large for a double ([overflows]) and one that
    rounds to zero ([number_truthy]); in between it keeps the decimal, so
    equal carriers are equal Numbers but not conversely. *)
Inductive jsnumber : Type :=
| NaN
| Infinity (neg : bool)
| Dec (neg : bool) (m : N) (e : Z).

Definition of_Z (z : Z) : jsnumber := Dec (z <? 0)%Z (Z.abs_N z) 0.

#[warnings="-register-all"]
Inductive jsvalue : Type :=
| JUndefined
| JNull
| JBool (b : bool)
| JNum (n : jsnumber)
| JStr (s : jsstring)
| JArr (elems : list jsvalue)
| JObj (members : list (jsstring * jsvalue)).

(** Own properties of an object in creation order. [set_prop] is
    CreateDataProperty: an existing key keeps its place and takes the new
    value. (Integer-like keys, which ECMAScript enumerates first, do not
    occur among the property names of this program.) *)
Fixpoint set_prop (k : jsstring) (v : jsvalue) (ms : list (jsstring * jsvalue))
  : list (jsstring * jsvalue) :=
  match ms with
  | [] => [(k, v)]
  | (k', v') :: r =>
      if JSString.eqb k' k then (k', v) :: r else (k', v') :: set_prop k v r
  end.

Fixpoint lookup (k : jsstring) (ms : list (jsstring * jsvalue)) : option jsvalue :=
  match ms with
  | [] => None
  | (k', v') :: r => if JSString.eqb k' k then Some v' else lookup k r
  end.

(** [o.k] on a value that is an object: the property, or undefined. *)
Definition get (k : string) (o : jsvalue) : jsvalue :=
  match o with
  | JObj ms => match lookup (lit k) ms with Some v => v | None => JUndefined end
  | _ => JUndefined
  end.

(** ToBoolean. A decimal is falsy when the double nearest to it is zero:
    it is zero, or at most 2^-1075 (half the least subnormal, a tie that
    rounds to even). *)
Definition number_truthy (n : jsnumber) : bool :=
  match n with
  | NaN => false
  | Infinity _ => true
  | Dec _ m e =>
      negb (m =? 0)%N &&
      ((0 <=? e)%Z || (10 ^ (- e) <? Z.of_N m * 2 ^ 1075)%Z)
  end.

(** A decimal of magnitude 2^1024 - 2^970 or more (half an ulp above the
    greatest double) is an infinity once rounded. *)
Definition overflows (m : N) (e : Z) : bool :=
  if (0 <=? e)%Z
  then (2 ^ 1024 - 2 ^ 970 <=? Z.of_N m * 10 ^ e)%Z
  else ((2 ^ 1024 - 2 ^ 970) * 10 ^ (- e) <=? Z.of_N m)%Z.

Definition is_finite (n : jsnumber) : bool :=
  match n with
  | Dec _ m e => negb (overflows m e)
  | NaN | Infinity _ => false
  end.

Definition truthy (v : jsvalue) : bool :=
  match v with
  | JUndefined | JNull => false
  | JBool b => b
  | JNum n => number_truthy n
  | JStr s => match s with [] => false | _ => true end
  | JArr _ | JObj _ => true
  end.

(** Completion of a call: a value, or a thrown exception. *)
Inductive jserror : Type :=
| SyntaxError
| TypeError
| Error (message : jsstring).

Inductive completion (A : Type) : Type :=
| Normal (a : A)
| Throw (e : jserror).
Arguments Throw {A} e.

Definition bind {A B : Type} (c : completion A) (f : A -> completion B)
  : completion B :=
  match c with
  | Normal a => f a
  | Throw e => Throw e
  end.

(** [try { body } catch (_) { handler }] *)
Definition try_catch {A : Type} (body : completion A) (handler : jserror -> completion A)
  : completion A :=
  match body with
  | Normal a => Normal a
  | Throw e => handler e
  end.

(** ** JSON.parse

    The JSON grammar of ECMA-404, which ECMA-262 prescribes for
    [JSON.parse]: a lexer that reads the text one code unit at a time, and a
    pushdown recogniser over its tokens that builds the value. *)
Module JSON.

Abbreviation TAB := 9%N.
Abbreviation LF := 10%N.
Abbreviation CR := 13%N.
Abbreviation SPACE := 32%N.
Abbreviation QUOTE := 34%N.
Abbreviation PLUS := 43%N.
Abbreviation COMMA := 44%N.
Abbreviation MINUS := 45%N.
Abbreviation DOT := 46%N.
Abbreviation SLASH := 47%N.
Abbreviation COLON := 58%N.
Abbreviation LBRACK := 91%N.
Abbreviation BACKSLASH := 92%N.
Abbreviation RBRACK := 93%N.
Abbreviation BACKTICK := 96%N.
Abbreviation LBRACE := 123%N.
Abbreviation RBRACE := 125%N.

Inductive token : Type :=
| TLBrace | TRBrace | TLBrack | TRBrack | TColon | TComma
| TStr (s : jsstring)
| TNum (n : jsnumber)
| TTrue | TFalse | TNull.

Definition is_json_ws (c : N) : bool :=
  ((c =? TAB) || (c =? LF) || (c =? CR) || (c =? SPACE))%N.

Definition digit_value (c : N) : option N :=
  if ((48 <=? c) && (c <=? 57))%N then Some (c - 48)%N else None.

Definition hex_value (c : N) : option N :=
  if ((48 <=? c) && (c <=? 57))%N then Some (c - 48)%N
  else if ((97 <=? c) && (c <=? 102))%N then Some (c - 87)%N
  else if ((65 <=? c) && (c <=? 70))%N then Some (c - 55)%N
  else None.

Definition is_exp_mark (c : N) : bool := ((c =? 101) || (c =? 69))%N.

(** *** Numbers

    An optional minus; a zero, or a nonzero digit and more digits; an
    optional fraction (a dot and digits); an optional exponent (e or E, an
    optional sign, digits). *)
Inductive numphase : Type :=
| NMinus | NZero | NInt | NDot | NFrac | NExp | NExpSign | NExpDigits.

Record numacc : Type := mk_numacc {
  nneg : bool;      (* a leading minus was read *)
  mant : N;         (* the digits of the integer and fraction parts *)
  fracl : N;        (* how many of them are fraction digits *)
  eneg : bool;      (* the exponent has a minus *)
  expo : N          (* the digits of the exponent *)
}.

Definition number_of (a : numacc) : jsnumber :=
  Dec (nneg a) (mant a)
          ((if eneg a then - Z.of_N (expo a) else Z.of_N (expo a)) - Z.of_N (fracl a)).

Definition accepting (ph : numphase) : bool :=
  match ph with
  | NZero | NInt | NFrac | NExpDigits => true
  | NMinus | NDot | NExp | NExpSign => false
  end.

Definition push_digit (a : numacc) (d : N) : numacc :=
  mk_numacc (nneg a) (mant a * 10 + d) (fracl a) (eneg a) (expo a).

Definition push_frac (a : numacc) (d : N) : numacc :=
  mk_numacc (nneg a) (mant a * 10 + d) (fracl a + 1) (eneg a) (expo a).

Definition push_exp (a : numacc) (d : N) : numacc :=
  mk_numacc (nneg a) (mant a) (fracl a) (eneg a) (expo a * 10 + d).

Definition set_eneg (a : numacc) : numacc :=
  mk_numacc (nneg a) (mant a) (fracl a) true (expo a).

(** The next phase when [c] continues the number, [None] when it does not. *)
Definition num_step (ph : numphase) (a : numacc) (c : N) : option (numphase * numacc) :=
  match ph with
  | NMinus =>
      match digit_value c with
      | Some d => if (d =? 0)%N then Some (NZero, a) else Some (NInt, push_digit a d)
      | None => None
      end
  | NZero =>
      if (c =? DOT)%N then Some (NDot, a)
      else if is_exp_mark c then Some (NExp, a)
      else None
  | NInt =>
      match digit_value c with
      | Some d => Some (NInt, push_digit a d)
      | None =>
          if (c =? DOT)%N then Some (NDot, a)
          else if is_exp_mark c then Some (NExp, a)
          else None
      end
  | NDot =>
      match digit_value c with
      | Some d => Some (NFrac, push_frac a d)
      | None => None
      end
  | NFrac =>
      match digit_value c with
      | Some d => Some (NFrac, push_frac a d)
      | None => if is_exp_mark c then Some (NExp, a) else None
      end
  | NExp =>
      match digit_value c with
      | Some d => Some (NExpDigits, push_exp a d)
      | None =>
          if (c =? PLUS)%N then Some (NExpSign, a)
          else if (c =? MINUS)%N then Some (NExpSign, set_eneg a)
          else None
      end
  | NExpSign | NExpDigits =>
      match digit_value c with
      | Some d => Some (NExpDigits, push_exp a d)
      | None => None
      end
  end.

(** *** The lexer *)
Inductive lmode : Type :=
| LDefault                                   (* between tokens *)
| LStr (acc : jsstring)                      (* inside a string *)
| LEsc (acc : jsstring)                      (* after a backslash *)
| LUni (acc : jsstring) (more : nat) (h : N) (* inside \uXXXX *)
| LNum (ph : numphase) (a : numacc)          (* inside a number *)
| LLit (rest : jsstring) (t : token).        (* inside true, false, null *)

Definition start_num (neg : bool) (d : N) : numacc :=
  mk_numacc neg d 0 false 0.

Definition default_step (c : N) : option (list token * lmode) :=
  if is_json_ws c then Some ([], LDefault)
  else if (c =? LBRACE)%N then Some ([TLBrace], LDefault)
  else if (c =? RBRACE)%N then Some ([TRBrace], LDefault)
  else if (c =? LBRACK)%N then Some ([TLBrack], LDefault)
  else if (c =? RBRACK)%N then Some ([TRBrack], LDefault)
  else if (c =? COLON)%N then Some ([TColon], LDefault)
  else if (c =? COMMA)%N then Some ([TComma], LDefault)
  else if (c =? QUOTE)%N then Some ([], LStr [])
  else if (c =? MINUS)%N then Some ([], LNum NMinus (start_num true 0))
  else
    match digit_value c with
    | Some d =>
        if (d =? 0)%N then Some ([], LNum NZero (start_num false 0))
        else Some ([], LNum NInt (start_num false d))
    | None =>
        if (c =? 116)%N then Some ([], LLit (lit "rue") TTrue)
        else if (c =? 102)%N then Some ([], LLit (lit "alse") TFalse)
        else if (c =? 110)%N then Some ([], LLit (lit "ull") TNull)
        else None
    end.

Definition escape_step (acc : jsstring) (c : N) : option (list token * lmode) :=
  if (c =? QUOTE)%N then Some ([], LStr (acc ++ [QUOTE]))
  else if (c =? BACKSLASH)%N then Some ([], LStr (acc ++ [BACKSLASH]))
  else if (c =? SLASH)%N then Some ([], LStr (acc ++ [SLASH]))
  else if (c =? 98)%N then Some ([], LStr (acc ++ [8%N]))
  else if (c =? 102)%N then Some ([], LStr (acc ++ [12%N]))
  else if (c =? 110)%N then Some ([], LStr (acc ++ [LF]))
  else if (c =? 114)%N then Some ([], LStr (acc ++ [CR]))
  else if (c =? 116)%N then Some ([], LStr (acc ++ [TAB]))
  else if (c =? 117)%N then Some ([], LUni acc 3 0)
  else None.

Definition lex_step (m : lmode) (c : N) : option (list token * lmode) :=
  match m with
  | LDefault => default_step c
  | LStr acc =>
      if (c =? QUOTE)%N then Some ([TStr acc], LDefault)
      else if (c =? BACKSLASH)%N then Some ([], LEsc acc)
      else if (c <? 32)%N then None
      else Some ([], LStr (acc ++ [c]))
  | LEsc acc => escape_step acc c
  | LUni acc more h =>
      match hex_value c with
      | Some d =>
          match more with
          | O => Some ([], LStr (acc ++ [h * 16 + d]%N))
          | S k => Some ([], LUni acc k (h * 16 + d)%N)
          end
      | None => None
      end
  | LNum ph a =>
      match num_step ph a c with
      | Some (ph', a') => Some ([], LNum ph' a')
      | None =>
          if accepting ph then
            match default_step c with
            | Some (ts, m') => Some (TNum (number_of a) :: ts, m')
            | None => None
            end
          else None
      end
  | LLit rest t =>
      match rest with
      | [] => None
      | x :: rest' =>
          if (c =? x)%N
          then match rest' with
               | [] => Some ([t], LDefault)
               | _ :: _ => Some ([], LLit rest' t)
               end
          else None
      end
  end.

(** At the end of the text a number may end; anything else unfinished is
    an error. *)
Definition lex_end (m : lmode) : option (list token) :=
  match m with
  | LDefault => Some []
  | LNum ph a => if accepting ph then Some [TNum (number_of a)] else None
  | _ => None
  end.

Fixpoint lex_run (m : lmode) (s : jsstring) : option (list token) :=
  match s with
  | [] => lex_end m
  | c :: r =>
      match lex_step m c with
      | Some (ts, m') => option_map (app ts) (lex_run m' r)
      | None => None
      end
  end.

(** *** The recogniser *)
Inductive frame : Type :=
| FArr (done : list jsvalue)                       (* an array being read *)
| FObj (done : list (jsstring * jsvalue)) (key : jsstring). (* a member being read *)

Inductive pstate : Type :=
| SValue (k : list frame)                                     (* a value must start *)
| SArrOpen (k : list frame)                                   (* after [ *)
| SArrMore (done : list jsvalue) (k : list frame)             (* after an element *)
| SObjOpen (k : list frame)                                   (* after { *)
| SObjKey (done : list (jsstring * jsvalue)) (k : list frame) (* after , in an object *)
| SColon (done : list (jsstring * jsvalue)) (key : jsstring) (k : list frame)
| SObjMore (done : list (jsstring * jsvalue)) (k : list frame) (* after a member *)
| SDone (v : jsvalue).                                        (* the text's value is read *)

(** A finished value goes to the innermost open container. *)
Definition deliver (v : jsvalue) (k : list frame) : pstate :=
  match k with
  | [] => SDone v
  | FArr done :: k' => SArrMore (done ++ [v]) k'
  | FObj done key :: k' => SObjMore (set_prop key v done) k'
  end.

Definition start_value (t : token) (k : list frame) : option pstate :=
  match t with
  | TLBrace => Some (SObjOpen k)
  | TLBrack => Some (SArrOpen k)
  | TStr s => Some (deliver (JStr s) k)
  | TNum n => Some (deliver (JNum n) k)
  | TTrue => Some (deliver (JBool true) k)
  | TFalse => Some (deliver (JBool false) k)
  | TNull => Some (deliver JNull k)
  | TRBrace | TRBrack | TColon | TComma => None
  end.

Definition parse_step (st : pstate) (t : token) : option pstate :=
  match st with
  | SValue k => start_value t k
  | SArrOpen k =>
      match t with
      | TRBrack => Some (deliver (JArr []) k)
      | _ => start_value t (FArr [] :: k)
      end
  | SArrMore done k =>
      match t with
      | TComma => Some (SValue (FArr done :: k))
      | TRBrack => Some (deliver (JArr done) k)
      | _ => None
      end
  | SObjOpen k =>
      match t with
      | TRBrace => Some (deliver (JObj []) k)
      | TStr key => Some (SColon [] key k)
      | _ => None
      end
  | SObjKey done k =>
      match t with
      | TStr key => Some (SColon done key k)
      | _ => None
      end
  | SColon done key k =>
      match t with
      | TColon => Some (SValue (FObj done key :: k))
      | _ => None
      end
  | SObjMore done k =>
      match t with
      | TComma => Some (SObjKey done k)
      | TRBrace => Some (deliver (JObj done) k)
      | _ => None
      end
  | SDone _ => None
  end.

Fixpoint parse_run (st : pstate) (ts : list token) : option jsvalue :=
  match ts with
  | [] => match st with SDone v => Some v | _ => None end
  | t :: r =>
      match parse_step st t with
      | Some st' => parse_run st' r
      | None => None
      end
  end.

Definition parse_text (s : jsstring) : option jsvalue :=
  match lex_run LDefault s with
  | Some ts => parse_run (SValue []) ts
  | None => None
  end.

(** [JSON.parse(s)]: the value, or a SyntaxError. *)
Definition parse (s : jsstring) : completion jsvalue :=
  match parse_text s with
  | Some v => Normal v
  | None => Throw SyntaxError
  end.

(** ** JSON.stringify *)

Fixpoint uint_chars (d : Decimal.uint) : jsstring :=
  match d with
  | Decimal.Nil => []
  | Decimal.D0 d => 48%N :: uint_chars d
  | Decimal.D1 d => 49%N :: uint_chars d
  | Decimal.D2 d => 50%N :: uint_chars d
  | Decimal.D3 d => 51%N :: uint_chars d
  | Decimal.D4 d => 52%N :: uint_chars d
  | Decimal.D5 d => 53%N :: uint_chars d
  | Decimal.D6 d => 54%N :: uint_chars d
  | Decimal.D7 d => 55%N :: uint_chars d
  | Decimal.D8 d => 56%N :: uint_chars d
  | Decimal.D9 d => 57%N :: uint_chars d
  end.

Definition digits (n : N) : jsstring := uint_chars (N.to_uint n).

(** The digits without the zeros at their end. *)
Fixpoint strip_zeros (ds : jsstring) : jsstring :=
  match ds with
  | [] => []
  | c :: r =>
      match strip_zeros r with
      | [] => if (c =? 48)%N then [] else [c]
      | (_ :: _) as r' => c :: r'
      end
  end.

Definition zeros (n : nat) : jsstring := repeat 48%N n.

(** Number::toString, steps 6 to 10, on the digits [ds] of s, k of them,
    and on n, where the Number is s * 10^(n - k) and s does not end with a
    zero: an integer below 10^21 in full, a fraction with its point, a
    small fraction after [0.] and zeros, anything else with an exponent. *)
Definition format_digits (ds : jsstring) (n : Z) : jsstring :=
  let k := Z.of_nat (List.length ds) in
  if ((k <=? n) && (n <=? 21))%Z then ds ++ zeros (Z.to_nat (n - k))
  else if ((0 <? n) && (n <=? 21))%Z then
    firstn (Z.to_nat n) ds ++ DOT :: skipn (Z.to_nat n) ds
  else if ((-6 <? n) && (n <=? 0))%Z then
    48%N :: DOT :: zeros (Z.to_nat (- n)) ++ ds
  else
    match ds with
    | [] => []
    | d :: more =>
        d :: (match more with [] => [] | _ :: _ => DOT :: more end
              ++ 101%N :: (if (n - 1 <? 0)%Z then MINUS else PLUS)
                 :: digits (Z.abs_N (n - 1)))
    end.

(** Number::toString. A decimal too large for a double is an infinity,
    one that rounds to zero is a zero, and both zeros print as 0. For any
    other Number ECMAScript prints the shortest digits that round to the
    double; the model prints the digits of the decimal it carries, which
    are those digits whenever the decimal is itself that shortest one: an
    integer up to 2^53 in magnitude, a literal of at most 15 significant
    digits in the range of normal doubles, a text that Number::toString
    printed. *)
Definition Number_toString (n : jsnumber) : jsstring :=
  match n with
  | NaN => lit "NaN"
  | Infinity neg => (if neg then [MINUS] else []) ++ lit "Infinity"
  | Dec neg m e =>
      if overflows m e then (if neg then [MINUS] else []) ++ lit "Infinity"
      else if number_truthy n then
        (if neg then [MINUS] else []) ++
        format_digits (strip_zeros (digits m)) (Z.of_nat (List.length (digits m)) + e)
      else lit "0"
  end.


Definition is_high_surrogate (c : N) : bool := ((55296 <=? c) && (c <=? 56319))%N.
Definition is_low_surrogate (c : N) : bool := ((56320 <=? c) && (c <=? 57343))%N.

Definition hex_digit (d : N) : N := if (d <? 10)%N then (48 + d)%N else (87 + d)%N.

(** UnicodeEscape: backslash, u, four lowercase hexadecimal digits. *)
Definition unicode_escape (c : N) : jsstring :=
  [BACKSLASH; 117%N; hex_digit (c / 4096); hex_digit ((c / 256) mod 16);
   hex_digit ((c / 16) mod 16); hex_digit (c mod 16)]%N.

Definition quote_unit (c : N) : jsstring :=
  if (c =? 8)%N then [BACKSLASH; 98%N]
  else if (c =? TAB)%N then [BACKSLASH; 116%N]
  else if (c =? LF)%N then [BACKSLASH; 110%N]
  else if (c =? 12)%N then [BACKSLASH; 102%N]
  else if (c =? CR)%N then [BACKSLASH; 114%N]
  else if (c =? QUOTE)%N then [BACKSLASH; QUOTE]
  else if (c =? BACKSLASH)%N then [BACKSLASH; BACKSLASH]
  else if (c <? 32)%N then unicode_escape c
  else [c].

(** QuoteJSONString walks the code points: a surrogate pair goes through,
    a lone surrogate is escaped. *)
Fixpoint quote_chars (s : jsstring) : jsstring :=
  match s with
  | [] => []
  | c :: r =>
      if is_high_surrogate c then
        match r with
        | d :: r' =>
            if is_low_surrogate d then c :: d :: quote_chars r'
            else unicode_escape c ++ quote_chars r
        | [] => unicode_escape c
        end
      else if is_low_surrogate c then unicode_escape c ++ quote_chars r
      else quote_unit c ++ quote_chars r
  end.

Definition quote (s : jsstring) : jsstring := QUOTE :: quote_chars s ++ [QUOTE].

(** The parts in a row with [sep] between them. *)
Fixpoint join {A : Type} (sep : A) (parts : list (list A)) : list A :=
  match parts with
  | [] => []
  | [x] => x
  | x :: r => x ++ sep :: join sep r
  end.

Definition is_undefined (v : jsvalue) : bool :=
  match v with JUndefined => true | _ => false end.

(** The texts of the members of an object, [text_of] giving the text of a
    value. *)
Fixpoint member_texts (text_of : jsvalue -> jsstring) (ms : list (jsstring * jsvalue))
  : list jsstring :=
  match ms with
  | [] => []
  | (k, x) :: r =>
      if is_undefined x then member_texts text_of r
      else (quote k ++ COLON :: text_of x) :: member_texts text_of r
  end.

(** SerializeJSONProperty with no replacer and no indentation, on a value
    that is not undefined. Inside an array undefined reads null; a member
    whose value is undefined is left out; a Number that is not finite
    reads null. *)
Fixpoint serialize (v : jsvalue) : jsstring :=
  match v with
  | JUndefined | JNull => lit "null"
  | JBool true => lit "true"
  | JBool false => lit "false"
  | JNum n => if is_finite n then Number_toString n else lit "null"
  | JStr s => quote s
  | JArr elems => LBRACK :: join COMMA (map serialize elems) ++ [RBRACK]
  | JObj members => LBRACE :: join COMMA (member_texts serialize members) ++ [RBRACE]
  end.

(** [JSON.stringify(v)]: a string, or undefined ([None]). *)
Definition stringify (v : jsvalue) : option jsstring :=
  match v with
  | JUndefined => None
  | _ => Some (serialize v)
  end.

End JSON.

(** ** types.ts *)

Record CharacterStats : Type := {
  health : jsnumber;
  resolve : jsnumber;
  suspicion : jsnumber
}.

Inductive CharacterStatus : Type := Alive | Dead | Missing | Unknown.

Module GameCharacter.
Record t : Type := mk {
  name : jsstring;
  description : jsstring;
  status : CharacterStatus
}.
End GameCharacter.

Module Achievement.
Record t : Type := mk {
  id : jsstring;         (* unique slug *)
  title : jsstring;
  description : jsstring
}.
End Achievement.

Module DiaryEntry.
Record t : Type := mk {
  id : jsstring;
  text : jsstring;
  timestamp : jsstring;
  isUserAction : option bool
}.
End DiaryEntry.

Inductive GameState : Type := START | LOADING_ANIMATION | PLAYING | ERROR.

(** The objects these records are at run time, with the properties in the
    order in which the source's object literals create them. *)
Definition js_of_stats (s : CharacterStats) : jsvalue :=
  JObj [(lit "health", JNum (health s));
        (lit "resolve", JNum (resolve s));
        (lit "suspicion", JNum (suspicion s))].

Definition js_of_status (s : CharacterStatus) : jsvalue :=
  match s with
  | Alive => JStr (lit "Alive")
  | Dead => JStr (lit "Dead")
  | Missing => JStr (lit "Missing")
  | Unknown => JStr (lit "Unknown")
  end.

Definition js_of_character (c : GameCharacter.t) : jsvalue :=
  JObj [(lit "name", JStr (GameCharacter.name c));
        (lit "description", JStr (GameCharacter.description c));
        (lit "status", js_of_status (GameCharacter.status c))].

Definition js_of_achievement (a : Achievement.t) : jsvalue :=
  JObj [(lit "id", JStr (Achievement.id a));
        (lit "title", JStr (Achievement.title a));
        (lit "description", JStr (Achievement.description a))].

Definition js_of_entry (e : DiaryEntry.t) : jsvalue :=
  JObj ([(lit "id", JStr (DiaryEntry.id e));
         (lit "text", JStr (DiaryEntry.text e));
         (lit "timestamp", JStr (DiaryEntry.timestamp e))]
        ++ match DiaryEntry.isUserAction e with
           | Some b => [(lit "isUserAction", JBool b)]
           | None => []
           end).

Definition js_of_strings (l : list jsstring) : jsvalue := JArr (map JStr l).
Definition js_of_characters (l : list GameCharacter.t) : jsvalue := JArr (map js_of_character l).
Definition js_of_achievements (l : list Achievement.t) : jsvalue := JArr (map js_of_achievement l).
Definition js_of_entries (l : list DiaryEntry.t) : jsvalue := JArr (map js_of_entry l).

(** ** services/geminiService.ts *)

Import JSON.

Definition FENCE : jsstring := lit "```".
Definition FENCE_JSON : jsstring := lit "```json".

(** The text [safeJsonParse] hands to [JSON.parse]: trimmed, the fence
    markers stripped, narrowed to the span from the first opening brace to
    the last closing one when both exist. *)
Definition strip_fences (cleanText : jsstring) : jsstring :=
  if includes FENCE cleanText
  then replace_all FENCE [] (replace_all FENCE_JSON [] cleanText)
  else cleanText.

Definition clean_text (text : jsstring) : jsstring :=
  let cleanText := trim text in
  let cleanText := strip_fences cleanText in
  let firstBrace := indexOf LBRACE cleanText in
  let lastBrace := lastIndexOf RBRACE cleanText in
  if negb (firstBrace =? -1)%Z && negb (lastBrace =? -1)%Z
  then substring cleanText firstBrace (lastBrace + 1)
  else cleanText.

(** [null] is the failure value. *)
Definition safeJsonParse (text : jsstring) : completion jsvalue :=
  try_catch (JSON.parse (clean_text text)) (fun _ => Normal JNull).

(** The client object of the SDK. *)
Record GoogleGenAI : Type := { apiKey : jsstring }.

Record GroundingChunkWeb : Type := {
  uri : option jsstring;
  title : option jsstring
}.

Record GroundingChunk : Type := { web : option GroundingChunkWeb }.

(** What the service reads of a response: [response.text], and
    [response.candidates?.[0]?.groundingMetadata?.groundingChunks]. *)
Record GenerateContentResponse : Type := {
  text : option jsstring;
  groundingChunks : option (list GroundingChunk)
}.

Record NewsResult : Type := {
  news_text : option jsstring;
  sources : list GroundingChunkWeb
}.

Definition START_FALLBACK : jsvalue :=
  JObj [(lit "narrative", JStr (lit "The city is quiet tonight. Too quiet. (System Error)"));
        (lit "stats",
         js_of_stats {| health := of_Z 100; resolve := of_Z 100; suspicion := of_Z 0 |});
        (lit "inventory", js_of_strings [lit "(Unknown)"]);
        (lit "characters", js_of_characters [])].

Definition NEXT_FALLBACK (currentStats : CharacterStats) (currentInventory : list jsstring)
    (currentCharacters : list GameCharacter.t) : jsvalue :=
  JObj [(lit "narrative", JStr (lit "The shadows lengthen... (AI Connection Error)"));
        (lit "stats", js_of_stats currentStats);
        (lit "inventory", js_of_strings currentInventory);
        (lit "characters", js_of_characters currentCharacters)].

Definition start_prompt (premise : jsstring) : jsstring :=
  lit "START GAME. Premise: " ++ [QUOTE] ++ premise ++ [QUOTE] ++
  lit ". Initialize stats (100/100/0). Give 1 starting item. Initialize character list (maybe just the protagonist or a key contact).".

Definition next_prompt (finalAction : jsstring) (currentStats : CharacterStats)
    (currentInventory : list jsstring) (currentCharacters : list GameCharacter.t) : jsstring :=
  [LF] ++ lit "    Context:" ++ [LF] ++
  lit "    - Stats: HP:" ++ Number_toString (health currentStats) ++
  lit ", PSY:" ++ Number_toString (resolve currentStats) ++
  lit ", SUS:" ++ Number_toString (suspicion currentStats) ++ [LF] ++
  lit "    - Inventory: " ++ serialize (js_of_strings currentInventory) ++ [LF] ++
  lit "    - Known Characters: " ++
  serialize (js_of_strings (map GameCharacter.name currentCharacters)) ++ [LF] ++
  [LF] ++
  lit "    Action: " ++ [QUOTE] ++ finalAction ++ [QUOTE] ++ [LF] ++
  lit "    ".

(** [userAction.trim() === "" ? "I wait." : userAction] *)
Definition final_action (userAction : jsstring) : jsstring :=
  match trim userAction with
  | [] => lit "I wait."
  | _ :: _ => userAction
  end.

Definition news_prompt (premise : jsstring) : jsstring :=
  lit "Find 3-5 real-world recent news headlines or historical events that thematically align with this story premise: "
  ++ [QUOTE] ++ premise ++ [QUOTE] ++ lit "." ++ [LF] ++
  lit "  If the premise implies a specific era (e.g., 1940s), find news from that era." ++ [LF] ++
  lit "  If it's modern, find current news about crime, mysteries, or relevant topics." ++ [LF] ++
  lit "  Format as a short, punchy list.".

(** The statements both [try] blocks share: a response with a text that
    [safeJsonParse] turns into a truthy value is returned, anything else
    throws. *)
Definition read_response (response : GenerateContentResponse) : completion jsvalue :=
  match text response with
  | Some ((_ :: _) as t) =>
      bind (safeJsonParse t) (fun parsed =>
        if truthy parsed then Normal parsed
        else Throw (Error (lit "Invalid AI response")))
  | _ => Throw (Error (lit "Invalid AI response"))
  end.

Section Service.

(** The remote side. A chat object carries its conversation; sending a
    message changes it and resolves to a response or rejects. *)
Variable Chat : Type.
Variable chats_create : GoogleGenAI -> Chat.
Variable sendMessage : Chat -> jsstring -> Chat * completion GenerateContentResponse.
Variable generateContent : GoogleGenAI -> jsstring -> completion GenerateContentResponse.

(** The two module-level variables. *)
Record Service : Type := {
  chatSession : option Chat;
  aiInstance : option GoogleGenAI
}.

Definition initial : Service := {| chatSession := None; aiInstance := None |}.

Definition initializeGemini (key : jsstring) (m : Service) : Service :=
  match key with
  | [] => m
  | _ :: _ => {| chatSession := chatSession m; aiInstance := Some {| apiKey := key |} |}
  end.

Definition startNewStory (premise : jsstring) (m : Service) : completion jsvalue * Service :=
  match aiInstance m with
  | None => (Throw (Error (lit "Gemini not initialized.")), m)
  | Some ai =>
      let chat := chats_create ai in
      let prompt := start_prompt premise in
      let (chat', response) := sendMessage chat prompt in
      (try_catch (bind response read_response) (fun _ => Normal START_FALLBACK),
       {| chatSession := Some chat'; aiInstance := aiInstance m |})
  end.

Definition generateNextEntry (userAction : jsstring) (currentStats : CharacterStats)
    (currentInventory : list jsstring) (currentCharacters : list GameCharacter.t)
    (m : Service) : completion jsvalue * Service :=
  match chatSession m with
  | None => (Throw (Error (lit "Game session not active.")), m)
  | Some chat =>
      let finalAction := final_action userAction in
      let prompt := next_prompt finalAction currentStats currentInventory currentCharacters in
      let (chat', response) := sendMessage chat prompt in
      (try_catch (bind response read_response)
         (fun _ => Normal (NEXT_FALLBACK currentStats currentInventory currentCharacters)),
       {| chatSession := Some chat'; aiInstance := aiInstance m |})
  end.

Fixpoint present {A : Type} (l : list (option A)) : list A :=
  match l with
  | [] => []
  | Some x :: r => x :: present r
  | None :: r => present r
  end.

(** [chunks?.map(chunk => chunk.web).filter(w => w) || []] *)
Definition sources_of (chunks : option (list GroundingChunk)) : list GroundingChunkWeb :=
  match chunks with
  | Some cs => present (map web cs)
  | None => []
  end.

Definition fetchWorldNews (premise : jsstring) (m : Service) : completion NewsResult :=
  match aiInstance m with
  | None => Throw (Error (lit "AI not initialized"))
  | Some ai =>
      bind (generateContent ai (news_prompt premise)) (fun response =>
        Normal {| news_text := text response;
                  sources := sources_of (groundingChunks response) |})
  end.

(** ** App.tsx: the news lookup *)

Record NewsState : Type := {
  newsContent : option jsstring;
  newsSources : list GroundingChunkWeb;
  isFetchingNews : bool
}.

Definition handleFetchNews (premise : jsstring) (m : Service) : NewsState :=
  match fetchWorldNews premise m with
  | Normal result =>
      {| newsContent :=
           Some match news_text result with
                | Some ((_ :: _) as t) => t
                | _ => lit "No headlines found."
                end;
         newsSources := sources result;
         isFetchingNews := false |}
  | Throw _ =>
      {| newsContent := Some (lit "Unable to fetch wire services.");
         newsSources := [];
         isFetchingNews := false |}
  end.

(** Calls on the module, and what a sequence of them leaves behind. *)
Inductive call : Type :=
| CallInitialize (key : jsstring)
| CallStart (premise : jsstring)
| CallNext (userAction : jsstring) (currentStats : CharacterStats)
    (currentInventory : list jsstring) (currentCharacters : list GameCharacter.t)
| CallNews (premise : jsstring).

(** The outcome of a call as far as the session invariant needs it. *)
Inductive outcome : Type :=
| Returned
| Threw (e : jserror).

Definition outcome_of {A : Type} (c : completion A) : outcome :=
  match c with
  | Normal _ => Returned
  | Throw e => Threw e
  end.

Definition perform (c : call) (m : Service) : outcome * Service :=
  match c with
  | CallInitialize key => (Returned, initializeGemini key m)
  | CallStart premise =>
      let (r, m') := startNewStory premise m in (outcome_of r, m')
  | CallNext a s i cs =>
      let (r, m') := generateNextEntry a s i cs m in (outcome_of r, m')
  | CallNews premise => (outcome_of (fetchWorldNews premise m), m)
  end.

Fixpoint perform_all (cs : list call) (m : Service) : list outcome * Service :=
  match cs with
  | [] => ([], m)
  | c :: r =>
      let (o, m') := perform c m in
      let (os, m'') := perform_all r m' in
      (o :: os, m'')
  end.

End Service.

(** ** App.tsx: achievements unlocked by a turn

    The statements of [handleUserAction] that merge
    [response.new_achievements] into the [achievements] state. The filter
    reads [achievements], the list the handler closed over when it was
    created; the update [prev => [...prev, ...uniqueNew]] appends to
    [prev], the list held when the update is applied. The two are the same
    list unless the state was set while the turn was pending, by another
    turn or by a load. The second component is the achievement handed to
    [setRecentAchievement], if any. *)
Definition known (achievements : list Achievement.t) (na : Achievement.t) : bool :=
  existsb (fun a => JSString.eqb (Achievement.id a) (Achievement.id na)) achievements.

Definition merge_achievements (achievements prev : list Achievement.t)
    (new_achievements : option (list Achievement.t))
  : list Achievement.t * option Achievement.t :=
  match new_achievements with
  | Some ((_ :: _) as delivered) =>
      let uniqueNew := filter (fun na => negb (known achievements na)) delivered in
      match uniqueNew with
      | first :: _ => (prev ++ uniqueNew, Some first)
      | [] => (prev, None)
      end
  | _ => (prev, None)
  end.

(** ** App.tsx: save and load *)

Definition SAVE_KEY : jsstring := lit "noir_chronicles_save".

(** localStorage: string keys, string values. *)
Definition Storage : Type := list (jsstring * jsstring).

Fixpoint getItem (k : jsstring) (ls : Storage) : option jsstring :=
  match ls with
  | [] => None
  | (k', v) :: r => if JSString.eqb k' k then Some v else getItem k r
  end.

Fixpoint removeItem (k : jsstring) (ls : Storage) : Storage :=
  match ls with
  | [] => []
  | (k', v) :: r => if JSString.eqb k' k then removeItem k r else (k', v) :: removeItem k r
  end.

Definition setItem (k v : jsstring) (ls : Storage) : Storage :=
  (k, v) :: removeItem k ls.

(** The state the handlers read and set. Types are erased at run time:
    each persisted piece of state holds whatever value was last stored in
    it. *)
Record AppState : Type := {
  gameState : GameState;
  entries : jsvalue;
  stats : jsvalue;
  inventory : jsvalue;
  characters : jsvalue;
  achievements : jsvalue;
  premise : jsvalue;
  hasSave : bool
}.

(** [now] is [new Date().toLocaleString()]. *)
Definition handleSave (now : jsstring) (a : AppState) (ls : Storage) : AppState * Storage :=
  let data :=
    JObj [(lit "entries", entries a);
          (lit "stats", stats a);
          (lit "inventory", inventory a);
          (lit "characters", characters a);
          (lit "achievements", achievements a);
          (lit "premise", premise a);
          (lit "timestamp", JStr now)] in
  let written :=
    match JSON.stringify data with
    | Some s => s
    | None => lit "undefined"
    end in
  ({| gameState := gameState a; entries := entries a; stats := stats a;
      inventory := inventory a; characters := characters a;
      achievements := achievements a; premise := premise a; hasSave := true |},
   setItem SAVE_KEY written ls).

(** [data.k]: a TypeError on null and undefined, the own property
    otherwise (properties inherited from a prototype are not modelled). *)
Definition member (k : string) (data : jsvalue) : completion jsvalue :=
  match data with
  | JNull | JUndefined => Throw TypeError
  | _ => Normal (get k data)
  end.

Definition handleLoad (a : AppState) (ls : Storage) : AppState * Storage :=
  match getItem SAVE_KEY ls with
  | None | Some [] => (a, ls)
  | Some raw =>
      let loaded :=
        bind (JSON.parse raw) (fun data =>
        bind (member "entries" data) (fun e =>
        bind (member "stats" data) (fun s =>
        bind (member "inventory" data) (fun i =>
        bind (member "characters" data) (fun c =>
        bind (member "achievements" data) (fun ach =>
        bind (member "premise" data) (fun p =>
        Normal {| gameState := LOADING_ANIMATION; entries := e; stats := s;
                  inventory := i; characters := c; achievements := ach;
                  premise := p; hasSave := hasSave a |}))))))) in
      match loaded with
      | Normal a' => (a', ls)
      | Throw _ =>
          ({| gameState := gameState a; entries := entries a; stats := stats a;
              inventory := inventory a; characters := characters a;
              achievements := achievements a; premise := premise a; hasSave := false |},
           removeItem SAVE_KEY ls)
      end
  end.

(** ** Vocabulary of the properties *)

Definition is_object (v : jsvalue) : bool :=
  match v with JObj _ => true | _ => false end.

Definition has_field (k : string) (v : jsvalue) : bool :=
  match v with
  | JObj ms => match lookup (lit k) ms with Some _ => true | None => false end
  | _ => false
  end.

(** The [required] list of RESPONSE_SCHEMA. *)
Definition REQUIRED_FIELDS : list string :=
  ["narrative"; "stats"; "inventory"; "characters"]%string.

Definition has_required_fields (v : jsvalue) : bool :=
  forallb (fun k => has_field k v) REQUIRED_FIELDS.

(** The ways a turn fails: the call rejects (transport), the response has
    no text, or its text does not validate. *)
Inductive turn_failure : completion GenerateContentResponse -> Prop :=
| transport_failure (e : jserror) :
    turn_failure (Throw e)
| missing_text (response : GenerateContentResponse) :
    text response = None \/ text response = Some [] ->
    turn_failure (Normal response)
| validation_failure (response : GenerateContentResponse) (t : jsstring) (parsed : jsvalue) :
    text response = Some t ->
    safeJsonParse t = Normal parsed ->
    truthy parsed = false ->
    turn_failure (Normal response).

Definition is_start (c : call) : bool :=
  match c with CallStart _ => true | _ => false end.

Definition is_returned (o : outcome) : bool :=
  match o with Returned => true | Threw _ => false end.

(** Some [startNewStory] call of the sequence returned. *)
Definition story_begun (cs : list call) (os : list outcome) : bool :=
  existsb (fun co => is_start (fst co) && is_returned (snd co)) (combine cs os).

Definition SESSION_NOT_ACTIVE : jserror := Error (lit "Game session not active.").

(** ** Sample surroundings

    A remote side that is unreachable, one that answers every message with
    the same text, and one that cites the same page twice; a sample of
    caller state. *)
Definition offline_send (chat : unit) (message : jsstring)
  : unit * completion GenerateContentResponse :=
  (tt, Throw (Error (lit "fetch failed"))).

Definition offline_generate (ai : GoogleGenAI) (contents : jsstring)
  : completion GenerateContentResponse :=
  Throw (Error (lit "fetch failed")).

Definition answering_send (answer : jsstring) (chat : unit) (message : jsstring)
  : unit * completion GenerateContentResponse :=
  (tt, Normal {| text := Some answer; groundingChunks := None |}).

Definition sample_citation : GroundingChunkWeb :=
  {| uri := Some (lit "https://example.org/a"); title := Some (lit "A") |}.

Definition citing_twice_generate (ai : GoogleGenAI) (contents : jsstring)
  : completion GenerateContentResponse :=
  Normal {| text := Some (lit "1. A");
            groundingChunks := Some [ {| web := Some sample_citation |};
                                      {| web := None |};
                                      {| web := Some sample_citation |} ] |}.

Definition sample_ai : GoogleGenAI := {| apiKey := lit "key" |}.

Definition sample_stats : CharacterStats :=
  {| health := of_Z 80; resolve := of_Z 65; suspicion := of_Z 10 |}.

Definition sample_inventory : list jsstring := [lit "Revolver"; lit "Matchbook"].

Definition sample_characters : list GameCharacter.t :=
  [GameCharacter.mk (lit "Detective Joe") (lit "Grizzled partner.") Alive].

Definition first_blood : Achievement.t :=
  Achievement.mk (lit "first_blood") (lit "First Blood") (lit "You witnessed a murder.").

(** ** Vocabulary of the proofs about JSON texts *)

(** A code unit that stands for itself inside a JSON string. *)
Definition plain (c : N) : bool :=
  negb (c <? 32)%N && negb (c =? QUOTE)%N && negb (c =? BACKSLASH)%N.

(** A token without the content of its string. *)
Definition shape (t : token) : token :=
  match t with
  | TStr _ => TStr []
  | _ => t
  end.

(** Two lexer modes that differ at most in the string read so far. *)
Inductive mode_sim : lmode -> lmode -> Prop :=
| sim_default : mode_sim LDefault LDefault
| sim_str (acc acc' : jsstring) : mode_sim (LStr acc) (LStr acc')
| sim_esc (acc acc' : jsstring) : mode_sim (LEsc acc) (LEsc acc')
| sim_uni (acc acc' : jsstring) (more : nat) (h : N) :
    mode_sim (LUni acc more h) (LUni acc' more h)
| sim_num (ph : numphase) (a : numacc) : mode_sim (LNum ph a) (LNum ph a)
| sim_lit (rest : jsstring) (t : token) :
    ~ In BACKTICK rest -> mode_sim (LLit rest t) (LLit rest t).

Definition in_string (m : lmode) : bool :=
  match m with LStr _ => true | _ => false end.

(** What the recogniser's next move depends on: where it stands and the
    kinds of the open containers. *)
Inductive position : Type :=
| AtValue | AtArrOpen | AtArrMore | AtObjOpen | AtObjKey | AtColon | AtObjMore | AtDone.

Definition is_array_frame (f : frame) : bool :=
  match f with FArr _ => true | FObj _ _ => false end.

Definition control (st : pstate) : position * list bool :=
  match st with
  | SValue k => (AtValue, map is_array_frame k)
  | SArrOpen k => (AtArrOpen, map is_array_frame k)
  | SArrMore _ k => (AtArrMore, map is_array_frame k)
  | SObjOpen k => (AtObjOpen, map is_array_frame k)
  | SObjKey _ k => (AtObjKey, map is_array_frame k)
  | SColon _ _ k => (AtColon, map is_array_frame k)
  | SObjMore _ k => (AtObjMore, map is_array_frame k)
  | SDone _ => (AtDone, [])
  end.

(** The outermost open container is an object. *)
Definition object_at_bottom (k : list frame) : bool :=
  match rev k with
  | FObj _ _ :: _ => true
  | _ => false
  end.

(** The value being read is an object: the recogniser is inside its
    outermost braces, or done with an object. *)
Definition reading_object (st : pstate) : bool :=
  match st with
  | SValue k | SArrOpen k | SArrMore _ k => object_at_bottom k
  | SObjOpen k | SObjKey _ k | SColon _ _ k | SObjMore _ k =>
      match k with [] => true | _ => object_at_bottom k end
  | SDone v => is_object v
  end.

(** Two steps of the lexer that agree up to the content of strings. *)
Definition step_agree (r r' : option (list token * lmode)) : Prop :=
  match r, r' with
  | Some (ts, m), Some (ts', m') => map shape ts = map shape ts' /\ mode_sim m m'
  | None, None => True
  | _, _ => False
  end.

(** Two moves of the recogniser that leave it in the same position. *)
Definition parse_agree (r r' : option pstate) : Prop :=
  match r, r' with
  | Some st, Some st' => control st = control st'
  | None, None => True
  | _, _ => False
  end.

(** A fenced reply with prose around the object [{"a":1}]. *)
Definition sample_prefix : jsstring := lit "Here is the entry: ```json" ++ [LF].
Definition sample_body : jsstring := [QUOTE] ++ lit "a" ++ [QUOTE] ++ lit ":1".
Definition sample_suffix : jsstring := [LF] ++ lit "``` Good luck.".

(** ** Vocabulary of the save and load round trip *)

(** Minus zero: a zero, or a decimal that rounds to zero, with a minus. *)
Definition is_minus_zero (n : jsnumber) : bool :=
  match n with
  | Dec true _ _ => negb (number_truthy n)
  | _ => false
  end.

(** The Numbers that JSON text carries: the finite ones other than minus
    zero. NaN and the infinities are written as null, minus zero as 0. *)
Definition json_number (n : jsnumber) : bool :=
  is_finite n && negb (is_minus_zero n).

Definition is_digit (c : N) : bool := ((48 <=? c) && (c <=? 57))%N.

(** A digit from 1 to 9, with which the digits of a positive number begin. *)
Definition leading (c : N) : Prop :=
  c = 49%N \/ c = 50%N \/ c = 51%N \/ c = 52%N \/ c = 53%N \/ c = 54%N \/ c = 55%N \/
  c = 56%N \/ c = 57%N.

(** The number that a row of digits reads as, after [acc]. *)
Definition digits_value (acc : N) (ds : jsstring) : N :=
  fold_left (fun a c => (a * 10 + (c - 48))%N) ds acc.

(** The carrier that JSON.parse gives to the text of a finite Number. It
    is the carrier of the same Number with the zeros at the end of its
    digits moved to the exponent, except that an integer below 10^21 is
    written out with exponent 0; a zero is 0 with exponent 0. *)
Definition normalize (n : jsnumber) : jsnumber :=
  match n with
  | Dec neg m e =>
      if number_truthy n then
        let ds := strip_zeros (digits m) in
        let k := Z.of_nat (List.length ds) in
        let p := (Z.of_nat (List.length (digits m)) + e)%Z in
        if ((k <=? p) && (p <=? 21))%Z
        then Dec neg (digits_value 0 ds * 10 ^ N.of_nat (Z.to_nat (p - k))) 0
        else Dec neg (digits_value 0 ds) (p - k)
      else Dec neg 0 0
  | NaN | Infinity _ => n
  end.

(** A test that two carriers are one Number: both are zeros of one sign,
    or they have one sign and one decimal value. (Two different decimals
    too large for a double are one infinity; the test does not say so.) *)
Definition same_number (a b : jsnumber) : bool :=
  match a, b with
  | NaN, NaN => true
  | Infinity x, Infinity y => Bool.eqb x y
  | Dec x m e, Dec y m' e' =>
      Bool.eqb x y &&
      (if number_truthy a
       then number_truthy b &&
            (Z.of_N m * 10 ^ (e - Z.min e e') =? Z.of_N m' * 10 ^ (e' - Z.min e e'))%Z
       else negb (number_truthy b))
  | _, _ => false
  end.

Fixpoint distinct_keys (ms : list (jsstring * jsvalue)) : bool :=
  match ms with
  | [] => true
  | (k, _) :: r => negb (existsb (JSString.eqb k) (map fst r)) && distinct_keys r
  end.

(** The values that JSON text carries without loss: no undefined, every
    Number finite and not minus zero, no object with a repeated key. *)
Fixpoint json_safe (v : jsvalue) : bool :=
  match v with
  | JUndefined => false
  | JNull | JBool _ | JStr _ => true
  | JNum n => json_number n
  | JArr elems => forallb json_safe elems
  | JObj members =>
      distinct_keys members && forallb (fun kv => json_safe (snd kv)) members
  end.

(** The value with every Number in the carrier that JSON.parse gives it. *)
Fixpoint normal_value (v : jsvalue) : jsvalue :=
  match v with
  | JNum n => JNum (normalize n)
  | JArr elems => JArr (map normal_value elems)
  | JObj members => JObj (map (fun kv => (fst kv, normal_value (snd kv))) members)
  | JUndefined | JNull | JBool _ | JStr _ => v
  end.

Definition normal_member (kv : jsstring * jsvalue) : jsstring * jsvalue :=
  (fst kv, normal_value (snd kv)).

(** The same value: the same structure, strings and booleans, and at each
    place the same Number, whatever its carrier. *)
Fixpoint same_value (v w : jsvalue) : bool :=
  match v, w with
  | JUndefined, JUndefined | JNull, JNull => true
  | JBool a, JBool b => Bool.eqb a b
  | JNum a, JNum b => same_number a b
  | JStr a, JStr b => JSString.eqb a b
  | JArr a, JArr b =>
      (fix all (a b : list jsvalue) : bool :=
         match a, b with
         | [], [] => true
         | x :: a', y :: b' => same_value x y && all a' b'
         | _, _ => false
         end) a b
  | JObj a, JObj b =>
      (fix all (a b : list (jsstring * jsvalue)) : bool :=
         match a, b with
         | [], [] => true
         | (k, x) :: a', (k', y) :: b' =>
             JSString.eqb k k' && same_value x y && all a' b'
         | _, _ => false
         end) a b
  | _, _ => false
  end.

(** The tokens of the text of a value. *)
Fixpoint tokens_of (v : jsvalue) : list token :=
  match v with
  | JUndefined | JNull => [TNull]
  | JBool true => [TTrue]
  | JBool false => [TFalse]
  | JNum n => [TNum (normalize n)]
  | JStr s => [TStr s]
  | JArr elems => TLBrack :: join TComma (map tokens_of elems) ++ [TRBrack]
  | JObj members =>
      TLBrace ::
      join TComma (map (fun kv => TStr (fst kv) :: TColon :: tokens_of (snd kv)) members)
      ++ [TRBrace]
  end.

(** What may follow a value inside a text: nothing, a comma, or the end
    of the enclosing array or object. *)
Definition delimited (rest : jsstring) : bool :=
  match rest with
  | [] => true
  | c :: _ => (c =? COMMA)%N || (c =? RBRACK)%N || (c =? RBRACE)%N
  end.

(** The session as types.ts types it. *)
Record SessionState : Type := {
  session_entries : list DiaryEntry.t;
  session_stats : CharacterStats;
  session_inventory : list jsstring;
  session_characters : list GameCharacter.t;
  session_achievements : list Achievement.t;
  session_premise : jsstring
}.

Definition app_of_session (s : SessionState) (g : GameState) (saved : bool) : AppState :=
  {| gameState := g;
     entries := js_of_entries (session_entries s);
     stats := js_of_stats (session_stats s);
     inventory := js_of_strings (session_inventory s);
     characters := js_of_characters (session_characters s);
     achievements := js_of_achievements (session_achievements s);
     premise := JStr (session_premise s);
     hasSave := saved |}.

(** [handleSave] on the state [a], and later [handleLoad] on the record
    it left, whatever the state [held] is by then: the one it saved, a
    later one, or the initial one of a new page. *)
Definition save_then_load (now : jsstring) (a held : AppState) (ls : Storage) : AppState :=
  fst (handleLoad held (snd (handleSave now a ls))).

Definition same_session (a b : AppState) : Prop :=
  entries a = entries b /\ stats a = stats b /\ inventory a = inventory b /\
  characters a = characters b /\ achievements a = achievements b /\
  premise a = premise b.

(** The same session up to the carriers of its Numbers. *)
Definition equal_session (a b : AppState) : Prop :=
  same_value (entries a) (entries b) = true /\
  same_value (stats a) (stats b) = true /\
  same_value (inventory a) (inventory b) = true /\
  same_value (characters a) (characters b) = true /\
  same_value (achievements a) (achievements b) = true /\
  same_value (premise a) (premise b) = true.

Definition finite_stats (s : CharacterStats) : bool :=
  json_number (health s) && json_number (resolve s) && json_number (suspicion s).

Definition normal_stats (s : CharacterStats) : CharacterStats :=
  {| health := normalize (health s);
     resolve := normalize (resolve s);
     suspicion := normalize (suspicion s) |}.

Definition same_stats (s s' : CharacterStats) : bool :=
  same_number (health s) (health s') && same_number (resolve s) (resolve s')
  && same_number (suspicion s) (suspicion s').

Definition sample_session : SessionState :=
  {| session_entries :=
       [DiaryEntry.mk (lit "1700000000000") (lit "Rain on the window.") (lit "3:00:00 AM")
          (Some false);
        DiaryEntry.mk (lit "user-1700000000001") (lit "> Search the desk") (lit "3:01:00 AM")
          (Some true)];
     session_stats := sample_stats;
     session_inventory := sample_inventory;
     session_characters := sample_characters;
     session_achievements := [first_blood];
     session_premise := lit "A rainy night." |}.

(** A session with stats that are not integers: 99.5, 1e21 and 0.000015,
    the last carried with a zero at the end of its digits. *)
Definition fractional_session : SessionState :=
  {| session_entries :=
       [DiaryEntry.mk (lit "1700000000000") (lit "Rain on the window.") (lit "3:00:00 AM")
          (Some false)];
     session_stats :=
       {| health := Dec false 995 (-1); resolve := Dec false 1 21;
          suspicion := Dec false 150 (-7) |};
     session_inventory := sample_inventory;
     session_characters := sample_characters;
     session_achievements := [first_blood];
     session_premise := lit "A rainy night." |}.

(** A session whose resolve the model has set to a literal beyond the
    range of doubles, such as 1e999: the Number is Infinity. *)
Definition unbounded_session : SessionState :=
  {| session_entries := [];
     session_stats := {| health := of_Z 100; resolve := Infinity false; suspicion := of_Z 0 |};
     session_inventory := [];
     session_characters := [];
     session_achievements := [];
     session_premise := lit "A rainy night." |}.

(** The text of [v], followed by [rest], lexes to the tokens of [v] and
    then those of [rest]. *)
Definition lexes_back (v : jsvalue) : Prop :=
  json_safe v = true ->
  forall rest, delimited rest = true ->
    lex_run LDefault (serialize v ++ rest)
    = option_map (app (tokens_of v)) (lex_run LDefault rest).

(** The tokens of [v], followed by [ts], are recognised as [v] with its
    Numbers in the carriers the reader gives them, and the recogniser goes
    on with [ts]. *)
Definition parses_back (v : jsvalue) : Prop :=
  json_safe v = true ->
  forall (k : list frame) (ts : list token),
    parse_run (SValue k) (tokens_of v ++ ts) = parse_run (deliver (normal_value v) k) ts.

Definition member_tokens (kv : jsstring * jsvalue) : list token :=
  TStr (fst kv) :: TColon :: tokens_of (snd kv).

(** ** services/geminiService.ts: the case summary *)

(** [l.slice(-n)]: the last [n] elements, or all of them. *)
Definition slice_last {A : Type} (n : nat) (l : list A) : list A :=
  skipn (List.length l - n) l.

(** One line of the log: who speaks, and the text of the entry. *)
Definition summary_line (e : DiaryEntry.t) : jsstring :=
  match DiaryEntry.isUserAction e with
  | Some true => lit "> Player"
  | _ => lit "Narrator"
  end ++ lit ": " ++ DiaryEntry.text e.

Definition story_text (entries : list DiaryEntry.t) : jsstring :=
  join LF (map summary_line (slice_last 20 entries)).

Definition summary_prompt (storyText : jsstring) : jsstring :=
  [LF] ++ lit "        You are a Noir Detective's assistant." ++ [LF] ++
  lit "        Analyze the following case log and provide a gritty, concise summary (max 3 bullet points) of the current situation, clues, and immediate danger."
  ++ [LF] ++
  lit "        " ++ [LF] ++
  lit "        LOG:" ++ [LF] ++
  lit "        " ++ storyText ++ [LF] ++
  lit "        ".

Section Summary.

Variable Chat : Type.
Variable generateContent : GoogleGenAI -> jsstring -> completion GenerateContentResponse.

Definition generateCaseSummary (entries : list DiaryEntry.t) (m : Service Chat) : jsstring :=
  match aiInstance m with
  | None => lit "Signal weak. Cannot compile summary."
  | Some ai =>
      match generateContent ai (summary_prompt (story_text entries)) with
      | Normal response =>
          match text response with
          | Some ((_ :: _) as t) => t
          | _ => lit "No summary available."
          end
      | Throw _ => lit "Unable to compile case file."
      end
  end.

End Summary.

(** ** App.tsx: the start screen *)

Inductive TvChannel : Type := MENU | CONFIG | TIMELINE | SETUP | ERASE_CONFIRM.

Definition handleDeleteSave (tvChannel : TvChannel) : TvChannel := ERASE_CONFIRM.

Definition confirmDelete (a : AppState) (ls : Storage) : AppState * TvChannel * Storage :=
  ({| gameState := gameState a; entries := entries a; stats := stats a;
      inventory := inventory a; characters := characters a;
      achievements := achievements a; premise := premise a; hasSave := false |},
   MENU,
   removeItem SAVE_KEY ls).

(** The state [startInvestigation] sets beside the session. *)
Record StartScreen : Type := {
  appState : AppState;
  isProcessing : bool;
  errorMsg : option jsstring
}.

(** [process.env.API_KEY || userApiKey], with [env_key] for
    [process.env.API_KEY]. *)
Definition keyToUse (env_key : option jsstring) (userApiKey : jsstring) : jsstring :=
  match env_key with
  | Some ((_ :: _) as k) => k
  | _ => userApiKey
  end.

Section Investigation.

Variable Chat : Type.
Variable chats_create : GoogleGenAI -> Chat.
Variable sendMessage : Chat -> jsstring -> Chat * completion GenerateContentResponse.

(** [story_premise] is the [premise]
    state, a string as TypeScript types it; [now_id] is
    [Date.now().toString()] and [now_time] is
    [new Date().toLocaleTimeString()]. *)
Definition startInvestigation (env_key : option jsstring)
    (userApiKey story_premise now_id now_time : jsstring)
    (ui : StartScreen) (m : Service Chat) : StartScreen * Service Chat :=
  let key := keyToUse env_key userApiKey in
  match trim key with
  | [] =>
      ({| appState := appState ui; isProcessing := false;
          errorMsg := Some (lit "API Key Missing. Check Config Channel.") |}, m)
  | _ :: _ =>
      let (r, m') :=
        startNewStory chats_create sendMessage story_premise (initializeGemini key m) in
      let lost :=
        {| appState := appState ui; isProcessing := false;
           errorMsg := Some (lit "Signal Lost. Check Connection.") |} in
      match r with
      | Normal response =>
          (* [response.stats] is the first property read: it throws on
             null and undefined, before any state is set *)
          match member "stats" response with
          | Normal response_stats =>
              let newEntry :=
                JObj [(lit "id", JStr now_id);
                      (lit "text", get "narrative" response);
                      (lit "timestamp", JStr now_time);
                      (lit "isUserAction", JBool false)] in
              ({| appState :=
                    {| gameState := LOADING_ANIMATION;
                       entries := JArr [newEntry];
                       stats := response_stats;
                       inventory := get "inventory" response;
                       characters :=
                         if truthy (get "characters" response)
                         then get "characters" response
                         else JArr [];
                       achievements := JArr [];
                       premise := premise (appState ui);
                       hasSave := hasSave (appState ui) |};
                  isProcessing := false;
                  errorMsg := None |}, m')
          | Throw _ => (lost, m')
          end
      | Throw _ => (lost, m')
      end
  end.

End Investigation.

(** ** The input bar

    [handleSubmit]: what is handed to [onSubmit], if anything, and the
    input value afterwards. *)
Definition handleSubmit (inputValue : jsstring) (processing : bool)
  : option jsstring * jsstring :=
  match trim inputValue with
  | _ :: _ =>
      if negb processing then (Some (trim inputValue), [])
      else (None, inputValue)
  | [] => (None, inputValue)
  end.

(** ** Vocabulary of the further properties *)

(** The last non-empty key handed to [initializeGemini] by a sequence of
    calls, [k] when there is none. *)
Fixpoint last_key (cs : list call) (k : option jsstring) : option jsstring :=
  match cs with
  | [] => k
  | CallInitialize ((_ :: _) as key) :: r => last_key r (Some key)
  | _ :: r => last_key r k
  end.

Definition client_of (k : option jsstring) : option GoogleGenAI :=
  match k with
  | Some key => Some {| apiKey := key |}
  | None => None
  end.

Definition blank (s : jsstring) : bool := forallb is_white_space s.

Definition sample_app : AppState := app_of_session sample_session PLAYING false.

Definition sample_screen : StartScreen :=
  {| appState := sample_app; isProcessing := false; errorMsg := None |}.

(** A remote side that answers every request with the same text. *)
Definition answering_generate (answer : jsstring) (ai : GoogleGenAI) (contents : jsstring)
  : completion GenerateContentResponse :=
  Normal {| text := Some answer; groundingChunks := None |}.

(** * Properties *)

(** ** The definitions at work *)

Example trim_strips_both_ends : trim (lit "  a b  ") = lit "a b".
Proof. reflexivity. Qed.

Example trim_strips_no_break_space : trim [160; 97; 8232]%N = [97]%N.
Proof. reflexivity. Qed.

Example substring_swaps_its_ends : substring (lit "} {") 2 1 = lit " ".
Proof. reflexivity. Qed.

Example replace_all_leaves_the_bare_fence :
  replace_all FENCE_JSON [] (lit "```json{}```") = lit "{}```".
Proof. reflexivity. Qed.

Example parse_keeps_the_digits_of_a_number :
  JSON.parse (lit "-0.50e+1") = Normal (JNum (Dec true 50 (-1))).
Proof. reflexivity. Qed.

Example toString_writes_a_fraction_with_its_point :
  map Number_toString [Dec false 995 (-1); Dec false 150 (-7); Dec true 123 (-9)]
  = [lit "99.5"; lit "0.000015"; lit "-1.23e-7"].
Proof. vm_compute. reflexivity. Qed.

Example toString_writes_an_integer_out_below_1e21 :
  map Number_toString [Dec false 12 19; Dec false 1 21; Dec true 0 0; Dec false 1 999]
  = [lit "120000000000000000000"; lit "1e+21"; lit "0"; lit "Infinity"].
Proof. vm_compute. reflexivity. Qed.

Example parse_of_stringify_gives_the_normal_carrier :
  JSON.parse (serialize (JNum (Dec false 150 (-7)))) = Normal (JNum (Dec false 15 (-6))).
Proof. vm_compute. reflexivity. Qed.

Example parse_refuses_a_leading_zero : JSON.parse (lit "01") = Throw SyntaxError.
Proof. reflexivity. Qed.

Example parse_refuses_a_trailing_comma : JSON.parse (lit "[1,]") = Throw SyntaxError.
Proof. reflexivity. Qed.

Example parse_last_duplicate_key_wins :
  JSON.parse (lit "{" ++ quote (lit "a") ++ lit ":1," ++ quote (lit "b") ++ lit ":2,"
              ++ quote (lit "a") ++ lit ":3}")
  = Normal (JObj [(lit "a", JNum (of_Z 3)); (lit "b", JNum (of_Z 2))]).
Proof. reflexivity. Qed.

Example a_literal_beyond_doubles_is_not_finite : is_finite (Dec false 1 999) = false.
Proof. vm_compute. reflexivity. Qed.

Example a_literal_below_doubles_is_falsy : truthy (JNum (Dec false 1 (-400))) = false.
Proof. vm_compute. reflexivity. Qed.

Example stringify_escapes_and_drops_undefined :
  JSON.stringify (JObj [(lit "a", JStr [LF; QUOTE; 1]%N); (lit "u", JUndefined);
                        (lit "n", JArr [JNum NaN; JUndefined; JNum (of_Z (-7))])])
  = Some (lit "{" ++ [QUOTE] ++ lit "a" ++ [QUOTE] ++ lit ":" ++ [QUOTE; BACKSLASH]
          ++ lit "n" ++ [BACKSLASH; QUOTE; BACKSLASH] ++ lit "u0001" ++ [QUOTE] ++ lit ","
          ++ [QUOTE] ++ lit "n" ++ [QUOTE] ++ lit ":[null,null,-7]}").
Proof. reflexivity. Qed.

Example safeJsonParse_reads_a_fenced_reply :
  safeJsonParse (sample_prefix ++ LBRACE :: sample_body ++ RBRACE :: sample_suffix)
  = Normal (JObj [(lit "a", JNum (of_Z 1))]).
Proof. reflexivity. Qed.

Example safeJsonParse_fails_on_reversed_braces : safeJsonParse (lit "} {") = Normal JNull.
Proof. reflexivity. Qed.

Example safeJsonParse_fails_on_stray_brace_in_prose :
  safeJsonParse (lit "Use {braces}: {}") = Normal JNull.
Proof. reflexivity. Qed.

(** An object without any required field goes through [startNewStory] to
    the caller. *)
Example startNewStory_returns_incomplete_object :
  fst (startNewStory (fun _ => tt) (answering_send (lit "{}")) (lit "A rainy night.")
         {| chatSession := None; aiInstance := Some sample_ai |})
  = Normal (JObj []).
Proof. reflexivity. Qed.

Example merge_skips_a_known_achievement :
  merge_achievements [first_blood] [first_blood] (Some [first_blood])
  = ([first_blood], None).
Proof. reflexivity. Qed.

(** ** Strings *)

Lemma eqb_refl (s : jsstring) : JSString.eqb s s = true.
Proof.
  induction s as [|c s IH]; simpl; [reflexivity|].
  now rewrite N.eqb_refl, IH.
Qed.

Lemma eqb_eq (s t : jsstring) : JSString.eqb s t = true <-> s = t.
Proof.
  split; [|intros ->; apply eqb_refl].
  revert t; induction s as [|c s IH]; intros [|d t]; simpl; try discriminate; auto.
  intros H. apply andb_true_iff in H as [H1 H2].
  apply N.eqb_eq in H1. apply IH in H2. congruence.
Qed.

Lemma trimStart_blank (s : jsstring) :
  forallb is_white_space s = true -> trimStart s = [].
Proof.
  induction s as [|c s IH]; simpl; [reflexivity|].
  intros H. apply andb_true_iff in H as [Hc Hs]. rewrite Hc. auto.
Qed.

Lemma trim_blank (s : jsstring) :
  forallb is_white_space s = true -> trim s = [].
Proof.
  intros H. unfold trim, trimEnd. now rewrite (trimStart_blank _ H).
Qed.

Lemma In_trimStart (c : N) (s : jsstring) : In c (trimStart s) -> In c s.
Proof.
  induction s as [|x s IH]; simpl; [auto|].
  destruct (is_white_space x); simpl; auto.
Qed.

Lemma In_trim (c : N) (s : jsstring) : In c (trim s) -> In c s.
Proof.
  unfold trim, trimEnd. intros H.
  apply In_trimStart. apply in_rev in H. apply In_trimStart in H.
  now apply in_rev in H.
Qed.

Lemma In_replace_from (c : N) (pat : jsstring) (s : jsstring) :
  forall skip, In c (replace_from pat [] skip s) -> In c s.
Proof.
  induction s as [|x s IH]; intros skip; simpl; [auto|].
  destruct skip as [|k].
  - destruct (starts_with pat (x :: s)); simpl.
    + intros H. right. eapply IH; eauto.
    + intros [H | H]; [now left | right; eapply IH; eauto].
  - intros H. right. eapply IH; eauto.
Qed.

Lemma In_strip_fences (c : N) (s : jsstring) : In c (strip_fences s) -> In c s.
Proof.
  unfold strip_fences, replace_all.
  destruct (includes FENCE s); [|auto].
  intros H. apply In_replace_from in H. now apply In_replace_from in H.
Qed.

Lemma find_first_absent (c : N) (s : jsstring) : ~ In c s -> find_first c s = None.
Proof.
  induction s as [|x s IH]; simpl; [reflexivity|].
  intros H. destruct (N.eqb_spec x c) as [->|_]; [exfalso; auto|].
  rewrite IH; auto.
Qed.

Lemma find_last_absent (c : N) (s : jsstring) : ~ In c s -> find_last c s = None.
Proof.
  induction s as [|x s IH]; simpl; [reflexivity|].
  intros H. rewrite IH by auto.
  destruct (N.eqb_spec x c) as [->|_]; [exfalso; auto|reflexivity].
Qed.

(** Without an opening or without a closing brace the text is not narrowed. *)
Lemma clean_text_without_braces (text : jsstring) :
  ~ In JSON.LBRACE text \/ ~ In JSON.RBRACE text ->
  clean_text text = strip_fences (trim text).
Proof.
  intros H. unfold clean_text, indexOf, lastIndexOf.
  destruct H as [H | H].
  - rewrite find_first_absent; [reflexivity|].
    intros Hin. apply H. apply In_trim. now apply In_strip_fences.
  - rewrite (@find_last_absent JSON.RBRACE).
    + simpl. now rewrite andb_false_r.
    + intros Hin. apply H. apply In_trim. now apply In_strip_fences.
Qed.

(** ** The response validator *)

(** C2 (as the code has it): the validator checks no field. Whatever
    value the cleaned text parses to is returned as it is, also when it
    lacks one of narrative, stats, inventory and characters. *)
Theorem safeJsonParse_checks_no_field (text : jsstring) (v : jsvalue) :
  JSON.parse (clean_text text) = Normal v ->
  has_required_fields v = false ->
  safeJsonParse text = Normal v.
Proof.
  intros H _. unfold safeJsonParse. now rewrite H.
Qed.

Lemma safeJsonParse_checks_no_field_witness :
  has_required_fields (JObj []) = false /\ safeJsonParse (lit "{}") = Normal (JObj []).
Proof.
  split; [reflexivity|].
  apply (@safeJsonParse_checks_no_field (lit "{}") (JObj [])); reflexivity.
Defined.

(** An object without any of the required fields is a success of the
    validator, not a failure. *)
Lemma incomplete_object_is_returned :
  ~ (forall (text : jsstring) (v : jsvalue),
       JSON.parse (clean_text text) = Normal v ->
       has_required_fields v = false ->
       safeJsonParse text = Normal JNull).
Proof.
  intros H. specialize (H (lit "{}") (JObj []) eq_refl eq_refl). discriminate H.
Qed.

(** C3 (as the code has it): the validator never throws; it returns the
    failure value whenever the cleaned text is not valid JSON; and a text
    without a pair of braces is not narrowed but parsed whole. *)
Theorem safeJsonParse_total (text : jsstring) :
  (exists v, safeJsonParse text = Normal v) /\
  (JSON.parse_text (clean_text text) = None -> safeJsonParse text = Normal JNull) /\
  (~ In JSON.LBRACE text \/ ~ In JSON.RBRACE text ->
   safeJsonParse text
     = try_catch (JSON.parse (strip_fences (trim text))) (fun _ => Normal JNull)).
Proof.
  split; [|split].
  - unfold safeJsonParse. destruct (JSON.parse (clean_text text)); simpl; eauto.
  - intros H. unfold safeJsonParse, JSON.parse. now rewrite H.
  - intros H. unfold safeJsonParse. now rewrite (clean_text_without_braces _ H).
Qed.

Lemma safeJsonParse_total_witness :
  safeJsonParse (lit "not json") = Normal JNull.
Proof.
  apply (proj1 (proj2 (safeJsonParse_total (lit "not json")))). reflexivity.
Defined.

(** A text without braces that is JSON by itself is a success. *)
Lemma braceless_json_is_returned :
  ~ (forall text : jsstring,
       ~ In JSON.LBRACE text \/ ~ In JSON.RBRACE text ->
       safeJsonParse text = Normal JNull).
Proof.
  intros H. specialize (H (lit "[]")).
  assert (Hin : ~ In JSON.LBRACE (lit "[]")).
  { simpl. intros [E | [E | []]]; discriminate E. }
  specialize (H (or_introl Hin)). discriminate H.
Qed.

(** ** The turn orchestrator *)

Section ServiceProperties.

Variable Chat : Type.
Variable chats_create : GoogleGenAI -> Chat.
Variable sendMessage : Chat -> jsstring -> Chat * completion GenerateContentResponse.
Variable generateContent : GoogleGenAI -> jsstring -> completion GenerateContentResponse.


Lemma safeJsonParse_normal (t : jsstring) :
  exists v, safeJsonParse t = Normal v.
Proof.
  unfold safeJsonParse. destruct (JSON.parse (clean_text t)); simpl; eauto.
Qed.

Lemma try_body_returns (r : completion GenerateContentResponse) (fallback : jsvalue) :
  outcome_of (try_catch (bind r read_response) (fun _ => Normal fallback)) = Returned.
Proof.
  destruct (bind r read_response); reflexivity.
Qed.

(** A failed turn makes the shared [try] body throw. *)
Lemma failed_turn_throws (r : completion GenerateContentResponse) :
  turn_failure r -> exists e, bind r read_response = Throw e.
Proof.
  intros [e | response [H | H] | response t parsed Ht Hp Hf]; simpl.
  - eauto.
  - unfold read_response. rewrite H. eauto.
  - unfold read_response. rewrite H. eauto.
  - unfold read_response. rewrite Ht. destruct t as [|c t]; [eauto|].
    cbv beta iota. rewrite Hp. simpl. rewrite Hf. eauto.
Qed.

(** Conversely, the body throws only on a failed turn. *)
Lemma throwing_turn_failed (r : completion GenerateContentResponse) (e : jserror) :
  bind r read_response = Throw e -> turn_failure r.
Proof.
  destruct r as [response | e']; simpl; [|intros _; constructor].
  unfold read_response. destruct (text response) as [[|c t]|] eqn:Ht.
  - intros _. apply missing_text. now right.
  - cbv beta iota.
    destruct (safeJsonParse_normal (c :: t)) as [v Hv]. rewrite Hv. simpl.
    destruct (truthy v) eqn:Hf; [discriminate|].
    intros _. eapply validation_failure; eauto.
  - intros _. apply missing_text. now left.
Qed.

(** C4: when [generateNextEntry] runs with an active session and the turn
    fails (transport or validation), it returns the fallback response: the
    fixed narrative line, and the stats, inventory and characters of the
    caller exactly as passed. *)
Theorem generateNextEntry_failure_echoes_state
    (userAction : jsstring) (currentStats : CharacterStats)
    (currentInventory : list jsstring) (currentCharacters : list GameCharacter.t)
    (m : Service Chat) (chat : Chat) :
  chatSession m = Some chat ->
  turn_failure
    (snd (sendMessage chat (next_prompt (final_action userAction) currentStats
                              currentInventory currentCharacters))) ->
  exists fallback,
    fst (generateNextEntry sendMessage userAction currentStats currentInventory
           currentCharacters m)
      = Normal fallback /\
    get "narrative" fallback = JStr (lit "The shadows lengthen... (AI Connection Error)") /\
    get "stats" fallback = js_of_stats currentStats /\
    get "inventory" fallback = js_of_strings currentInventory /\
    get "characters" fallback = js_of_characters currentCharacters /\
    fallback = JObj [(lit "narrative", get "narrative" fallback);
                     (lit "stats", get "stats" fallback);
                     (lit "inventory", get "inventory" fallback);
                     (lit "characters", get "characters" fallback)].
Proof.
  intros Hs Hf. unfold generateNextEntry. rewrite Hs.
  destruct (sendMessage chat _) as [chat' r]. simpl in Hf |- *.
  destruct (failed_turn_throws Hf) as [e He]. rewrite He. simpl.
  eexists. split; [reflexivity|]. repeat split; reflexivity.
Qed.

(** C5: when [startNewStory] runs with an initialised connection and the
    model call fails or its response does not validate, it returns the
    fixed fallback: the fixed narrative, stats 100/100/0, the inventory
    ["(Unknown)"] and no characters. *)
Theorem startNewStory_failure_fallback
    (premise : jsstring) (m : Service Chat) (ai : GoogleGenAI) :
  aiInstance m = Some ai ->
  turn_failure (snd (sendMessage (chats_create ai) (start_prompt premise))) ->
  fst (startNewStory chats_create sendMessage premise m)
    = Normal
        (JObj [(lit "narrative",
                JStr (lit "The city is quiet tonight. Too quiet. (System Error)"));
               (lit "stats",
                js_of_stats {| health := of_Z 100; resolve := of_Z 100;
                               suspicion := of_Z 0 |});
               (lit "inventory", js_of_strings [lit "(Unknown)"]);
               (lit "characters", js_of_characters [])]).
Proof.
  intros Ha Hf. unfold startNewStory. rewrite Ha.
  destruct (sendMessage (chats_create ai) _) as [chat' r]. simpl in Hf |- *.
  destruct (failed_turn_throws Hf) as [e He]. rewrite He. reflexivity.
Qed.

Lemma final_action_blank (userAction : jsstring) :
  forallb is_white_space userAction = true ->
  final_action userAction = lit "I wait.".
Proof.
  intros H. unfold final_action. now rewrite (trim_blank _ H).
Qed.

Lemma final_action_wait : final_action (lit "I wait.") = lit "I wait.".
Proof. reflexivity. Qed.

(** C6: an action that is empty or all whitespace sends the same prompt
    as the action "I wait." and so gives the same result and leaves the
    same session. *)
Theorem generateNextEntry_blank_action_waits
    (userAction : jsstring) (currentStats : CharacterStats)
    (currentInventory : list jsstring) (currentCharacters : list GameCharacter.t)
    (m : Service Chat) :
  forallb is_white_space userAction = true ->
  next_prompt (final_action userAction) currentStats currentInventory currentCharacters
    = next_prompt (final_action (lit "I wait.")) currentStats currentInventory
        currentCharacters /\
  generateNextEntry sendMessage userAction currentStats currentInventory
    currentCharacters m
  = generateNextEntry sendMessage (lit "I wait.") currentStats currentInventory
      currentCharacters m.
Proof.
  intros H. unfold generateNextEntry.
  rewrite (final_action_blank _ H), final_action_wait. split; reflexivity.
Qed.

(** One call: the session is absent afterwards exactly when it was absent
    before and the call was not a [startNewStory] that returned. *)
Lemma perform_session (c : call) (m : Service Chat) :
  chatSession (snd (perform chats_create sendMessage generateContent c m)) = None <->
  chatSession m = None /\
  is_start c && is_returned (fst (perform chats_create sendMessage generateContent c m))
  = false.
Proof.
  destruct c as [key | premise | a s i cs | premise]; simpl.
  - destruct key; simpl; tauto.
  - unfold startNewStory. destruct (aiInstance m) as [ai|]; simpl.
    + destruct (sendMessage _ _) as [chat' r]. simpl. rewrite try_body_returns. simpl.
      split; [discriminate | intros [_ H]; discriminate].
    + tauto.
  - unfold generateNextEntry. destruct (chatSession m) as [chat|] eqn:E; simpl.
    + destruct (sendMessage _ _) as [chat' r]. simpl.
      split; [discriminate | intros [H _]; discriminate].
    + rewrite E. tauto.
  - tauto.
Qed.

Lemma perform_all_session (cs : list call) :
  forall m : Service Chat,
    chatSession (snd (perform_all chats_create sendMessage generateContent cs m)) = None <->
    chatSession m = None /\
    story_begun cs (fst (perform_all chats_create sendMessage generateContent cs m)) = false.
Proof.
  induction cs as [|c cs IH]; intros m; simpl.
  - unfold story_begun. simpl. tauto.
  - pose proof (perform_session c m) as Hc.
    destruct (perform chats_create sendMessage generateContent c m) as [o m1] eqn:E1.
    simpl in Hc.
    specialize (IH m1).
    destruct (perform_all chats_create sendMessage generateContent cs m1) as [os m2] eqn:E2.
    simpl in IH |- *.
    unfold story_begun in *. simpl.
    rewrite orb_false_iff. tauto.
Qed.

Lemma session_error_iff (userAction : jsstring) (currentStats : CharacterStats)
    (currentInventory : list jsstring) (currentCharacters : list GameCharacter.t)
    (m : Service Chat) :
  fst (generateNextEntry sendMessage userAction currentStats currentInventory
         currentCharacters m)
    = Throw SESSION_NOT_ACTIVE <->
  chatSession m = None.
Proof.
  unfold generateNextEntry. destruct (chatSession m) as [chat|]; simpl.
  - destruct (sendMessage _ _) as [chat' r]. simpl.
    destruct (bind r read_response); simpl; split; discriminate.
  - split; reflexivity.
Qed.

(** C10: over any sequence of calls from the initial module state, once a
    [startNewStory] call has returned (with a parsed response or with the
    fallback) the session handle is set, and [generateNextEntry] fails
    with "Game session not active." exactly when no [startNewStory] call
    has returned before it. *)
Theorem session_active_after_first_story
    (cs : list call) (userAction : jsstring) (currentStats : CharacterStats)
    (currentInventory : list jsstring) (currentCharacters : list GameCharacter.t) :
  let run := perform_all chats_create sendMessage generateContent cs (initial Chat) in
  (story_begun cs (fst run) = true -> exists chat, chatSession (snd run) = Some chat) /\
  (fst (generateNextEntry sendMessage userAction currentStats currentInventory
          currentCharacters (snd run))
     = Throw SESSION_NOT_ACTIVE <->
   story_begun cs (fst run) = false).
Proof.
  intros run. pose proof (perform_all_session cs (initial Chat)) as H.
  fold run in H. simpl in H. split.
  - intros Hb. destruct (chatSession (snd run)) as [chat|].
    + eauto.
    + destruct (proj1 H eq_refl) as [_ Hn]. congruence.
  - rewrite session_error_iff. tauto.
Qed.

(** C9 (as the code has it): when the lookup fails, because the
    connection is not initialised or because the call rejects, the news
    text is the fixed line and the source list is empty; when it succeeds
    the source list is the web citations of the grounding chunks in the
    order delivered, chunks without one dropped, duplicates kept. *)
Theorem news_lookup_outcomes (premise : jsstring) (m : Service Chat) :
  (aiInstance m = None \/
   (exists ai e, aiInstance m = Some ai /\
                 generateContent ai (news_prompt premise) = Throw e) ->
   newsContent (handleFetchNews generateContent premise m)
     = Some (lit "Unable to fetch wire services.") /\
   newsSources (handleFetchNews generateContent premise m) = []) /\
  (forall ai response,
      aiInstance m = Some ai ->
      generateContent ai (news_prompt premise) = Normal response ->
      newsSources (handleFetchNews generateContent premise m)
        = present (map web match groundingChunks response with
                           | Some chunks => chunks
                           | None => []
                           end)).
Proof.
  unfold handleFetchNews, fetchWorldNews. split.
  - intros [H | (ai & e & H & He)]; rewrite H; [|rewrite He]; simpl; auto.
  - intros ai response H Hr. rewrite H, Hr. simpl.
    unfold sources_of. destruct (groundingChunks response); reflexivity.
Qed.

End ServiceProperties.

Lemma generateNextEntry_failure_echoes_state_witness :
  exists fallback,
    fst (generateNextEntry offline_send (lit "Search the desk") sample_stats
           sample_inventory sample_characters
           {| chatSession := Some tt; aiInstance := Some sample_ai |})
      = Normal fallback /\
    get "narrative" fallback = JStr (lit "The shadows lengthen... (AI Connection Error)") /\
    get "stats" fallback = js_of_stats sample_stats /\
    get "inventory" fallback = js_of_strings sample_inventory /\
    get "characters" fallback = js_of_characters sample_characters /\
    fallback = JObj [(lit "narrative", get "narrative" fallback);
                     (lit "stats", get "stats" fallback);
                     (lit "inventory", get "inventory" fallback);
                     (lit "characters", get "characters" fallback)].
Proof.
  apply (@generateNextEntry_failure_echoes_state unit offline_send
           (lit "Search the desk") sample_stats sample_inventory sample_characters
           {| chatSession := Some tt; aiInstance := Some sample_ai |} tt).
  - reflexivity.
  - simpl. constructor.
Defined.

Lemma startNewStory_failure_fallback_witness :
  fst (startNewStory (fun _ => tt) (answering_send (lit "{ narrative: oops"))
         (lit "You are a detective...")
         {| chatSession := None; aiInstance := Some sample_ai |})
    = Normal
        (JObj [(lit "narrative",
                JStr (lit "The city is quiet tonight. Too quiet. (System Error)"));
               (lit "stats",
                js_of_stats {| health := of_Z 100; resolve := of_Z 100;
                               suspicion := of_Z 0 |});
               (lit "inventory", js_of_strings [lit "(Unknown)"]);
               (lit "characters", js_of_characters [])]).
Proof.
  apply (@startNewStory_failure_fallback unit (fun _ => tt)
           (answering_send (lit "{ narrative: oops")) (lit "You are a detective...")
           {| chatSession := None; aiInstance := Some sample_ai |} sample_ai).
  - reflexivity.
  - simpl. eapply validation_failure with (parsed := JNull); reflexivity.
Defined.

Lemma generateNextEntry_blank_action_waits_witness :
  generateNextEntry offline_send (lit "   ") sample_stats sample_inventory
    sample_characters {| chatSession := Some tt; aiInstance := Some sample_ai |}
  = generateNextEntry offline_send (lit "I wait.") sample_stats sample_inventory
      sample_characters {| chatSession := Some tt; aiInstance := Some sample_ai |}.
Proof.
  apply (proj2 (@generateNextEntry_blank_action_waits unit offline_send (lit "   ")
                  sample_stats sample_inventory sample_characters
                  {| chatSession := Some tt; aiInstance := Some sample_ai |} eq_refl)).
Defined.

Lemma session_active_after_first_story_witness :
  exists chat,
    chatSession
      (snd (perform_all (fun _ => tt) offline_send offline_generate
              [CallInitialize (lit "key"); CallStart (lit "A rainy night.")]
              (initial unit)))
    = Some chat.
Proof.
  apply (proj1 (@session_active_after_first_story unit (fun _ => tt) offline_send
                  offline_generate
                  [CallInitialize (lit "key"); CallStart (lit "A rainy night.")]
                  [] sample_stats [] [])).
  reflexivity.
Defined.

Lemma news_lookup_outcomes_witness :
  newsContent (handleFetchNews (Chat := unit) offline_generate (lit "A rainy night.")
                 {| chatSession := None; aiInstance := None |})
    = Some (lit "Unable to fetch wire services.") /\
  newsSources (handleFetchNews (Chat := unit) offline_generate (lit "A rainy night.")
                 {| chatSession := None; aiInstance := None |})
    = [].
Proof.
  apply (proj1 (@news_lookup_outcomes unit offline_generate (lit "A rainy night.")
                  {| chatSession := None; aiInstance := None |})).
  left. reflexivity.
Defined.

(** A response that cites one page twice puts it twice in the source list. *)
Lemma news_sources_keep_duplicates :
  newsSources (handleFetchNews (Chat := unit) citing_twice_generate (lit "A rainy night.")
                 {| chatSession := None; aiInstance := Some sample_ai |})
    = [sample_citation; sample_citation] /\
  ~ NoDup (newsSources (handleFetchNews (Chat := unit) citing_twice_generate
                          (lit "A rainy night.")
                          {| chatSession := None; aiInstance := Some sample_ai |})).
Proof.
  split; [reflexivity|].
  intros H. simpl in H. inversion H as [|x l Hin _]; subst. apply Hin. now left.
Qed.

(** ** The achievement merge *)

Lemma known_spec (achievements : list Achievement.t) (na : Achievement.t) :
  known achievements na = true <->
  In (Achievement.id na) (map Achievement.id achievements).
Proof.
  unfold known. rewrite existsb_exists, in_map_iff. split.
  - intros (a & Hin & He). apply eqb_eq in He. eauto.
  - intros (a & He & Hin). exists a. split; [assumption|]. now apply eqb_eq.
Qed.

(** What a merge appends is a sublist of the batch whose identifiers the
    handler's list does not hold. *)
Lemma merge_appends_only_new (achievements prev : list Achievement.t)
    (new_achievements : option (list Achievement.t)) :
  exists appended,
    fst (merge_achievements achievements prev new_achievements) = prev ++ appended /\
    forall na, In na appended ->
               ~ In (Achievement.id na) (map Achievement.id achievements).
Proof.
  unfold merge_achievements.
  destruct new_achievements as [[|d ds]|].
  - exists []. rewrite app_nil_r. split; [reflexivity | intros ? []].
  - set (uniqueNew := filter (fun na => negb (known achievements na)) (d :: ds)).
    assert (Hnew : forall na, In na uniqueNew ->
                              ~ In (Achievement.id na) (map Achievement.id achievements)).
    { intros na Hin. apply filter_In in Hin as [_ Hk].
      apply negb_true_iff in Hk. rewrite <- known_spec. congruence. }
    destruct uniqueNew as [|first rest] eqn:E.
    + exists []. rewrite app_nil_r. split; [reflexivity | intros ? []].
    + exists (first :: rest). split; [reflexivity | exact Hnew].
  - exists []. rewrite app_nil_r. split; [reflexivity | intros ? []].
Qed.

Lemma filter_keeps_ids_unique (keep : Achievement.t -> bool) (batch : list Achievement.t) :
  NoDup (map Achievement.id batch) ->
  NoDup (map Achievement.id (filter keep batch)).
Proof.
  induction batch as [|a batch IH]; cbn [filter map]; intros Hu; [exact Hu|].
  apply NoDup_cons_iff in Hu as [Hfresh Hrest].
  destruct (keep a); cbn [map]; [|now apply IH].
  apply NoDup_cons; [|now apply IH].
  rewrite in_map_iff. intros (b & Hid & Hb).
  apply filter_In in Hb as [Hb _].
  apply Hfresh. rewrite in_map_iff. now exists b.
Qed.

(** Identifiers stay unique when the batch itself repeats none and the
    handler's list holds every identifier of the list appended to. *)
Lemma merge_unique_for_distinct_batch (achievements prev delivered : list Achievement.t) :
  NoDup (map Achievement.id prev) ->
  NoDup (map Achievement.id delivered) ->
  incl (map Achievement.id prev) (map Achievement.id achievements) ->
  NoDup (map Achievement.id
           (fst (merge_achievements achievements prev (Some delivered)))).
Proof.
  intros Ha Hd Hincl.
  destruct (merge_appends_only_new achievements prev (Some delivered)) as (app & E & Hnew).
  assert (Happ : NoDup (map Achievement.id
                          (filter (fun na => negb (known achievements na)) delivered)))
    by now apply filter_keeps_ids_unique.
  unfold merge_achievements in *. destruct delivered as [|d ds]; [assumption|].
  destruct (filter _ (d :: ds)) as [|first rest] eqn:F; [assumption|].
  simpl fst in *. apply app_inv_head in E. subst app.
  rewrite map_app. apply NoDup_app; [assumption | assumption |].
  intros x Hx Hy. apply in_map_iff in Hy as (na & <- & Hin).
  exact (Hnew na Hin (Hincl _ Hx)).
Qed.

(** C7: a batch that delivers one new identifier twice is appended whole,
    and the achievement set then holds that identifier twice. No other
    update is pending here: the handler's list and the list appended to
    are the same empty list. *)
Theorem merge_achievements_repeats_batch_duplicate :
  merge_achievements [] [] (Some [first_blood; first_blood])
    = ([first_blood; first_blood], Some first_blood) /\
  ~ NoDup (map Achievement.id
             (fst (merge_achievements [] [] (Some [first_blood; first_blood])))).
Proof.
  split; [reflexivity|].
  intros H. simpl in H. inversion H as [|x l Hin _]; subst. apply Hin. now left.
Qed.

(** ** Fence markers inside a JSON text

    A fence marker begins with a backtick, which JSON allows only inside a
    string, and goes on with code units that stand for themselves there.
    Dropping markers from a JSON text therefore changes the content of
    strings and nothing else. *)

Ltac split_ifs :=
  repeat match goal with
         | |- context [if ?b then _ else _] => destruct b eqn:?
         | |- context [match digit_value ?c with _ => _ end] => destruct (digit_value c) eqn:?
         | |- context [match hex_value ?c with _ => _ end] => destruct (hex_value c) eqn:?
         end.

Lemma mode_sim_default_step (c : N) (ts : list token) (m : lmode) :
  default_step c = Some (ts, m) -> mode_sim m m.
Proof.
  unfold default_step. split_ifs; intros H; inversion H; subst; try constructor;
    simpl; intros F; repeat destruct F as [F | F]; try discriminate F; exact F.
Qed.

Lemma lex_step_sim (m m' : lmode) (c : N) :
  mode_sim m m' -> step_agree (lex_step m c) (lex_step m' c).
Proof.
  intros H. destruct H; unfold step_agree; simpl.
  - destruct (default_step c) as [[ts m]|] eqn:E; [|exact I].
    split; [reflexivity | eapply mode_sim_default_step; eauto].
  - split_ifs; try exact I; split; try reflexivity; constructor.
  - unfold escape_step. split_ifs; try exact I; split; try reflexivity; constructor.
  - destruct (hex_value c); [|exact I].
    destruct more; split; try reflexivity; constructor.
  - destruct (num_step ph a c) as [[ph' a']|].
    + split; [reflexivity | constructor].
    + destruct (accepting ph); [|exact I].
      destruct (default_step c) as [[ts m]|] eqn:E; [|exact I].
      split; [reflexivity | eapply mode_sim_default_step; eauto].
  - destruct rest as [|x rest]; [exact I|].
    destruct (c =? x)%N; [|exact I].
    destruct rest as [|y rest]; split; try reflexivity; constructor.
    intros F. apply H. now right.
Qed.

Lemma lex_end_sim (m m' : lmode) :
  mode_sim m m' -> lex_end m = lex_end m'.
Proof. intros H. destruct H; reflexivity. Qed.

(** Outside a string a backtick ends the lexing. *)
Lemma lex_step_backtick (m m' : lmode) :
  mode_sim m m' -> in_string m = false -> lex_step m BACKTICK = None.
Proof.
  intros H. destruct H; cbn [lex_step in_string]; try reflexivity; try discriminate.
  - intros _. destruct ph; reflexivity.
  - intros _. destruct rest as [|x rest]; [reflexivity|].
    destruct (N.eqb_spec BACKTICK x) as [E|E]; [|reflexivity].
    exfalso. apply H. now left.
Qed.

Lemma starts_with_firstn (p s : jsstring) :
  starts_with p s = true -> firstn (List.length p) s = p /\ List.length p <= List.length s.
Proof.
  revert s; induction p as [|x p IH]; intros s; simpl.
  - intros _. split; [reflexivity | lia].
  - destruct s as [|c s]; [discriminate|].
    intros H. apply andb_true_iff in H as [Hx Hp]. apply N.eqb_eq in Hx. subst c.
    destruct (IH _ Hp) as [E L]. simpl. rewrite E. split; [reflexivity | lia].
Qed.

Lemma lex_step_plain (acc : jsstring) (c : N) :
  plain c = true -> lex_step (LStr acc) c = Some ([], LStr (acc ++ [c])).
Proof.
  unfold plain. intros H.
  apply andb_true_iff in H as [H H3]. apply andb_true_iff in H as [H1 H2].
  apply negb_true_iff in H1, H2, H3. simpl. now rewrite H1, H2, H3.
Qed.

Lemma lex_run_some_step (m : lmode) (c : N) (r : jsstring) (ts : list token) :
  lex_run m (c :: r) = Some ts ->
  exists ts1 n ts2,
    lex_step m c = Some (ts1, n) /\ lex_run n r = Some ts2 /\ ts = ts1 ++ ts2.
Proof.
  cbn [lex_run]. destruct (lex_step m c) as [[ts1 n]|]; [|discriminate].
  destruct (lex_run n r) as [ts2|] eqn:E; [|discriminate].
  cbn [option_map]. intros [= <-]. exists ts1, n, ts2. auto.
Qed.

(** Lexing goes through when the markers are dropped, and the tokens keep
    their shapes. [skip] code units of a marker found inside a string are
    still ahead. *)
Lemma lex_run_without_markers (p : jsstring) :
  forallb plain p = true ->
  forall (s : jsstring) (skip : nat) (m m' : lmode),
    mode_sim m m' ->
    (skip <> 0 ->
     in_string m = true /\ forallb plain (firstn skip s) = true /\ skip <= List.length s) ->
    forall ts,
      lex_run m s = Some ts ->
      exists ts',
        lex_run m' (replace_from (BACKTICK :: p) [] skip s) = Some ts' /\
        map shape ts = map shape ts'.
Proof.
  intros Hp. induction s as [|c r IH]; intros skip m m' Hsim Hskip ts Hrun.
  - simpl in *. rewrite <- (lex_end_sim Hsim). eauto.
  - destruct skip as [|k].
    + cbn [replace_from]. destruct (starts_with (BACKTICK :: p) (c :: r)) eqn:Hm.
      * cbn [starts_with] in Hm. apply andb_true_iff in Hm as [Hc Hr].
        apply N.eqb_eq in Hc. subst c.
        destruct (in_string m) eqn:Hin.
        2:{ simpl in Hrun. rewrite (lex_step_backtick Hsim Hin) in Hrun. discriminate. }
        destruct Hsim; try discriminate Hin.
        apply lex_run_some_step in Hrun as (ts1 & n & ts2 & Hstep & Hrest & ->).
        rewrite lex_step_plain in Hstep by reflexivity. inversion Hstep; subst.
        destruct (starts_with_firstn _ _ Hr) as [Hf Hl].
        cbn [app List.length Nat.pred].
        apply (IH (List.length p) _ (LStr acc') (sim_str _ _)) in Hrest; [exact Hrest|].
        intros _. rewrite Hf. auto.
      * apply lex_run_some_step in Hrun as (ts1 & n & ts2 & Hstep & Hrest & ->).
        pose proof (lex_step_sim c Hsim) as Hag. rewrite Hstep in Hag.
        unfold step_agree in Hag.
        destruct (lex_step m' c) as [[ts1' n']|] eqn:Hstep'; [|contradiction].
        destruct Hag as [Hsh Hsim'].
        destruct (IH 0 n n' Hsim' (fun F => False_ind _ (F eq_refl)) _ Hrest)
          as (ts2' & Hrun' & Hsh2).
        exists (ts1' ++ ts2'). cbn [lex_run]. rewrite Hstep', Hrun'. simpl.
        split; [reflexivity|]. rewrite !map_app. congruence.
    + destruct (Hskip ltac:(discriminate)) as (Hin & Hpl & Hlen).
      destruct Hsim; try discriminate Hin.
      cbn [firstn forallb] in Hpl. apply andb_true_iff in Hpl as [Hc Hpl].
      apply lex_run_some_step in Hrun as (ts1 & n & ts2 & Hstep & Hrest & ->).
      rewrite (lex_step_plain _ _ Hc) in Hstep. inversion Hstep; subst.
      cbn [replace_from app].
      apply (IH k _ (LStr acc') (sim_str _ _)) in Hrest; [exact Hrest|].
      intros _. simpl in Hlen. repeat split; auto. lia.
Qed.

(** *** The recogniser looks at shapes only *)

Lemma control_deliver (v v' : jsvalue) (k k' : list frame) :
  map is_array_frame k = map is_array_frame k' ->
  control (deliver v k) = control (deliver v' k').
Proof.
  destruct k as [|[d|d key] k], k' as [|[d'|d' key'] k']; simpl; intros H;
    try discriminate H; try reflexivity; inversion H; reflexivity.
Qed.

Lemma control_start_value (t t' : token) (k k' : list frame) :
  shape t = shape t' ->
  map is_array_frame k = map is_array_frame k' ->
  parse_agree (start_value t k) (start_value t' k').
Proof.
  intros Ht Hk.
  destruct t, t'; try discriminate Ht; simpl; try exact I;
    try (apply control_deliver; assumption); simpl; congruence.
Qed.

Lemma control_parse_step (st st' : pstate) (t t' : token) :
  control st = control st' ->
  shape t = shape t' ->
  parse_agree (parse_step st t) (parse_step st' t').
Proof.
  intros Hc Ht.
  destruct st, st'; simpl in Hc; try discriminate Hc; inversion Hc as [Hk]; clear Hc;
    cbn [parse_step].
  - now apply control_start_value.
  - destruct t, t'; try discriminate Ht;
      try (apply control_start_value; [assumption | simpl; congruence]).
    simpl. now apply control_deliver.
  - destruct t, t'; try discriminate Ht; simpl; try exact I.
    + now apply control_deliver.
    + congruence.
  - destruct t, t'; try discriminate Ht; simpl; try exact I.
    + now apply control_deliver.
    + congruence.
  - destruct t, t'; try discriminate Ht; simpl; try exact I. congruence.
  - destruct t, t'; try discriminate Ht; simpl; try exact I. congruence.
  - destruct t, t'; try discriminate Ht; simpl; try exact I.
    + now apply control_deliver.
    + congruence.
  - destruct t, t'; exact I.
Qed.

Lemma parse_run_shapes (ts : list token) :
  forall (ts' : list token) (st st' : pstate) (v : jsvalue),
    map shape ts = map shape ts' ->
    control st = control st' ->
    parse_run st ts = Some v ->
    exists v', parse_run st' ts' = Some v'.
Proof.
  induction ts as [|t ts IH]; intros [|t' ts'] st st' v Hs Hc Hrun;
    try discriminate Hs.
  - simpl in *. destruct st; try discriminate Hrun.
    destruct st'; try discriminate Hc. eauto.
  - simpl in Hs. inversion Hs as [[Ht Hts]].
    simpl in Hrun |- *.
    pose proof (control_parse_step st st' t t' Hc Ht) as Hag.
    destruct (parse_step st t) as [n|]; [|discriminate].
    unfold parse_agree in Hag.
    destruct (parse_step st' t') as [n'|]; [|contradiction].
    eapply IH; eauto.
Qed.

(** A JSON text stays one when fence markers are dropped from it. *)
Lemma parse_text_without_markers (p s : jsstring) (v : jsvalue) :
  forallb plain p = true ->
  parse_text s = Some v ->
  exists v', parse_text (replace_all (BACKTICK :: p) [] s) = Some v'.
Proof.
  unfold parse_text, replace_all. intros Hp H.
  destruct (lex_run LDefault s) as [ts|] eqn:Hl; [|discriminate].
  destruct (@lex_run_without_markers p Hp s 0 LDefault LDefault sim_default
              (fun F => False_ind _ (F eq_refl)) ts Hl) as (ts' & Hl' & Hs).
  rewrite Hl'. eapply parse_run_shapes; eauto.
Qed.

(** *** A text that opens with a brace reads as an object *)

Lemma object_at_bottom_cons (f : frame) (k : list frame) :
  object_at_bottom (f :: k)
  = match k with
    | [] => negb (is_array_frame f)
    | _ :: _ => object_at_bottom k
    end.
Proof.
  unfold object_at_bottom. destruct k as [|g k]; [destruct f; reflexivity|].
  cbn [rev]. destruct (rev k ++ [g]) as [|x l] eqn:E.
  - destruct (rev k); discriminate E.
  - reflexivity.
Qed.

Lemma reading_object_deliver (v : jsvalue) (k : list frame) :
  match k with [] => is_object v | _ :: _ => object_at_bottom k end = true ->
  reading_object (deliver v k) = true.
Proof.
  destruct k as [|[d|d key] k]; simpl deliver; intros H; [exact H | |];
    rewrite object_at_bottom_cons in H; simpl; destruct k; auto; discriminate H.
Qed.

Lemma object_at_bottom_nonempty (k : list frame) :
  object_at_bottom k = true ->
  match k with [] => False | _ :: _ => object_at_bottom k = true end.
Proof. destruct k; [discriminate | auto]. Qed.

Lemma reading_object_start_value (t : token) (k : list frame) (st : pstate) :
  object_at_bottom k = true ->
  start_value t k = Some st ->
  reading_object st = true.
Proof.
  intros Hk. pose proof (object_at_bottom_nonempty k Hk) as Hne.
  destruct t; cbn [start_value]; intros H; try discriminate H; injection H as <-;
    try (apply reading_object_deliver; destruct k; [contradiction | assumption]);
    simpl; destruct k; auto.
Qed.

Lemma reading_object_step (st st' : pstate) (t : token) :
  reading_object st = true ->
  parse_step st t = Some st' ->
  reading_object st' = true.
Proof.
  destruct st as [k | k | d k | k | d k | d key k | d k | v]; cbn [reading_object parse_step];
    intros Hr Hs.
  - eapply reading_object_start_value; eauto.
  - pose proof (object_at_bottom_nonempty k Hr) as Hne.
    assert (Hc : object_at_bottom (FArr [] :: k) = true).
    { rewrite object_at_bottom_cons. destruct k; [contradiction | assumption]. }
    destruct t; try (eapply reading_object_start_value; eauto; fail).
    injection Hs as <-. apply reading_object_deliver.
    destruct k; [contradiction | assumption].
  - pose proof (object_at_bottom_nonempty k Hr) as Hne.
    destruct t; try discriminate Hs; injection Hs as <-.
    + apply reading_object_deliver. destruct k; [contradiction | assumption].
    + simpl. rewrite object_at_bottom_cons. destruct k; [contradiction | assumption].
  - destruct t; try discriminate Hs; injection Hs as <-.
    + apply reading_object_deliver. destruct k; auto.
    + exact Hr.
  - destruct t; try discriminate Hs; injection Hs as <-. exact Hr.
  - destruct t; try discriminate Hs; injection Hs as <-.
    simpl. rewrite object_at_bottom_cons. destruct k; auto.
  - destruct t; try discriminate Hs; injection Hs as <-.
    + apply reading_object_deliver. destruct k; auto.
    + exact Hr.
  - discriminate Hs.
Qed.

Lemma reading_object_run (ts : list token) :
  forall (st : pstate) (v : jsvalue),
    reading_object st = true -> parse_run st ts = Some v -> is_object v = true.
Proof.
  induction ts as [|t ts IH]; intros st v Hr; simpl.
  - destruct st; try discriminate. intros [= <-]. exact Hr.
  - destruct (parse_step st t) as [st'|] eqn:E; [|discriminate].
    apply IH. eapply reading_object_step; eauto.
Qed.

Lemma parse_text_brace_object (s : jsstring) (v : jsvalue) :
  parse_text (LBRACE :: s) = Some v -> is_object v = true.
Proof.
  unfold parse_text. cbn [lex_run lex_step].
  change (default_step LBRACE) with (Some ([TLBrace], LDefault)).
  cbv beta iota.
  destruct (lex_run LDefault s) as [ts|]; cbn [option_map]; [|discriminate].
  cbn [app parse_run parse_step start_value].
  apply reading_object_run. reflexivity.
Qed.

(** *** Dropping markers around braces *)

Lemma replace_from_absent (p s : jsstring) :
  ~ In BACKTICK s -> replace_from (BACKTICK :: p) [] 0 s = s.
Proof.
  induction s as [|c r IH]; [reflexivity|].
  intros H. cbn [replace_from starts_with].
  destruct (N.eqb_spec BACKTICK c) as [E|E].
  - exfalso. apply H. now left.
  - cbn [andb]. rewrite IH; [reflexivity|]. intros F. apply H. now right.
Qed.

Lemma starts_with_app (pat xs zs : jsstring) :
  starts_with pat xs = true -> starts_with pat (xs ++ zs) = true.
Proof.
  revert xs; induction pat as [|x pat IH]; intros [|a xs]; simpl; auto; try discriminate.
  intros H. apply andb_true_iff in H as [H1 H2]. rewrite H1. simpl. auto.
Qed.

Lemma starts_with_before (pat xs ys : jsstring) (c : N) :
  ~ In c pat ->
  starts_with pat (xs ++ c :: ys) = true -> starts_with pat xs = true.
Proof.
  revert xs; induction pat as [|x pat IH]; intros xs Hc; [reflexivity|].
  destruct xs as [|a xs]; simpl.
  - intros H. apply andb_true_iff in H as [H _]. apply N.eqb_eq in H.
    exfalso. apply Hc. now left.
  - intros H. apply andb_true_iff in H as [H1 H2]. rewrite H1. simpl.
    apply IH; [|assumption]. intros F. apply Hc. now right.
Qed.

Lemma starts_with_split (pat xs ys : jsstring) (c : N) :
  ~ In c pat ->
  starts_with pat (xs ++ c :: ys) = starts_with pat xs.
Proof.
  intros Hc. destruct (starts_with pat xs) eqn:E.
  - now apply starts_with_app.
  - destruct (starts_with pat (xs ++ c :: ys)) eqn:F; [|reflexivity].
    apply starts_with_before in F; [congruence | assumption].
Qed.

(** A code unit that the marker does not contain separates the text. *)
Lemma replace_from_around (pat ys : jsstring) (c : N) :
  ~ In c pat -> pat <> [] ->
  forall (xs : jsstring) (skip : nat),
    skip <= List.length xs ->
    replace_from pat [] skip (xs ++ c :: ys)
    = replace_from pat [] skip xs ++ c :: replace_from pat [] 0 ys.
Proof.
  intros Hc Hne. induction xs as [|a xs IH]; intros skip Hs.
  - assert (skip = 0) by (simpl in Hs; lia). subst skip.
    cbn [app replace_from].
    destruct pat as [|x pat]; [contradiction|].
    cbn [starts_with]. destruct (N.eqb_spec x c) as [E|E]; [|reflexivity].
    exfalso. apply Hc. now left.
  - destruct skip as [|k].
    + change ((a :: xs) ++ c :: ys) with (a :: (xs ++ c :: ys)).
      cbn [replace_from].
      change (a :: (xs ++ c :: ys)) with ((a :: xs) ++ c :: ys).
      rewrite (@starts_with_split pat (a :: xs) ys c Hc).
      destruct (starts_with pat (a :: xs)) eqn:E.
      * destruct (starts_with_firstn _ _ E) as [_ Hl]. simpl in Hl.
        cbn [app]. apply IH. lia.
      * cbn [app]. rewrite IH by lia. reflexivity.
    + cbn [app replace_from]. apply IH. simpl in Hs. lia.
Qed.

Lemma replace_all_around (pat xs ys : jsstring) (c : N) :
  ~ In c pat -> pat <> [] ->
  replace_all pat [] (xs ++ c :: ys)
  = replace_all pat [] xs ++ c :: replace_all pat [] ys.
Proof.
  intros Hc Hne. unfold replace_all. apply replace_from_around; auto. lia.
Qed.

Lemma trimStart_before (p r : jsstring) (c : N) :
  is_white_space c = false ->
  trimStart (p ++ c :: r) = trimStart p ++ c :: r.
Proof.
  intros Hc. induction p as [|x p IH]; simpl.
  - now rewrite Hc.
  - destruct (is_white_space x); [exact IH | reflexivity].
Qed.

Lemma trimEnd_after (xs s : jsstring) (c : N) :
  is_white_space c = false ->
  trimEnd (xs ++ c :: s) = xs ++ c :: trimEnd s.
Proof.
  intros Hc. unfold trimEnd.
  rewrite rev_app_distr. cbn [rev]. rewrite <- app_assoc. cbn [app].
  rewrite (@trimStart_before (rev s) (rev xs) c Hc), rev_app_distr. cbn [rev].
  rewrite rev_involutive, <- app_assoc. reflexivity.
Qed.

Lemma In_trimEnd (c : N) (s : jsstring) : In c (trimEnd s) -> In c s.
Proof.
  unfold trimEnd. intros H. apply in_rev in H. apply In_trimStart in H.
  now apply in_rev in H.
Qed.

Lemma find_first_at (c : N) (p x : jsstring) :
  ~ In c p -> find_first c (p ++ c :: x) = Some (List.length p).
Proof.
  induction p as [|a p IH]; intros H; simpl.
  - now rewrite N.eqb_refl.
  - destruct (N.eqb_spec a c) as [->|_]; [exfalso; apply H; now left|].
    rewrite IH; [reflexivity|]. intros F. apply H. now right.
Qed.

Lemma find_last_at (c : N) (y s : jsstring) :
  ~ In c s -> find_last c (y ++ c :: s) = Some (List.length y).
Proof.
  intros H. induction y as [|a y IH]; simpl.
  - rewrite (find_last_absent _ _ H). now rewrite N.eqb_refl.
  - now rewrite IH.
Qed.

Lemma substring_middle (p m s : jsstring) :
  substring (p ++ m ++ s) (Z.of_nat (List.length p))
            (Z.of_nat (List.length p + List.length m)) = m.
Proof.
  unfold substring. rewrite !length_app.
  replace (Z.to_nat (Z.min _ _)) with (List.length p) by lia.
  replace (Z.to_nat (Z.max _ _)) with (List.length p + List.length m) by lia.
  rewrite skipn_app, skipn_all, Nat.sub_diag. cbn [skipn app].
  replace (List.length p + List.length m - List.length p) with (List.length m + 0) by lia.
  rewrite firstn_app_2. cbn [firstn]. apply app_nil_r.
Qed.

Lemma replace_all_braced (pat b : jsstring) :
  ~ In LBRACE pat -> ~ In RBRACE pat -> pat <> [] ->
  replace_all pat [] (LBRACE :: b ++ [RBRACE])
  = LBRACE :: replace_all pat [] b ++ [RBRACE].
Proof.
  intros Hl Hr Hne.
  change (LBRACE :: b ++ [RBRACE]) with ([] ++ LBRACE :: (b ++ [RBRACE])).
  rewrite (@replace_all_around pat [] (b ++ [RBRACE]) LBRACE Hl Hne).
  rewrite (@replace_all_around pat b [] RBRACE Hr Hne).
  reflexivity.
Qed.

Lemma fence_has_no_brace :
  (~ In LBRACE FENCE /\ ~ In RBRACE FENCE /\ FENCE <> []) /\
  (~ In LBRACE FENCE_JSON /\ ~ In RBRACE FENCE_JSON /\ FENCE_JSON <> []).
Proof.
  repeat split; try discriminate;
    simpl; intros F; repeat destruct F as [F | F]; try discriminate F; exact F.
Qed.

(** The fence markers go; the span between the braces stays between them. *)
Lemma strip_fences_around (p b s : jsstring) :
  exists p' b' s',
    strip_fences (p ++ LBRACE :: b ++ RBRACE :: s) = p' ++ LBRACE :: b' ++ RBRACE :: s' /\
    (In LBRACE p' -> In LBRACE p) /\
    (In RBRACE s' -> In RBRACE s) /\
    (b' = b \/ b' = replace_all FENCE [] (replace_all FENCE_JSON [] b)).
Proof.
  unfold strip_fences.
  destruct (includes FENCE (p ++ LBRACE :: b ++ RBRACE :: s)).
  - destruct fence_has_no_brace as [(Fl & Fr & Fn) (Jl & Jr & Jn)].
    exists (replace_all FENCE [] (replace_all FENCE_JSON [] p)),
           (replace_all FENCE [] (replace_all FENCE_JSON [] b)),
           (replace_all FENCE [] (replace_all FENCE_JSON [] s)).
    split; [|split; [|split]].
    + rewrite (@replace_all_around FENCE_JSON p (b ++ RBRACE :: s) LBRACE Jl Jn).
      rewrite (@replace_all_around FENCE_JSON b s RBRACE Jr Jn).
      rewrite (@replace_all_around FENCE _ _ LBRACE Fl Fn).
      rewrite (@replace_all_around FENCE _ _ RBRACE Fr Fn).
      reflexivity.
    + intros H. unfold replace_all in H.
      apply In_replace_from in H. now apply In_replace_from in H.
    + intros H. unfold replace_all in H.
      apply In_replace_from in H. now apply In_replace_from in H.
    + now right.
  - exists p, b, s. auto.
Qed.

(** With no opening brace before and no closing brace after, the text
    is narrowed to the braces and what they enclose. *)
Lemma narrow_to_braces (p b s : jsstring) :
  ~ In LBRACE p -> ~ In RBRACE s ->
  let cleanText := p ++ LBRACE :: b ++ RBRACE :: s in
  (if negb (indexOf LBRACE cleanText =? -1)%Z && negb (lastIndexOf RBRACE cleanText =? -1)%Z
   then substring cleanText (indexOf LBRACE cleanText) (lastIndexOf RBRACE cleanText + 1)
   else cleanText)
  = LBRACE :: b ++ [RBRACE].
Proof.
  intros Hp Hs cleanText. subst cleanText. unfold indexOf, lastIndexOf.
  rewrite (@find_first_at LBRACE p (b ++ RBRACE :: s) Hp).
  replace (p ++ LBRACE :: b ++ RBRACE :: s) with ((p ++ LBRACE :: b) ++ RBRACE :: s)
    by (rewrite <- app_assoc; reflexivity).
  rewrite (@find_last_at RBRACE (p ++ LBRACE :: b) s Hs).
  replace (negb (Z.of_nat (List.length p) =? -1)%Z) with true
    by (symmetry; apply negb_true_iff, Z.eqb_neq; lia).
  replace (negb (Z.of_nat (List.length (p ++ LBRACE :: b)) =? -1)%Z) with true
    by (symmetry; apply negb_true_iff, Z.eqb_neq; lia).
  cbn [andb].
  replace ((p ++ LBRACE :: b) ++ RBRACE :: s) with (p ++ (LBRACE :: b ++ [RBRACE]) ++ s)
    by (rewrite <- !app_assoc; cbn [app]; rewrite <- app_assoc; reflexivity).
  replace (Z.of_nat (List.length (p ++ LBRACE :: b)) + 1)%Z
    with (Z.of_nat (List.length p + List.length (LBRACE :: b ++ [RBRACE]))).
  - apply substring_middle.
  - rewrite length_app. cbn [List.length]. rewrite length_app. cbn [List.length]. lia.
Qed.

Lemma clean_text_around_object (prefix body suffix : jsstring) :
  ~ In LBRACE prefix -> ~ In RBRACE suffix ->
  exists b',
    clean_text (prefix ++ LBRACE :: body ++ RBRACE :: suffix) = LBRACE :: b' ++ [RBRACE] /\
    (b' = body \/ b' = replace_all FENCE [] (replace_all FENCE_JSON [] body)).
Proof.
  intros Hp Hs. unfold clean_text.
  assert (Ht : trim (prefix ++ LBRACE :: body ++ RBRACE :: suffix)
               = trimStart prefix ++ LBRACE :: body ++ RBRACE :: trimEnd suffix).
  { unfold trim. rewrite (@trimStart_before prefix _ LBRACE eq_refl).
    replace (trimStart prefix ++ LBRACE :: body ++ RBRACE :: suffix)
      with ((trimStart prefix ++ LBRACE :: body) ++ RBRACE :: suffix)
      by (rewrite <- app_assoc; reflexivity).
    rewrite (@trimEnd_after _ suffix RBRACE eq_refl).
    rewrite <- app_assoc. reflexivity. }
  rewrite Ht.
  destruct (strip_fences_around (trimStart prefix) body (trimEnd suffix))
    as (p' & b' & s' & E & Hp' & Hs' & Hb).
  rewrite E. exists b'. split; [|exact Hb].
  apply narrow_to_braces.
  - intros F. apply Hp, In_trimStart, Hp', F.
  - intros F. apply Hs, In_trimEnd, Hs', F.
Qed.

(** C1: a text made of a well-formed JSON object with prose around it (no
    opening brace before it, no closing brace after it), fenced or not, is
    a success of the validator: it returns an object, and the very value
    of the object when its text holds no backtick. *)
Theorem safeJsonParse_extracts_object (prefix body suffix : jsstring) (v : jsvalue) :
  ~ In LBRACE prefix ->
  ~ In RBRACE suffix ->
  JSON.parse (LBRACE :: body ++ [RBRACE]) = Normal v ->
  exists v',
    safeJsonParse (prefix ++ LBRACE :: body ++ RBRACE :: suffix) = Normal v' /\
    is_object v' = true /\
    (~ In BACKTICK body -> v' = v).
Proof.
  intros Hp Hs Hv.
  assert (Hv' : parse_text (LBRACE :: body ++ [RBRACE]) = Some v).
  { unfold JSON.parse in Hv. destruct (parse_text _); [congruence | discriminate]. }
  destruct (@clean_text_around_object prefix body suffix Hp Hs) as (b' & Hc & Hb).
  unfold safeJsonParse, JSON.parse. rewrite Hc.
  destruct fence_has_no_brace as [(Fl & Fr & Fn) (Jl & Jr & Jn)].
  destruct Hb as [-> | ->].
  - rewrite Hv'. exists v. repeat split; auto.
    apply (@parse_text_brace_object _ _ Hv').
  - rewrite <- (@replace_all_braced FENCE _ Fl Fr Fn).
    rewrite <- (@replace_all_braced FENCE_JSON _ Jl Jr Jn).
    destruct (@parse_text_without_markers (lit "``json") _ v eq_refl Hv') as [v1 H1].
    change (BACKTICK :: lit "``json") with FENCE_JSON in H1.
    destruct (@parse_text_without_markers (lit "``") _ v1 eq_refl H1) as [v2 H2].
    change (BACKTICK :: lit "``") with FENCE in H2.
    rewrite H2. exists v2. split; [reflexivity|]. split.
    + rewrite (@replace_all_braced FENCE_JSON _ Jl Jr Jn) in H2.
      rewrite (@replace_all_braced FENCE _ Fl Fr Fn) in H2.
      apply (@parse_text_brace_object _ _ H2).
    + intros Hb.
      assert (Hsame : replace_all FENCE [] (replace_all FENCE_JSON [] (LBRACE :: body ++ [RBRACE]))
                      = LBRACE :: body ++ [RBRACE]).
      { rewrite (@replace_all_braced FENCE_JSON _ Jl Jr Jn), (@replace_all_braced FENCE _ Fl Fr Fn).
        unfold replace_all.
        change FENCE_JSON with (BACKTICK :: lit "``json").
        change FENCE with (BACKTICK :: lit "``").
        rewrite (@replace_from_absent (lit "``json") body Hb).
        rewrite (@replace_from_absent (lit "``") body Hb). reflexivity. }
      rewrite Hsame in H2. congruence.
Qed.

Lemma safeJsonParse_extracts_object_witness :
  exists v',
    safeJsonParse (sample_prefix ++ LBRACE :: sample_body ++ RBRACE :: sample_suffix)
      = Normal v' /\
    is_object v' = true /\
    (~ In BACKTICK sample_body -> v' = JObj [(lit "a", JNum (of_Z 1))]).
Proof.
  apply (@safeJsonParse_extracts_object sample_prefix sample_body sample_suffix
           (JObj [(lit "a", JNum (of_Z 1))])).
  - vm_compute. intros F. repeat destruct F as [F | F]; try discriminate F; exact F.
  - vm_compute. intros F. repeat destruct F as [F | F]; try discriminate F; exact F.
  - vm_compute. reflexivity.
Defined.

(** ** JSON.parse after JSON.stringify *)

Lemma option_map_app_nil {A : Type} (o : option (list A)) :
  option_map (app []) o = o.
Proof. destruct o; reflexivity. Qed.

Lemma option_map_app_app {A : Type} (a b : list A) (o : option (list A)) :
  option_map (app a) (option_map (app b) o) = option_map (app (a ++ b)) o.
Proof. destruct o; simpl; [now rewrite app_assoc | reflexivity]. Qed.

Lemma lex_run_silent (m m' : lmode) (c : N) (r : jsstring) :
  lex_step m c = Some ([], m') -> lex_run m (c :: r) = lex_run m' r.
Proof. intros H. cbn [lex_run]. rewrite H. apply option_map_app_nil. Qed.

Lemma lex_run_emit (m m' : lmode) (c : N) (r : jsstring) (ts : list token) :
  lex_step m c = Some (ts, m') ->
  lex_run m (c :: r) = option_map (app ts) (lex_run m' r).
Proof. intros H. cbn [lex_run]. now rewrite H. Qed.

Ltac compare_units :=
  repeat match goal with
         | |- context [(?a <=? ?b)%N] => destruct (N.leb_spec a b)
         | |- context [(?a <? ?b)%N] => destruct (N.ltb_spec a b)
         | |- context [(?a =? ?b)%N] => destruct (N.eqb_spec a b)
         end.

Lemma hex_value_hex_digit (d : N) :
  (d < 16)%N -> hex_value (hex_digit d) = Some d.
Proof.
  intros H. unfold hex_value, hex_digit.
  compare_units; cbn [andb]; try lia; f_equal; lia.
Qed.

Lemma hex_digits_value (c : N) :
  (c < 65536)%N ->
  ((c / 4096 < 16) /\ ((c / 256) mod 16 < 16) /\ ((c / 16) mod 16 < 16) /\ (c mod 16 < 16) /\
   (((0 * 16 + c / 4096) * 16 + (c / 256) mod 16) * 16 + (c / 16) mod 16) * 16 + c mod 16 = c)%N.
Proof.
  intros H.
  pose proof (N.div_mod c 16 ltac:(lia)) as H1.
  pose proof (N.div_mod (c / 16) 16 ltac:(lia)) as H2.
  pose proof (N.div_mod (c / 16 / 16) 16 ltac:(lia)) as H3.
  pose proof (N.mod_lt c 16 ltac:(lia)).
  pose proof (N.mod_lt (c / 16) 16 ltac:(lia)).
  pose proof (N.mod_lt (c / 16 / 16) 16 ltac:(lia)).
  assert (E256 : (c / 256 = c / 16 / 16)%N) by (rewrite N.Div0.div_div; reflexivity).
  assert (E4096 : (c / 4096 = c / 16 / 16 / 16)%N) by (rewrite !N.Div0.div_div; reflexivity).
  assert (Hs : (c / 4096 < 16)%N) by (apply N.Div0.div_lt_upper_bound; lia).
  rewrite E256. rewrite E4096 in *. repeat split; try assumption.
  lia.
Qed.

(** An escape of four hexadecimal digits reads back as its code unit. *)
Lemma lex_unicode_escape (acc rest : jsstring) (c : N) :
  (c < 65536)%N ->
  lex_run (LStr acc) (unicode_escape c ++ rest) = lex_run (LStr (acc ++ [c])) rest.
Proof.
  intros H. destruct (hex_digits_value H) as (H1 & H2 & H3 & H4 & E).
  unfold unicode_escape. cbn [app].
  rewrite (@lex_run_silent (LStr acc) (LEsc acc)) by reflexivity.
  rewrite (@lex_run_silent (LEsc acc) (LUni acc 3 0)) by reflexivity.
  rewrite (@lex_run_silent (LUni acc 3 0) (LUni acc 2 (0 * 16 + c / 4096)))
    by (cbn [lex_step]; now rewrite (hex_value_hex_digit H1)).
  rewrite (@lex_run_silent (LUni acc 2 _)
             (LUni acc 1 ((0 * 16 + c / 4096) * 16 + (c / 256) mod 16)))
    by (cbn [lex_step]; now rewrite (hex_value_hex_digit H2)).
  rewrite (@lex_run_silent (LUni acc 1 _)
             (LUni acc 0 (((0 * 16 + c / 4096) * 16 + (c / 256) mod 16) * 16 + (c / 16) mod 16)))
    by (cbn [lex_step]; now rewrite (hex_value_hex_digit H3)).
  rewrite (@lex_run_silent (LUni acc 0 _) (LStr (acc ++ [c]))); [reflexivity|].
  cbn [lex_step]. rewrite (hex_value_hex_digit H4). now rewrite E.
Qed.

Lemma plain_from_32 (c : N) :
  (32 <= c)%N -> c <> QUOTE -> c <> BACKSLASH -> plain c = true.
Proof.
  intros H1 H2 H3. unfold plain.
  compare_units; cbn [negb andb]; try reflexivity; lia || contradiction.
Qed.

Ltac read_escape :=
  cbn [app];
  erewrite lex_run_silent by reflexivity;
  erewrite lex_run_silent by reflexivity;
  reflexivity.

Lemma lex_quote_unit (acc rest : jsstring) (c : N) :
  lex_run (LStr acc) (quote_unit c ++ rest) = lex_run (LStr (acc ++ [c])) rest.
Proof.
  unfold quote_unit.
  destruct (N.eqb_spec c 8) as [->|N8]; [read_escape|].
  destruct (N.eqb_spec c TAB) as [->|N9]; [read_escape|].
  destruct (N.eqb_spec c LF) as [->|N10]; [read_escape|].
  destruct (N.eqb_spec c 12) as [->|N12]; [read_escape|].
  destruct (N.eqb_spec c CR) as [->|N13]; [read_escape|].
  destruct (N.eqb_spec c QUOTE) as [->|N34]; [read_escape|].
  destruct (N.eqb_spec c BACKSLASH) as [->|N92]; [read_escape|].
  destruct (N.ltb_spec c 32) as [L|L].
  - apply lex_unicode_escape. lia.
  - cbn [app]. apply lex_run_silent. apply lex_step_plain. now apply plain_from_32.
Qed.

(** The text of a string reads back as the string. *)
Lemma lex_quote_chars (n : nat) :
  forall (s acc rest : jsstring),
    List.length s <= n ->
    lex_run (LStr acc) (quote_chars s ++ QUOTE :: rest)
    = option_map (app [TStr (acc ++ s)]) (lex_run LDefault rest).
Proof.
  induction n as [|n IH]; intros s acc rest Hn.
  - destruct s; [|simpl in Hn; lia].
    rewrite app_nil_r. change (quote_chars [] ++ QUOTE :: rest) with (QUOTE :: rest).
    now apply lex_run_emit.
  - destruct s as [|c r].
    + rewrite app_nil_r. change (quote_chars [] ++ QUOTE :: rest) with (QUOTE :: rest).
      now apply lex_run_emit.
    + assert (Hr : List.length r <= n) by (simpl in Hn; lia).
      assert (Hescape : (c < 65536)%N ->
                lex_run (LStr acc) ((unicode_escape c ++ quote_chars r) ++ QUOTE :: rest)
                = option_map (app [TStr (acc ++ c :: r)]) (lex_run LDefault rest)).
      { intros Hc. rewrite <- app_assoc, (lex_unicode_escape _ _ Hc), (IH r _ _ Hr).
        now rewrite <- app_assoc. }
      cbn [quote_chars].
      destruct (is_high_surrogate c) eqn:Hh.
      * assert (Hc : (55296 <= c <= 56319)%N).
        { unfold is_high_surrogate in Hh. apply andb_true_iff in Hh as [A B].
          apply N.leb_le in A, B. lia. }
        destruct r as [|d r'].
        { rewrite <- (app_nil_r (unicode_escape c)).
          change (@nil N) with (quote_chars []) at 1. apply Hescape. lia. }
        destruct (is_low_surrogate d) eqn:Hl; [|apply Hescape; lia].
        assert (Hd : (56320 <= d <= 57343)%N).
        { unfold is_low_surrogate in Hl. apply andb_true_iff in Hl as [A B].
          apply N.leb_le in A, B. lia. }
        change ((c :: d :: quote_chars r') ++ QUOTE :: rest)
          with (c :: d :: (quote_chars r' ++ QUOTE :: rest)).
        rewrite (@lex_run_silent (LStr acc) (LStr (acc ++ [c])))
          by (apply lex_step_plain, plain_from_32; lia).
        rewrite (@lex_run_silent (LStr (acc ++ [c])) (LStr ((acc ++ [c]) ++ [d])))
          by (apply lex_step_plain, plain_from_32; lia).
        rewrite (IH r') by (simpl in Hr; lia).
        now rewrite <- !app_assoc.
      * destruct (is_low_surrogate c) eqn:Hl.
        { apply Hescape. unfold is_low_surrogate in Hl.
          apply andb_true_iff in Hl as [A B]. apply N.leb_le in A, B. lia. }
        rewrite <- app_assoc, lex_quote_unit.
        rewrite (IH r _ _ Hr). now rewrite <- app_assoc.
Qed.

Lemma lex_quote (s rest : jsstring) :
  lex_run LDefault (quote s ++ rest)
  = option_map (app [TStr s]) (lex_run LDefault rest).
Proof.
  unfold quote. cbn [app]. rewrite <- app_assoc. cbn [app].
  rewrite (@lex_run_silent LDefault (LStr [])) by reflexivity.
  apply (lex_quote_chars (n := List.length s)). lia.
Qed.

(** A number ends where the text ends or a delimiter follows. *)
Lemma lex_number_end (ph : numphase) (a : numacc) (rest : jsstring) :
  accepting ph = true ->
  delimited rest = true ->
  lex_run (LNum ph a) rest = option_map (app [TNum (number_of a)]) (lex_run LDefault rest).
Proof.
  intros Ha Hd. destruct rest as [|c r].
  - cbn [lex_run lex_end]. now rewrite Ha.
  - cbn [delimited] in Hd.
    assert (Hc : c = COMMA \/ c = RBRACK \/ c = RBRACE).
    { apply orb_true_iff in Hd as [Hd | Hd]; [apply orb_true_iff in Hd as [Hd | Hd]|];
        apply N.eqb_eq in Hd; auto. }
    destruct Hc as [-> | [-> | ->]].
    + rewrite (@lex_run_emit LDefault LDefault COMMA r [TComma] eq_refl), option_map_app_app.
      apply lex_run_emit; destruct ph; try discriminate Ha; reflexivity.
    + rewrite (@lex_run_emit LDefault LDefault RBRACK r [TRBrack] eq_refl), option_map_app_app.
      apply lex_run_emit; destruct ph; try discriminate Ha; reflexivity.
    + rewrite (@lex_run_emit LDefault LDefault RBRACE r [TRBrace] eq_refl), option_map_app_app.
      apply lex_run_emit; destruct ph; try discriminate Ha; reflexivity.
Qed.

(** *** Numbers: the text of a Number reads back as its carrier *)

Lemma digit_value_digit (c : N) :
  is_digit c = true -> digit_value c = Some (c - 48)%N.
Proof. unfold is_digit, digit_value. now intros ->. Qed.

Lemma digits_value_app (acc : N) (ds more : jsstring) :
  digits_value acc (ds ++ more) = digits_value (digits_value acc ds) more.
Proof. unfold digits_value. apply fold_left_app. Qed.

Lemma digits_value_zeros (t : nat) :
  forall acc, digits_value acc (zeros t) = (acc * 10 ^ N.of_nat t)%N.
Proof.
  induction t as [|t IH]; intros acc.
  - cbn [zeros repeat digits_value fold_left N.of_nat]. rewrite N.pow_0_r. lia.
  - change (digits_value acc (zeros (S t)))
      with (digits_value (acc * 10 + (48 - 48))%N (zeros t)).
    rewrite IH, Nat2N.inj_succ, N.pow_succ_r'. change (48 - 48)%N with 0%N. lia.
Qed.

Lemma digits_of_zeros (t : nat) : forallb is_digit (zeros t) = true.
Proof. induction t as [|t IH]; [reflexivity | exact IH]. Qed.

(** Digits in the integer part, in the fraction and in the exponent. *)
Lemma lex_int_digits (ds : jsstring) :
  forall (a : numacc) (rest : jsstring),
    forallb is_digit ds = true ->
    lex_run (LNum NInt a) (ds ++ rest)
    = lex_run (LNum NInt (mk_numacc (nneg a) (digits_value (mant a) ds) (fracl a)
                            (eneg a) (expo a))) rest.
Proof.
  induction ds as [|c ds IH]; intros a rest Hd.
  - destruct a; reflexivity.
  - cbn [forallb] in Hd. apply andb_true_iff in Hd as [Hc Hd]. cbn [app].
    rewrite (@lex_run_silent (LNum NInt a) (LNum NInt (push_digit a (c - 48))))
      by (cbn [lex_step num_step]; now rewrite (digit_value_digit _ Hc)).
    rewrite (IH _ _ Hd). reflexivity.
Qed.

Lemma lex_frac_digits (ds : jsstring) :
  forall (a : numacc) (rest : jsstring),
    forallb is_digit ds = true ->
    lex_run (LNum NFrac a) (ds ++ rest)
    = lex_run (LNum NFrac (mk_numacc (nneg a) (digits_value (mant a) ds)
                             (fracl a + N.of_nat (List.length ds)) (eneg a) (expo a)))
        rest.
Proof.
  induction ds as [|c ds IH]; intros a rest Hd.
  - destruct a as [ng m f en ex]. cbn [app List.length N.of_nat fracl].
    now rewrite N.add_0_r.
  - cbn [forallb] in Hd. apply andb_true_iff in Hd as [Hc Hd]. cbn [app].
    rewrite (@lex_run_silent (LNum NFrac a) (LNum NFrac (push_frac a (c - 48))))
      by (cbn [lex_step num_step]; now rewrite (digit_value_digit _ Hc)).
    rewrite (IH _ _ Hd). cbn [push_frac nneg mant fracl eneg expo List.length].
    do 3 f_equal. lia.
Qed.

Lemma lex_exp_digits (ds : jsstring) :
  forall (a : numacc) (rest : jsstring),
    forallb is_digit ds = true ->
    lex_run (LNum NExpDigits a) (ds ++ rest)
    = lex_run (LNum NExpDigits (mk_numacc (nneg a) (mant a) (fracl a) (eneg a)
                                  (digits_value (expo a) ds))) rest.
Proof.
  induction ds as [|c ds IH]; intros a rest Hd.
  - destruct a; reflexivity.
  - cbn [forallb] in Hd. apply andb_true_iff in Hd as [Hc Hd]. cbn [app].
    rewrite (@lex_run_silent (LNum NExpDigits a) (LNum NExpDigits (push_exp a (c - 48))))
      by (cbn [lex_step num_step]; now rewrite (digit_value_digit _ Hc)).
    rewrite (IH _ _ Hd). reflexivity.
Qed.

(** After the point at least one digit is read. *)
Lemma lex_fraction (c : N) (ds : jsstring) (a : numacc) (rest : jsstring) :
  forallb is_digit (c :: ds) = true ->
  lex_run (LNum NDot a) (c :: ds ++ rest)
  = lex_run (LNum NFrac (mk_numacc (nneg a) (digits_value (mant a) (c :: ds))
                           (fracl a + N.of_nat (List.length (c :: ds))) (eneg a) (expo a)))
      rest.
Proof.
  intros Hd. cbn [forallb] in Hd. apply andb_true_iff in Hd as [Hc Hd].
  rewrite (@lex_run_silent (LNum NDot a) (LNum NFrac (push_frac a (c - 48))))
    by (cbn [lex_step num_step]; now rewrite (digit_value_digit _ Hc)).
  rewrite (lex_frac_digits _ _ _ Hd). cbn [push_frac nneg mant fracl eneg expo List.length].
  do 3 f_equal. lia.
Qed.

(** After the sign of an exponent at least one digit is read. *)
Lemma lex_exponent (c : N) (ds : jsstring) (a : numacc) (rest : jsstring) :
  forallb is_digit (c :: ds) = true ->
  lex_run (LNum NExpSign a) (c :: ds ++ rest)
  = lex_run (LNum NExpDigits (mk_numacc (nneg a) (mant a) (fracl a) (eneg a)
                                (digits_value (expo a) (c :: ds)))) rest.
Proof.
  intros Hd. cbn [forallb] in Hd. apply andb_true_iff in Hd as [Hc Hd].
  rewrite (@lex_run_silent (LNum NExpSign a) (LNum NExpDigits (push_exp a (c - 48))))
    by (cbn [lex_step num_step]; now rewrite (digit_value_digit _ Hc)).
  rewrite (lex_exp_digits _ _ _ Hd). reflexivity.
Qed.

(** *** The decimal digits of a number *)

Lemma digits_of_uint (d : Decimal.uint) : forallb is_digit (uint_chars d) = true.
Proof. induction d; cbn [uint_chars forallb]; auto. Qed.

Lemma digits_value_acc (d : Decimal.uint) :
  forall acc : positive,
    digits_value (N.pos acc) (uint_chars d) = N.pos (Pos.of_uint_acc d acc).
Proof.
  induction d as [|d IH|d IH|d IH|d IH|d IH|d IH|d IH|d IH|d IH|d IH]; intros acc;
    cbn [uint_chars Pos.of_uint_acc]; [reflexivity | ..];
    match goal with
    | |- digits_value ?a (?c :: ?r) = _ =>
        change (digits_value a (c :: r)) with (digits_value (a * 10 + (c - 48))%N r)
    end;
    rewrite <- IH; f_equal; lia.
Qed.

Lemma digits_value_uint (d : Decimal.uint) :
  digits_value 0 (uint_chars d) = Pos.of_uint d.
Proof.
  induction d as [|d IH|d IH|d IH|d IH|d IH|d IH|d IH|d IH|d IH|d IH];
    cbn [uint_chars Pos.of_uint]; [reflexivity | exact IH | ..];
    match goal with
    | |- digits_value ?a (?c :: ?r) = _ =>
        change (digits_value a (c :: r)) with (digits_value (a * 10 + (c - 48))%N r)
    end;
    apply (digits_value_acc d).
Qed.

(** The digits of a number read as that number. *)
Lemma digits_value_digits (m : N) : digits_value 0 (digits m) = m.
Proof.
  unfold digits. rewrite digits_value_uint. destruct m as [|p]; [reflexivity|].
  apply DecimalPos.Unsigned.of_to.
Qed.

Lemma nzhead_head (d : Decimal.uint) :
  match Decimal.nzhead d with Decimal.D0 _ => False | _ => True end.
Proof. induction d; simpl; auto. Qed.

(** The decimal digits of a positive number begin with a digit that is
    not zero. *)
Lemma to_uint_head (p : positive) :
  match Pos.to_uint p with
  | Decimal.Nil | Decimal.D0 _ => False
  | _ => True
  end.
Proof.
  pose proof (DecimalPos.Unsigned.to_of (Pos.to_uint p)) as H.
  rewrite DecimalPos.Unsigned.of_to in H. cbn [N.to_uint] in H.
  pose proof (DecimalPos.Unsigned.to_uint_nonzero p) as Hz.
  destruct (Pos.to_uint p) as [|d|d|d|d|d|d|d|d|d|d]; try exact I.
  - discriminate H.
  - unfold Decimal.unorm in H. cbn [Decimal.nzhead] in H.
    pose proof (nzhead_head d) as Hh.
    destruct (Decimal.nzhead d); try discriminate H; contradiction.
Qed.

Lemma digits_head (p : positive) :
  exists c r, digits (N.pos p) = c :: r /\ leading c.
Proof.
  unfold digits, leading. cbn [N.to_uint]. pose proof (to_uint_head p) as Hh.
  destruct (Pos.to_uint p) as [|d|d|d|d|d|d|d|d|d|d]; try contradiction;
    cbn [uint_chars]; eexists _, _; (split; [reflexivity | tauto]).
Qed.

Lemma digits_nonempty (m : N) : exists c r, digits m = c :: r.
Proof.
  destruct m as [|p]; [now exists 48%N, [] |].
  destruct (digits_head p) as (c & r & E & _). eauto.
Qed.

Lemma leading_digit (c : N) : leading c -> is_digit c = true /\ (c =? 48)%N = false.
Proof.
  unfold leading. intros H.
  repeat (destruct H as [-> | H]; [split; reflexivity|]). subst c. split; reflexivity.
Qed.

(** *** Zeros at the end of the digits *)

Lemma strip_zeros_digits (ds : jsstring) :
  forallb is_digit ds = true -> forallb is_digit (strip_zeros ds) = true.
Proof.
  induction ds as [|c ds IH]; [reflexivity|].
  cbn [forallb strip_zeros]. intros H. apply andb_true_iff in H as [Hc Hd].
  specialize (IH Hd). destruct (strip_zeros ds) as [|x r].
  - destruct (c =? 48)%N; [reflexivity|]. cbn [forallb]. now rewrite Hc.
  - cbn [forallb] in IH |- *. now rewrite Hc, IH.
Qed.

Lemma strip_zeros_head (c : N) (ds : jsstring) :
  (c =? 48)%N = false -> exists r, strip_zeros (c :: ds) = c :: r.
Proof.
  intros Hc. cbn [strip_zeros]. destruct (strip_zeros ds) as [|x r]; [|eauto].
  rewrite Hc. eauto.
Qed.

Lemma strip_zeros_split (ds : jsstring) :
  ds = strip_zeros ds ++ zeros (List.length ds - List.length (strip_zeros ds)).
Proof.
  induction ds as [|c ds IH]; [reflexivity|].
  cbn [strip_zeros]. destruct (strip_zeros ds) as [|x r] eqn:E.
  - cbn [List.length app] in IH. rewrite Nat.sub_0_r in IH.
    destruct (N.eqb_spec c 48) as [-> | Hc].
    + cbn [List.length app]. rewrite Nat.sub_0_r. cbn [zeros repeat]. f_equal. exact IH.
    + cbn [List.length app].
      replace (S (List.length ds) - 1)%nat with (List.length ds) by lia.
      f_equal. exact IH.
  - cbn [List.length app] in IH |- *. f_equal. exact IH.
Qed.

Lemma strip_zeros_length (ds : jsstring) :
  (List.length (strip_zeros ds) <= List.length ds)%nat.
Proof.
  pose proof (f_equal (@List.length N) (strip_zeros_split ds)) as H.
  rewrite length_app in H. lia.
Qed.

(** *** The text of a Number *)

(** An optional minus and a first digit that is not zero. *)
Lemma lex_leading (neg : bool) (c : N) (more : jsstring) :
  leading c ->
  lex_run LDefault ((if neg then [MINUS] else []) ++ c :: more)
  = lex_run (LNum NInt (mk_numacc neg (digits_value 0 [c]) 0 false 0)) more.
Proof.
  unfold leading. intros H. decompose [or] H; subst c; destruct neg; cbn [app];
    repeat (erewrite lex_run_silent by reflexivity); reflexivity.
Qed.

(** An optional minus and a zero. *)
Lemma lex_leading_zero (neg : bool) (more : jsstring) :
  lex_run LDefault ((if neg then [MINUS] else []) ++ 48%N :: more)
  = lex_run (LNum NZero (mk_numacc neg 0 0 false 0)) more.
Proof.
  destruct neg; cbn [app]; repeat (erewrite lex_run_silent by reflexivity); reflexivity.
Qed.

Lemma lex_point (ph : numphase) (a : numacc) (more : jsstring) :
  ph = NInt \/ ph = NZero ->
  lex_run (LNum ph a) (DOT :: more) = lex_run (LNum NDot a) more.
Proof. intros [-> | ->]; now apply lex_run_silent. Qed.

Lemma lex_exp_mark (ph : numphase) (a : numacc) (minus : bool) (more : jsstring) :
  ph = NInt \/ ph = NFrac ->
  lex_run (LNum ph a) (101%N :: (if minus then MINUS else PLUS) :: more)
  = lex_run (LNum NExpSign (mk_numacc (nneg a) (mant a) (fracl a) (minus || eneg a)
                              (expo a))) more.
Proof.
  intros [-> | ->]; destruct minus, a as [ng m f en ex];
    repeat (erewrite lex_run_silent by reflexivity); reflexivity.
Qed.

Lemma same_number_token (neg : bool) (m m' : N) (e e' : Z) (r : option (list token)) :
  m = m' -> e = e' ->
  option_map (app [TNum (Dec neg m e)]) r = option_map (app [TNum (Dec neg m' e')]) r.
Proof. now intros -> ->. Qed.

Ltac hold_result :=
  cbv iota; match goal with |- _ = ?r => set (result := r) end.

(** The text that [format_digits] gives to digits that begin with a digit
    other than zero reads back as one number: written out when it is an
    integer below 10^21, else the digits with the exponent that is left. *)
Lemma lex_format_digits (neg : bool) (c : N) (tl : jsstring) (p : Z) (rest : jsstring) :
  leading c ->
  forallb is_digit tl = true ->
  delimited rest = true ->
  lex_run LDefault ((if neg then [MINUS] else []) ++ format_digits (c :: tl) p ++ rest)
  = option_map
      (app [TNum (if ((Z.of_nat (List.length (c :: tl)) <=? p) && (p <=? 21))%Z
                  then Dec neg (digits_value 0 (c :: tl)
                                * 10 ^ N.of_nat (Z.to_nat (p - Z.of_nat (List.length (c :: tl)))))
                         0
                  else Dec neg (digits_value 0 (c :: tl))
                         (p - Z.of_nat (List.length (c :: tl))))])
      (lex_run LDefault rest).
Proof.
  intros Hc Htl Hrest. unfold format_digits.
  set (k := Z.of_nat (List.length (c :: tl))).
  assert (Hk : k = (Z.of_nat (List.length tl) + 1)%Z) by (subst k; cbn [List.length]; lia).
  destruct ((k <=? p) && (p <=? 21))%Z eqn:C1.
  - (* an integer, written out *)
    hold_result. cbn [app]. rewrite <- app_assoc, (lex_leading neg _ Hc).
    rewrite app_assoc, lex_int_digits
      by (rewrite forallb_app, Htl; apply digits_of_zeros).
    rewrite (lex_number_end NInt _ _ eq_refl Hrest).
    subst result. apply same_number_token; [|reflexivity].
    cbn [nneg mant fracl eneg expo]. rewrite digits_value_app, digits_value_zeros.
    reflexivity.
  - destruct ((0 <? p) && (p <=? 21))%Z eqn:C2.
    + (* a fraction with digits before the point *)
      apply andb_true_iff in C2 as [Hp0 Hp21]. apply Z.ltb_lt in Hp0. apply Z.leb_le in Hp21.
      assert (Hpk : (p < k)%Z).
      { apply andb_false_iff in C1 as [C1 | C1]; [now apply Z.leb_gt in C1|].
        apply Z.leb_gt in C1. lia. }
      destruct (Z.to_nat p) as [|i] eqn:Ei; [lia|].
      assert (Hi : (i < List.length tl)%nat) by lia.
      hold_result. cbn [firstn skipn app].
      destruct (skipn i tl) as [|f fr] eqn:Es.
      { apply (f_equal (@List.length N)) in Es. rewrite length_skipn in Es.
        cbn [List.length] in Es. lia. }
      assert (Hparts : forallb is_digit (firstn i tl) = true /\
                       forallb is_digit (f :: fr) = true).
      { rewrite <- Es. apply andb_true_iff. now rewrite <- forallb_app, firstn_skipn. }
      destruct Hparts as [Hfirst Hfrac].
      rewrite (lex_leading neg _ Hc).
      rewrite <- app_assoc, (lex_int_digits _ _ _ Hfirst).
      cbn [app].
      rewrite (@lex_point NInt _ _ (or_introl eq_refl)), (lex_fraction _ _ _ _ Hfrac).
      rewrite (lex_number_end NFrac _ _ eq_refl Hrest).
      subst result. unfold number_of. cbn [nneg mant fracl eneg expo].
      apply same_number_token.
      * rewrite <- Es, <- digits_value_app.
        change (digits_value (digits_value 0 [c]) (firstn i tl ++ skipn i tl))
          with (digits_value 0 (c :: (firstn i tl ++ skipn i tl))).
        now rewrite firstn_skipn.
      * apply (f_equal (@List.length N)) in Es. rewrite length_skipn in Es.
        rewrite <- Es. lia.
    + destruct ((-6 <? p) && (p <=? 0))%Z eqn:C3.
      * (* a fraction below one, after zeros *)
        apply andb_true_iff in C3 as [_ Hp0]. apply Z.leb_le in Hp0.
        hold_result. cbn [app]. rewrite (lex_leading_zero neg).
        rewrite (@lex_point NZero _ _ (or_intror eq_refl)).
        assert (Hfrac : forallb is_digit (zeros (Z.to_nat (- p)) ++ c :: tl) = true).
        { rewrite forallb_app, digits_of_zeros. cbn [forallb].
          now rewrite (proj1 (leading_digit Hc)), Htl. }
        destruct (zeros (Z.to_nat (- p)) ++ c :: tl) as [|f fr] eqn:Ez.
        { destruct (zeros (Z.to_nat (- p))); discriminate Ez. }
        cbn [app].
        rewrite (lex_fraction _ _ _ _ Hfrac), (lex_number_end NFrac _ _ eq_refl Hrest).
        subst result. unfold number_of. cbn [nneg mant fracl eneg expo].
        apply same_number_token.
        -- rewrite <- Ez, digits_value_app, digits_value_zeros. reflexivity.
        -- apply (f_equal (@List.length N)) in Ez. rewrite <- Ez, length_app.
           unfold zeros. rewrite repeat_length. cbn [List.length]. lia.
      * (* with an exponent *)
        assert (Hx : forallb is_digit (digits (Z.abs_N (p - 1))) = true)
          by apply digits_of_uint.
        destruct (digits_nonempty (Z.abs_N (p - 1))) as (x & xs & Ex).
        rewrite Ex in Hx |- *.
        assert (Hv : digits_value 0 (x :: xs) = Z.abs_N (p - 1))
          by (rewrite <- Ex; apply digits_value_digits).
        assert (Hp : (p - 1 < 0 \/ 0 < p - 1)%Z).
        { apply andb_false_iff in C2. apply andb_false_iff in C3.
          rewrite Z.ltb_ge, Z.leb_gt in C2. rewrite Z.ltb_ge, Z.leb_gt in C3. lia. }
        hold_result. cbn [app]. rewrite (lex_leading neg _ Hc).
        destruct tl as [|t1 tl'].
        -- cbn [app].
           rewrite (@lex_exp_mark NInt _ (p - 1 <? 0)%Z _ (or_introl eq_refl)).
           rewrite (lex_exponent _ _ _ _ Hx), (lex_number_end NExpDigits _ _ eq_refl Hrest).
           subst result. unfold number_of. cbn [nneg mant fracl eneg expo].
           rewrite Hv, orb_false_r. apply same_number_token; [reflexivity|].
           cbn [List.length] in Hk. destruct (Z.ltb_spec (p - 1) 0); lia.
        -- cbn [app]. rewrite <- app_assoc.
           rewrite (@lex_point NInt _ _ (or_introl eq_refl)), (lex_fraction _ _ _ _ Htl).
           cbn [app].
           rewrite (@lex_exp_mark NFrac _ (p - 1 <? 0)%Z _ (or_intror eq_refl)).
           rewrite (lex_exponent _ _ _ _ Hx), (lex_number_end NExpDigits _ _ eq_refl Hrest).
           subst result. unfold number_of. cbn [nneg mant fracl eneg expo].
           rewrite Hv, orb_false_r. apply same_number_token; [reflexivity|].
           destruct (Z.ltb_spec (p - 1) 0); lia.
Qed.

Lemma truthy_positive (neg : bool) (m : N) (e : Z) :
  number_truthy (Dec neg m e) = true -> exists p, m = N.pos p.
Proof.
  cbn [number_truthy]. destruct m as [|p]; [discriminate | eauto].
Qed.

(** The text of a Number that JSON carries reads back as that Number, in
    the carrier [normalize] names. *)
Lemma lex_number (n : jsnumber) (rest : jsstring) :
  json_number n = true ->
  delimited rest = true ->
  lex_run LDefault (Number_toString n ++ rest)
  = option_map (app [TNum (normalize n)]) (lex_run LDefault rest).
Proof.
  destruct n as [| |neg m e]; try discriminate.
  unfold json_number. intros H Hd. apply andb_true_iff in H as [Hf Hz].
  cbn [is_finite] in Hf. apply negb_true_iff in Hf.
  unfold Number_toString, normalize. rewrite Hf.
  destruct (number_truthy (Dec neg m e)) eqn:Ht.
  - destruct (truthy_positive _ _ _ Ht) as [p ->].
    destruct (digits_head p) as (c & r & E & Hc).
    assert (Hall : forallb is_digit (strip_zeros (digits (N.pos p))) = true)
      by apply strip_zeros_digits, digits_of_uint.
    rewrite E in Hall |- *.
    destruct (@strip_zeros_head c r (proj2 (leading_digit Hc))) as [tl Es].
    rewrite Es in Hall |- *. cbn [forallb] in Hall. apply andb_true_iff in Hall as [_ Htl].
    cbv zeta. rewrite <- app_assoc. now apply lex_format_digits.
  - destruct neg; [cbn [is_minus_zero] in Hz; rewrite Ht in Hz; discriminate Hz|].
    change (lit "0" ++ rest) with ((if false then [MINUS] else []) ++ 48%N :: rest).
    rewrite lex_leading_zero. now rewrite (lex_number_end NZero _ _ eq_refl Hd).
Qed.

(** *** A Number and its carrier *)

Lemma pow10_pos (x : Z) : (0 < 10 ^ x \/ x < 0)%Z.
Proof.
  destruct (Z.lt_ge_cases x 0); [now right | left]. now apply Z.pow_pos_nonneg.
Qed.

(** [normalize] changes the carrier and not the Number. *)
Lemma normalize_same_number (n : jsnumber) : same_number (normalize n) n = true.
Proof.
  destruct n as [|neg|neg m e]; [reflexivity | apply eqb_reflx |].
  unfold normalize. destruct (number_truthy (Dec neg m e)) eqn:Ht.
  2: { cbn [same_number]. rewrite eqb_reflx, Ht. reflexivity. }
  cbv zeta.
  pose proof (strip_zeros_split (digits m)) as Hsplit.
  pose proof (strip_zeros_length (digits m)) as Hlen.
  pose proof (digits_value_digits m) as Hv.
  set (sds := strip_zeros (digits m)) in *.
  set (t := (List.length (digits m) - List.length sds)%nat) in *.
  rewrite Hsplit, digits_value_app, digits_value_zeros in Hv.
  set (s := digits_value 0 sds) in *.
  assert (Hp : (Z.of_nat (List.length (digits m)) + e - Z.of_nat (List.length sds)
                = e + Z.of_nat t)%Z) by lia.
  rewrite Hp. clear Hp.
  assert (Hm : Z.of_N m = (Z.of_N s * 10 ^ Z.of_nat t)%Z).
  { rewrite <- Hv, N2Z.inj_mul, N2Z.inj_pow, nat_N_Z. reflexivity. }
  assert (H10 : (0 < 10 ^ Z.of_nat t)%Z) by (apply Z.pow_pos_nonneg; lia).
  assert (Hs : (0 < Z.of_N s)%Z).
  { destruct (truthy_positive _ _ _ Ht) as [q Hq]. rewrite Hq in Hm. nia. }
  cbn [number_truthy] in Ht. apply andb_true_iff in Ht as [_ Hbig].
  destruct ((Z.of_nat (List.length sds) <=? Z.of_nat (List.length (digits m)) + e)
            && (Z.of_nat (List.length (digits m)) + e <=? 21))%Z eqn:C.
  - apply andb_true_iff in C as [C _]. apply Z.leb_le in C.
    assert (He : (0 <= e + Z.of_nat t)%Z) by lia.
    assert (Hw : Z.of_N (s * 10 ^ N.of_nat (Z.to_nat (e + Z.of_nat t)))
                 = (Z.of_N s * 10 ^ (e + Z.of_nat t))%Z).
    { rewrite N2Z.inj_mul, N2Z.inj_pow, nat_N_Z, Z2Nat.id by exact He. reflexivity. }
    assert (Hw0 : (0 < 10 ^ (e + Z.of_nat t))%Z) by (apply Z.pow_pos_nonneg; lia).
    cbn [same_number number_truthy]. rewrite eqb_reflx. cbn [andb].
    replace ((s * 10 ^ N.of_nat (Z.to_nat (e + Z.of_nat t)) =? 0)%N) with false
      by (symmetry; apply N.eqb_neq; intros F; rewrite F in Hw; cbn in Hw; nia).
    cbn [negb andb Z.leb Z.compare orb].
    replace ((m =? 0)%N) with false
      by (symmetry; apply N.eqb_neq; intros F; rewrite F in Hm; cbn in Hm; nia).
    cbn [negb andb]. rewrite Hbig. cbn [andb]. apply Z.eqb_eq. rewrite Hw, Hm.
    destruct (Z.le_ge_cases 0 e) as [Hpos | Hneg].
    + rewrite Z.min_l by lia. rewrite !Z.sub_0_r.
      change (10 ^ 0)%Z with 1%Z. rewrite Z.mul_1_r.
      rewrite (Z.add_comm e), Z.pow_add_r by lia. ring.
    + rewrite Z.min_r by lia. rewrite Z.sub_diag.
      change (10 ^ 0)%Z with 1%Z. rewrite Z.mul_1_r, <- Z.mul_assoc, <- Z.pow_add_r by lia.
      do 2 f_equal. lia.
  - clear C. cbn [same_number number_truthy]. rewrite eqb_reflx. cbn [andb].
    assert (Hs0 : (s =? 0)%N = false) by (apply N.eqb_neq; lia).
    assert (Hm0 : (m =? 0)%N = false) by (apply N.eqb_neq; nia).
    rewrite Hs0, Hm0, Hbig. cbn [negb andb].
    assert (Hbig' : ((0 <=? e + Z.of_nat t)
                     || (10 ^ (- (e + Z.of_nat t)) <? Z.of_N s * 2 ^ 1075))%Z = true).
    { destruct (Z.leb_spec 0 (e + Z.of_nat t)) as [|Hlt]; [reflexivity|]. cbn [orb].
      apply Z.ltb_lt.
      assert (He : (e < 0)%Z) by lia.
      replace (0 <=? e)%Z with false in Hbig by (symmetry; apply Z.leb_gt; lia).
      cbn [orb] in Hbig. apply Z.ltb_lt in Hbig. rewrite Hm in Hbig.
      replace (- e)%Z with (- (e + Z.of_nat t) + Z.of_nat t)%Z in Hbig by lia.
      rewrite Z.pow_add_r in Hbig by lia.
      apply (Z.mul_lt_mono_pos_r (10 ^ Z.of_nat t)); [exact H10|].
      eapply Z.lt_le_trans; [exact Hbig|]. apply Z.eq_le_incl. ring. }
    rewrite Hbig'. cbn [andb]. apply Z.eqb_eq. rewrite Hm.
    rewrite Z.min_r by lia. rewrite Z.sub_diag.
    change (10 ^ 0)%Z with 1%Z. rewrite Z.mul_1_r. do 2 f_equal. lia.
Qed.

(** Induction on a value that reaches the elements of arrays and the
    members of objects. *)
Lemma jsvalue_deep_ind (P : jsvalue -> Prop) :
  P JUndefined -> P JNull ->
  (forall b, P (JBool b)) -> (forall n, P (JNum n)) -> (forall s, P (JStr s)) ->
  (forall elems, Forall P elems -> P (JArr elems)) ->
  (forall members, Forall (fun kv => P (snd kv)) members -> P (JObj members)) ->
  forall v, P v.
Proof.
  intros HU HN HB HNum HS HA HO. fix IH 1.
  intros [ | | b | n | s | elems | members];
    [exact HU | exact HN | apply HB | apply HNum | apply HS | | ].
  - apply HA. induction elems as [|x l IHl]; constructor; [apply IH | exact IHl].
  - apply HO. induction members as [|[k x] l IHl]; constructor; [apply IH | exact IHl].
Qed.

Lemma join_more {A : Type} (sep : A) (x y : list A) (r : list (list A)) :
  join sep (x :: y :: r) = x ++ sep :: join sep (y :: r).
Proof. reflexivity. Qed.

Lemma lex_elements (elems : list jsvalue) :
  Forall lexes_back elems ->
  forallb json_safe elems = true ->
  forall rest,
    lex_run LDefault (join COMMA (map serialize elems) ++ RBRACK :: rest)
    = option_map (app (join TComma (map tokens_of elems) ++ [TRBrack]))
        (lex_run LDefault rest).
Proof.
  induction elems as [|x r IH]; intros Hall Hsafe rest.
  - now apply lex_run_emit.
  - apply Forall_cons_iff in Hall as [Hx Hr]. unfold lexes_back in Hx.
    cbn [forallb] in Hsafe. apply andb_true_iff in Hsafe as [Sx Sr].
    destruct r as [|y r].
    + change (join COMMA (map serialize [x])) with (serialize x).
      change (join TComma (map tokens_of [x])) with (tokens_of x).
      rewrite (Hx Sx) by reflexivity.
      rewrite (@lex_run_emit LDefault LDefault RBRACK rest [TRBrack] eq_refl).
      apply option_map_app_app.
    + cbn [map]. rewrite (@join_more N COMMA), (@join_more token TComma).
      rewrite <- !app_assoc.
      change ((COMMA :: join COMMA (serialize y :: map serialize r)) ++ RBRACK :: rest)
        with (COMMA :: (join COMMA (map serialize (y :: r)) ++ RBRACK :: rest)).
      rewrite (Hx Sx) by reflexivity.
      rewrite (@lex_run_emit LDefault LDefault COMMA _ [TComma] eq_refl).
      rewrite (IH Hr Sr), !option_map_app_app. rewrite <- !app_assoc. reflexivity.
Qed.

Lemma json_safe_defined (v : jsvalue) :
  json_safe v = true -> is_undefined v = false.
Proof. destruct v; [discriminate | reflexivity ..]. Qed.

Lemma lex_members (members : list (jsstring * jsvalue)) :
  Forall (fun kv => lexes_back (snd kv)) members ->
  forallb (fun kv => json_safe (snd kv)) members = true ->
  forall rest,
    lex_run LDefault (join COMMA (member_texts serialize members) ++ RBRACE :: rest)
    = option_map
        (app (join TComma
                (map (fun kv => TStr (fst kv) :: TColon :: tokens_of (snd kv)) members)
              ++ [TRBrace]))
        (lex_run LDefault rest).
Proof.
  assert (Hone : forall k x rest,
             lexes_back x -> json_safe x = true -> delimited rest = true ->
             lex_run LDefault ((quote k ++ COLON :: serialize x) ++ rest)
             = option_map (app (TStr k :: TColon :: tokens_of x)) (lex_run LDefault rest)).
  { intros k x rest Hx Sx Hd. unfold lexes_back in Hx. rewrite <- app_assoc.
    change ((COLON :: serialize x) ++ rest) with (COLON :: (serialize x ++ rest)).
    rewrite lex_quote, (@lex_run_emit LDefault LDefault COLON _ [TColon] eq_refl).
    rewrite (Hx Sx _ Hd), !option_map_app_app. reflexivity. }
  induction members as [|[k x] r IH]; intros Hall Hsafe rest.
  - now apply lex_run_emit.
  - apply Forall_cons_iff in Hall as [Hx Hr]. cbn [snd] in Hx.
    cbn [forallb snd] in Hsafe. apply andb_true_iff in Hsafe as [Sx Sr].
    cbn [member_texts map fst snd]. rewrite (json_safe_defined _ Sx).
    destruct r as [|[k' y] r].
    + cbn [member_texts map join].
      rewrite (Hone k x (RBRACE :: rest) Hx Sx eq_refl).
      rewrite (@lex_run_emit LDefault LDefault RBRACE rest [TRBrace] eq_refl).
      apply option_map_app_app.
    + assert (Sy : json_safe y = true).
      { cbn [forallb snd] in Sr. now apply andb_true_iff in Sr as [Sy _]. }
      specialize (IH Hr Sr).
      cbn [member_texts map fst snd] in IH |- *. rewrite (json_safe_defined _ Sy) in IH |- *.
      rewrite (@join_more N COMMA), (@join_more token TComma).
      rewrite <- (app_assoc (quote k ++ COLON :: serialize x)).
      match goal with
      | |- context [(COMMA :: ?j) ++ RBRACE :: rest] =>
          change ((COMMA :: j) ++ RBRACE :: rest) with (COMMA :: (j ++ RBRACE :: rest))
      end.
      rewrite (Hone k x (COMMA :: _) Hx Sx eq_refl).
      rewrite (@lex_run_emit LDefault LDefault COMMA _ [TComma] eq_refl).
      rewrite IH, !option_map_app_app.
      do 2 f_equal. now rewrite <- !app_assoc.
Qed.

Lemma lex_serialize (v : jsvalue) : lexes_back v.
Proof.
  induction v as [ | | b | n | s | elems IH | members IH] using jsvalue_deep_ind;
    unfold lexes_back; intros Hsafe rest Hd.
  - discriminate Hsafe.
  - change (serialize JNull ++ rest) with (110%N :: 117%N :: 108%N :: 108%N :: rest).
    repeat (erewrite lex_run_silent by reflexivity). now apply lex_run_emit.
  - destruct b.
    + change (serialize (JBool true) ++ rest)
        with (116%N :: 114%N :: 117%N :: 101%N :: rest).
      repeat (erewrite lex_run_silent by reflexivity). now apply lex_run_emit.
    + change (serialize (JBool false) ++ rest)
        with (102%N :: 97%N :: 108%N :: 115%N :: 101%N :: rest).
      repeat (erewrite lex_run_silent by reflexivity). now apply lex_run_emit.
  - cbn [json_safe] in Hsafe. cbn [serialize tokens_of].
    assert (Hf : is_finite n = true)
      by (unfold json_number in Hsafe; now apply andb_true_iff in Hsafe as [Hf _]).
    rewrite Hf. now apply lex_number.
  - apply lex_quote.
  - cbn [json_safe] in Hsafe. cbn [serialize tokens_of].
    change ((LBRACK :: join COMMA (map serialize elems) ++ [RBRACK]) ++ rest)
      with (LBRACK :: ((join COMMA (map serialize elems) ++ [RBRACK]) ++ rest)).
    rewrite <- app_assoc. change ([RBRACK] ++ rest) with (RBRACK :: rest).
    rewrite (@lex_run_emit LDefault LDefault LBRACK _ [TLBrack] eq_refl).
    rewrite (lex_elements IH Hsafe), option_map_app_app. reflexivity.
  - cbn [json_safe] in Hsafe. apply andb_true_iff in Hsafe as [_ Hsafe].
    cbn [serialize tokens_of].
    change ((LBRACE :: join COMMA (member_texts serialize members) ++ [RBRACE]) ++ rest)
      with (LBRACE :: ((join COMMA (member_texts serialize members) ++ [RBRACE]) ++ rest)).
    rewrite <- app_assoc. change ([RBRACE] ++ rest) with (RBRACE :: rest).
    rewrite (@lex_run_emit LDefault LDefault LBRACE _ [TLBrace] eq_refl).
    rewrite (lex_members IH Hsafe), option_map_app_app. reflexivity.
Qed.

(** *** The recogniser on the tokens of a value *)

Lemma join_cons_flat {A : Type} (sep : A) (r : list (list A)) :
  forall x, join sep (x :: r) = x ++ flat_map (cons sep) r.
Proof.
  induction r as [|y r IH]; intros x.
  - cbn [join flat_map]. now rewrite app_nil_r.
  - rewrite join_more, IH. reflexivity.
Qed.

(** After an opening bracket a value starts as it does anywhere. *)
Lemma parse_run_first_element (v : jsvalue) (k : list frame) (ts : list token) :
  parse_run (SArrOpen k) (tokens_of v ++ ts)
  = parse_run (SValue (FArr [] :: k)) (tokens_of v ++ ts).
Proof. destruct v as [ | | [|] | | | | ]; reflexivity. Qed.

Lemma set_prop_fresh (key : jsstring) (x : jsvalue) (done : list (jsstring * jsvalue)) :
  ~ In key (map fst done) -> set_prop key x done = done ++ [(key, x)].
Proof.
  induction done as [|[k' y] done IH]; intros H; [reflexivity|].
  cbn [set_prop app]. destruct (JSString.eqb k' key) eqn:E.
  - apply eqb_eq in E. exfalso. apply H. now left.
  - rewrite IH; [reflexivity|]. intros F. apply H. now right.
Qed.

Lemma distinct_keys_NoDup (ms : list (jsstring * jsvalue)) :
  distinct_keys ms = true -> NoDup (map fst ms).
Proof.
  induction ms as [|[k x] ms IH]; cbn [distinct_keys map fst]; intros H; [constructor|].
  apply andb_true_iff in H as [Hk Hr]. constructor; [|auto].
  intros F. apply negb_true_iff in Hk.
  assert (E : existsb (JSString.eqb k) (map fst ms) = true).
  { apply existsb_exists. exists k. split; [assumption | apply eqb_refl]. }
  congruence.
Qed.

Lemma parse_elements (r : list jsvalue) :
  Forall parses_back r ->
  forallb json_safe r = true ->
  forall (done : list jsvalue) (k : list frame) (ts : list token),
    parse_run (SArrMore done k) (flat_map (cons TComma) (map tokens_of r) ++ TRBrack :: ts)
    = parse_run (deliver (JArr (done ++ map normal_value r)) k) ts.
Proof.
  induction r as [|x r IH]; intros Hall Hsafe done k ts.
  - cbn [map flat_map app parse_run parse_step]. now rewrite app_nil_r.
  - apply Forall_cons_iff in Hall as [Hx Hr]. unfold parses_back in Hx.
    cbn [forallb] in Hsafe. apply andb_true_iff in Hsafe as [Sx Sr].
    cbn [map flat_map]. rewrite <- app_assoc.
    change ((TComma :: tokens_of x) ++ flat_map (cons TComma) (map tokens_of r) ++ TRBrack :: ts)
      with (TComma :: (tokens_of x ++ flat_map (cons TComma) (map tokens_of r) ++ TRBrack :: ts)).
    cbn [parse_run parse_step]. rewrite (Hx Sx). cbn [deliver].
    rewrite (IH Hr Sr). now rewrite <- app_assoc.
Qed.

Lemma parse_members (r : list (jsstring * jsvalue)) :
  Forall (fun kv => parses_back (snd kv)) r ->
  forallb (fun kv => json_safe (snd kv)) r = true ->
  forall (done : list (jsstring * jsvalue)) (k : list frame) (ts : list token),
    NoDup (map fst (done ++ r)) ->
    parse_run (SObjMore done k)
      (flat_map (cons TComma) (map member_tokens r) ++ TRBrace :: ts)
    = parse_run (deliver (JObj (done ++ map normal_member r)) k) ts.
Proof.
  induction r as [|[key x] r IH]; intros Hall Hsafe done k ts Hnd.
  - cbn [map flat_map app parse_run parse_step]. now rewrite app_nil_r.
  - apply Forall_cons_iff in Hall as [Hx Hr]. cbn [snd] in Hx. unfold parses_back in Hx.
    cbn [forallb snd] in Hsafe. apply andb_true_iff in Hsafe as [Sx Sr].
    assert (Hfresh : ~ In key (map fst done)).
    { rewrite map_app in Hnd. cbn [map fst] in Hnd.
      apply NoDup_remove_2 in Hnd. intros F. apply Hnd. apply in_or_app. now left. }
    cbn [map flat_map]. unfold member_tokens at 1. cbn [fst snd]. rewrite <- app_assoc.
    match goal with
    | |- parse_run _ ((TComma :: TStr key :: TColon :: ?a) ++ ?b) = _ =>
        change ((TComma :: TStr key :: TColon :: a) ++ b)
          with (TComma :: TStr key :: TColon :: (a ++ b))
    end.
    cbn [parse_run parse_step]. rewrite (Hx Sx). cbn [deliver].
    rewrite (@set_prop_fresh key (normal_value x) done Hfresh).
    rewrite IH; [now rewrite <- app_assoc | assumption | assumption |].
    rewrite <- app_assoc. cbn [app]. rewrite map_app in Hnd |- *. exact Hnd.
Qed.

Lemma parse_tokens (v : jsvalue) : parses_back v.
Proof.
  induction v as [ | | b | n | s | elems IH | members IH] using jsvalue_deep_ind;
    unfold parses_back; intros Hsafe k ts.
  - discriminate Hsafe.
  - reflexivity.
  - destruct b; reflexivity.
  - reflexivity.
  - reflexivity.
  - cbn [json_safe] in Hsafe. cbn [tokens_of].
    destruct elems as [|x r].
    + reflexivity.
    + change (map tokens_of (x :: r)) with (tokens_of x :: map tokens_of r).
      rewrite join_cons_flat.
      apply Forall_cons_iff in IH as [Hx Hr]. unfold parses_back in Hx.
      cbn [forallb] in Hsafe. apply andb_true_iff in Hsafe as [Sx Sr].
      cbn [app parse_run parse_step start_value]. rewrite <- !app_assoc.
      rewrite parse_run_first_element, (Hx Sx). cbn [deliver app].
      apply (parse_elements Hr Sr).
  - cbn [json_safe] in Hsafe. apply andb_true_iff in Hsafe as [Hd Hsafe].
    apply distinct_keys_NoDup in Hd. cbn [tokens_of].
    change (map (fun kv => TStr (fst kv) :: TColon :: tokens_of (snd kv)) members)
      with (map member_tokens members).
    destruct members as [|[key x] r].
    + reflexivity.
    + cbn [map]. rewrite join_cons_flat.
      apply Forall_cons_iff in IH as [Hx Hr]. cbn [snd] in Hx. unfold parses_back in Hx.
      cbn [forallb snd] in Hsafe. apply andb_true_iff in Hsafe as [Sx Sr].
      unfold member_tokens at 1. cbn [fst snd].
      cbn [app parse_run parse_step start_value]. rewrite <- !app_assoc.
      rewrite (Hx Sx). cbn [deliver set_prop app].
      apply (parse_members Hr Sr [(key, normal_value x)]). exact Hd.
Qed.

(** [JSON.parse(JSON.stringify(v))] is [v] for a value that JSON carries
    without loss, each Number in the carrier the reader gives it. *)
Lemma parse_serialize (v : jsvalue) :
  json_safe v = true -> JSON.parse (serialize v) = Normal (normal_value v).
Proof.
  intros Hsafe. unfold JSON.parse, parse_text.
  pose proof (lex_serialize v Hsafe [] eq_refl) as Hl. rewrite app_nil_r in Hl.
  rewrite Hl. cbn [lex_run lex_end option_map].
  rewrite (parse_tokens v Hsafe). reflexivity.
Qed.

(** ** Save and load *)

Lemma json_safe_strings (l : list jsstring) : json_safe (js_of_strings l) = true.
Proof.
  unfold js_of_strings. cbn [json_safe].
  induction l as [|s l IH]; [reflexivity | exact IH].
Qed.

Lemma json_safe_stats (s : CharacterStats) :
  finite_stats s = true -> json_safe (js_of_stats s) = true.
Proof.
  unfold finite_stats. intros H.
  apply andb_true_iff in H as [H H3]. apply andb_true_iff in H as [H1 H2].
  unfold js_of_stats. cbn [json_safe forallb snd].
  rewrite H1, H2, H3. reflexivity.
Qed.

Lemma json_safe_characters (l : list GameCharacter.t) :
  json_safe (js_of_characters l) = true.
Proof.
  unfold js_of_characters. cbn [json_safe].
  induction l as [|c l IH]; [reflexivity|].
  cbn [map forallb]. rewrite IH, andb_true_r.
  destruct c as [n d []]; reflexivity.
Qed.

Lemma json_safe_achievements (l : list Achievement.t) :
  json_safe (js_of_achievements l) = true.
Proof.
  unfold js_of_achievements. cbn [json_safe].
  induction l as [|a l IH]; [reflexivity|].
  cbn [map forallb]. rewrite IH, andb_true_r. reflexivity.
Qed.

Lemma json_safe_entries (l : list DiaryEntry.t) :
  json_safe (js_of_entries l) = true.
Proof.
  unfold js_of_entries. cbn [json_safe].
  induction l as [|e l IH]; [reflexivity|].
  cbn [map forallb]. rewrite IH, andb_true_r.
  destruct e as [i t ts [b|]]; reflexivity.
Qed.

(** Values without a Number are their own normal values. *)
Lemma normal_value_strings (l : list jsstring) :
  normal_value (js_of_strings l) = js_of_strings l.
Proof.
  unfold js_of_strings. cbn [normal_value]. f_equal.
  induction l as [|x l IH]; [reflexivity|]. cbn [map]. now rewrite IH.
Qed.

Lemma normal_value_characters (l : list GameCharacter.t) :
  normal_value (js_of_characters l) = js_of_characters l.
Proof.
  unfold js_of_characters. cbn [normal_value]. f_equal.
  induction l as [|c l IH]; [reflexivity|]. cbn [map]. rewrite IH. f_equal.
  destruct c as [n d []]; reflexivity.
Qed.

Lemma normal_value_achievements (l : list Achievement.t) :
  normal_value (js_of_achievements l) = js_of_achievements l.
Proof.
  unfold js_of_achievements. cbn [normal_value]. f_equal.
  induction l as [|x l IH]; [reflexivity|]. cbn [map]. now rewrite IH.
Qed.

Lemma normal_value_entries (l : list DiaryEntry.t) :
  normal_value (js_of_entries l) = js_of_entries l.
Proof.
  unfold js_of_entries. cbn [normal_value]. f_equal.
  induction l as [|e l IH]; [reflexivity|]. cbn [map]. rewrite IH. f_equal.
  destruct e as [i t ts [b|]]; reflexivity.
Qed.

(** The normal value is the same value. *)
Lemma same_value_normal (v : jsvalue) : same_value (normal_value v) v = true.
Proof.
  induction v as [ | | b | n | s | elems IH | members IH] using jsvalue_deep_ind;
    cbn [normal_value same_value];
    [reflexivity | reflexivity | apply eqb_reflx | apply normalize_same_number
    | apply eqb_refl | | ].
  - induction IH as [|x l Hx _ IHl]; [reflexivity|].
    cbn [map]. now rewrite Hx, IHl.
  - induction IH as [|[k x] l Hx _ IHl]; [reflexivity|].
    cbn [map fst snd] in *. now rewrite eqb_refl, Hx, IHl.
Qed.

(** What [handleLoad] sets when the saved record parses to an object. *)
Lemma handleLoad_object (a : AppState) (ls : Storage) (c : N) (raw : jsstring)
    (members : list (jsstring * jsvalue)) :
  getItem SAVE_KEY ls = Some (c :: raw) ->
  JSON.parse (c :: raw) = Normal (JObj members) ->
  fst (handleLoad a ls)
  = {| gameState := LOADING_ANIMATION;
       entries := get "entries" (JObj members);
       stats := get "stats" (JObj members);
       inventory := get "inventory" (JObj members);
       characters := get "characters" (JObj members);
       achievements := get "achievements" (JObj members);
       premise := get "premise" (JObj members);
       hasSave := hasSave a |}.
Proof.
  intros Hg Hp. unfold handleLoad. rewrite Hg, Hp. reflexivity.
Qed.

Lemma getItem_setItem (k v : jsstring) (ls : Storage) :
  getItem k (setItem k v ls) = Some v.
Proof. unfold setItem. cbn [getItem]. now rewrite eqb_refl. Qed.

(** What a save followed by a load leaves, whatever the state is when
    the record is loaded: the six parts come from the record. *)
Lemma save_then_load_record (a held : AppState) (now : jsstring) (ls : Storage) :
  forallb json_safe [entries a; stats a; inventory a; characters a; achievements a;
                     premise a] = true ->
  save_then_load now a held ls
  = {| gameState := LOADING_ANIMATION;
       entries := normal_value (entries a);
       stats := normal_value (stats a);
       inventory := normal_value (inventory a);
       characters := normal_value (characters a);
       achievements := normal_value (achievements a);
       premise := normal_value (premise a);
       hasSave := hasSave held |}.
Proof.
  intros H. cbn [forallb] in H.
  repeat (apply andb_true_iff in H; destruct H as [?H H]).
  assert (Hs : json_safe
                 (JObj [(lit "entries", entries a); (lit "stats", stats a);
                        (lit "inventory", inventory a); (lit "characters", characters a);
                        (lit "achievements", achievements a); (lit "premise", premise a);
                        (lit "timestamp", JStr now)]) = true).
  { cbn [json_safe forallb snd]. rewrite H0, H1, H2, H3, H4, H5. reflexivity. }
  pose proof (parse_serialize _ Hs) as Hp.
  unfold save_then_load, handleSave. cbn [snd JSON.stringify].
  match type of Hp with
  | JSON.parse (serialize ?d) = _ => set (data := d) in *
  end.
  assert (Hw : exists raw, serialize data = LBRACE :: raw) by (eexists; reflexivity).
  destruct Hw as [raw Hw]. rewrite Hw in Hp |- *.
  cbn [normal_value map] in Hp.
  erewrite handleLoad_object; [|apply getItem_setItem | exact Hp].
  reflexivity.
Qed.

(** C8 (as the code has it): for a session whose stats are finite Numbers
    other than minus zero, saving it and later loading the record, whatever
    the state is by then, gives back the same transcript, inventory,
    characters, achievements and premise, and the same three stats: the
    same Numbers, each in the carrier the reader gives it. *)
Theorem save_then_load_restores_session
    (s : SessionState) (g : GameState) (saved : bool) (now : jsstring)
    (held : AppState) (ls : Storage) :
  finite_stats (session_stats s) = true ->
  let loaded := save_then_load now (app_of_session s g saved) held ls in
  entries loaded = js_of_entries (session_entries s) /\
  inventory loaded = js_of_strings (session_inventory s) /\
  characters loaded = js_of_characters (session_characters s) /\
  achievements loaded = js_of_achievements (session_achievements s) /\
  premise loaded = JStr (session_premise s) /\
  stats loaded = js_of_stats (normal_stats (session_stats s)) /\
  same_stats (normal_stats (session_stats s)) (session_stats s) = true.
Proof.
  intros H loaded. subst loaded. rewrite save_then_load_record.
  - cbn [entries stats inventory characters achievements premise app_of_session].
    rewrite normal_value_entries, normal_value_strings, normal_value_characters,
      normal_value_achievements.
    repeat split. unfold same_stats, normal_stats. cbn [health resolve suspicion].
    now rewrite !normalize_same_number.
  - cbn [entries stats inventory characters achievements premise app_of_session forallb].
    rewrite json_safe_entries, (json_safe_stats _ H), json_safe_strings,
      json_safe_characters, json_safe_achievements.
    reflexivity.
Qed.

Lemma save_then_load_restores_session_witness :
  stats (save_then_load (lit "1/1/2025, 3:00:00 AM")
           (app_of_session fractional_session PLAYING false) sample_app [])
  = js_of_stats (normal_stats (session_stats fractional_session)).
Proof.
  refine (proj1 (proj2 (proj2 (proj2 (proj2 (proj2
            (@save_then_load_restores_session fractional_session PLAYING false
               (lit "1/1/2025, 3:00:00 AM") sample_app [] _))))))).
  vm_compute. reflexivity.
Defined.

(** A stat that is Infinity is written as null and loaded as null: the
    session that comes back is not the one saved, not even up to the
    carriers of its Numbers. *)
Lemma save_then_load_loses_infinity :
  ~ (forall (s : SessionState) (g : GameState) (saved : bool) (now : jsstring)
            (held : AppState) (ls : Storage),
        equal_session (save_then_load now (app_of_session s g saved) held ls)
                      (app_of_session s g saved)).
Proof.
  intros H. specialize (H unbounded_session PLAYING false (lit "now") sample_app []).
  destruct H as (_ & Hs & _). vm_compute in Hs. discriminate Hs.
Qed.

(** A saved record that is not JSON is dropped, and the session stays as
    it was. *)
Lemma handleLoad_corrupt (a : AppState) (ls : Storage) (c : N) (raw : jsstring) :
  getItem SAVE_KEY ls = Some (c :: raw) ->
  JSON.parse (c :: raw) = Throw SyntaxError ->
  same_session (fst (handleLoad a ls)) a /\
  hasSave (fst (handleLoad a ls)) = false /\
  snd (handleLoad a ls) = removeItem SAVE_KEY ls.
Proof.
  intros Hg Hp. unfold handleLoad. rewrite Hg, Hp. cbn [bind fst snd].
  repeat split.
Qed.

(** ** The run-time objects determine the typed state *)

Lemma js_of_stats_inj (s s' : CharacterStats) :
  js_of_stats s = js_of_stats s' -> s = s'.
Proof. destruct s, s'. unfold js_of_stats. cbn. intros [= -> -> ->]. reflexivity. Qed.

Lemma js_of_strings_inj (l l' : list jsstring) :
  js_of_strings l = js_of_strings l' -> l = l'.
Proof.
  unfold js_of_strings. intros [= H]. revert l' H.
  induction l as [|s l IH]; intros [|s' l']; cbn [map]; intros H;
    try discriminate H; [reflexivity|].
  injection H as -> H. f_equal. now apply IH.
Qed.

Lemma js_of_status_inj (s s' : CharacterStatus) :
  js_of_status s = js_of_status s' -> s = s'.
Proof. destruct s, s'; intros H; try reflexivity; discriminate H. Qed.

Lemma js_of_characters_inj (l l' : list GameCharacter.t) :
  js_of_characters l = js_of_characters l' -> l = l'.
Proof.
  unfold js_of_characters. intros [= H]. revert l' H.
  induction l as [|c l IH]; intros [|c' l']; cbn [map]; intros H;
    try discriminate H; [reflexivity|].
  destruct c as [n d s], c' as [n' d' s']. unfold js_of_character in H.
  cbn [GameCharacter.name GameCharacter.description GameCharacter.status] in H.
  injection H as -> -> Hs Ht. apply js_of_status_inj in Hs. subst s'.
  f_equal. now apply IH.
Qed.

(** * Further properties *)

(** ** The validator and the text around the braces *)

Lemma replace_from_no_match (pat s : jsstring) :
  includes pat s = false -> replace_from pat [] 0 s = s.
Proof.
  induction s as [|c r IH]; [reflexivity|].
  cbn [includes replace_from]. intros H. apply orb_false_iff in H as [Hs Hr].
  rewrite Hs. now rewrite (IH Hr).
Qed.

Lemma starts_with_longer (p q s : jsstring) :
  starts_with (p ++ q) s = true -> starts_with p s = true.
Proof.
  revert s; induction p as [|x p IH]; intros s; [reflexivity|].
  destruct s as [|c s]; cbn [app starts_with]; [discriminate|].
  intros H. apply andb_true_iff in H as [H1 H2]. rewrite H1. cbn [andb]. now apply IH.
Qed.

Lemma includes_longer (p q s : jsstring) :
  includes p s = false -> includes (p ++ q) s = false.
Proof.
  induction s as [|c r IH]; cbn [includes]; intros H;
    apply orb_false_iff in H as [Hs Hr]; apply orb_false_iff; split; auto;
    destruct (starts_with (p ++ q) _) eqn:E; auto;
    apply starts_with_longer in E; congruence.
Qed.

(** Stripping is the two replacements in every case: without a fence
    marker they change nothing. *)
Lemma strip_fences_replaces (s : jsstring) :
  strip_fences s = replace_all FENCE [] (replace_all FENCE_JSON [] s).
Proof.
  unfold strip_fences. destruct (includes FENCE s) eqn:E; [reflexivity|].
  unfold replace_all.
  rewrite (@replace_from_no_match FENCE_JSON s).
  - now rewrite (@replace_from_no_match FENCE s E).
  - change FENCE_JSON with (FENCE ++ lit "json"). now apply includes_longer.
Qed.

Lemma clean_text_braced (prefix body suffix : jsstring) :
  ~ In LBRACE prefix -> ~ In RBRACE suffix ->
  clean_text (prefix ++ LBRACE :: body ++ RBRACE :: suffix)
  = LBRACE :: replace_all FENCE [] (replace_all FENCE_JSON [] body) ++ [RBRACE].
Proof.
  intros Hp Hs. unfold clean_text.
  assert (Ht : trim (prefix ++ LBRACE :: body ++ RBRACE :: suffix)
               = trimStart prefix ++ LBRACE :: body ++ RBRACE :: trimEnd suffix).
  { unfold trim. rewrite (@trimStart_before prefix _ LBRACE eq_refl).
    replace (trimStart prefix ++ LBRACE :: body ++ RBRACE :: suffix)
      with ((trimStart prefix ++ LBRACE :: body) ++ RBRACE :: suffix)
      by (rewrite <- app_assoc; reflexivity).
    rewrite (@trimEnd_after _ suffix RBRACE eq_refl).
    rewrite <- app_assoc. reflexivity. }
  rewrite Ht, strip_fences_replaces.
  destruct fence_has_no_brace as [(Fl & Fr & Fn) (Jl & Jr & Jn)].
  rewrite (@replace_all_around FENCE_JSON (trimStart prefix) _ LBRACE Jl Jn).
  rewrite (@replace_all_around FENCE_JSON body _ RBRACE Jr Jn).
  rewrite (@replace_all_around FENCE _ _ LBRACE Fl Fn).
  rewrite (@replace_all_around FENCE _ _ RBRACE Fr Fn).
  apply narrow_to_braces.
  - intros F. apply Hp, In_trimStart.
    unfold replace_all in F. apply In_replace_from in F. now apply In_replace_from in F.
  - intros F. apply Hs, In_trimEnd.
    unfold replace_all in F. apply In_replace_from in F. now apply In_replace_from in F.
Qed.

(** X1: what stands before the first opening brace and after the last
    closing brace of a reply never matters: the validator gives the result
    it gives on the braced span alone, a value or the failure. *)
Theorem safeJsonParse_ignores_surrounding_text (prefix body suffix : jsstring) :
  ~ In LBRACE prefix ->
  ~ In RBRACE suffix ->
  safeJsonParse (prefix ++ LBRACE :: body ++ RBRACE :: suffix)
  = safeJsonParse (LBRACE :: body ++ [RBRACE]).
Proof.
  intros Hp Hs. unfold safeJsonParse.
  rewrite (@clean_text_braced prefix body suffix Hp Hs).
  change (clean_text (LBRACE :: body ++ [RBRACE]))
    with (clean_text ([] ++ LBRACE :: body ++ RBRACE :: [])).
  rewrite (@clean_text_braced [] body []); [reflexivity | |]; intros [].
Qed.

Lemma safeJsonParse_ignores_surrounding_text_witness :
  safeJsonParse (sample_prefix ++ LBRACE :: sample_body ++ RBRACE :: sample_suffix)
  = safeJsonParse (LBRACE :: sample_body ++ [RBRACE]).
Proof.
  apply (@safeJsonParse_ignores_surrounding_text sample_prefix sample_body sample_suffix).
  - vm_compute. intros F. repeat destruct F as [F | F]; try discriminate F; exact F.
  - vm_compute. intros F. repeat destruct F as [F | F]; try discriminate F; exact F.
Defined.

Lemma forallb_rev {A : Type} (f : A -> bool) (l : list A) :
  forallb f (rev l) = forallb f l.
Proof.
  induction l as [|x l IH]; [reflexivity|].
  cbn [rev forallb]. rewrite forallb_app, IH. cbn [forallb].
  rewrite andb_true_r. apply andb_comm.
Qed.

Lemma trimStart_skips_blank (w t : jsstring) :
  blank w = true -> trimStart (w ++ t) = trimStart t.
Proof.
  unfold blank. induction w as [|c w IH]; [reflexivity|].
  cbn [forallb app trimStart]. intros H. apply andb_true_iff in H as [Hc Hw].
  rewrite Hc. auto.
Qed.

Lemma trimEnd_skips_blank (t w : jsstring) :
  blank w = true -> trimEnd (t ++ w) = trimEnd t.
Proof.
  intros H. unfold trimEnd. rewrite rev_app_distr, trimStart_skips_blank; [reflexivity|].
  unfold blank in *. now rewrite forallb_rev.
Qed.

Lemma trimStart_app (t w : jsstring) :
  trimStart (t ++ w)
  = match trimStart t with
    | [] => trimStart w
    | _ :: _ => trimStart t ++ w
    end.
Proof.
  induction t as [|c t IH]; cbn [app trimStart].
  - destruct (trimStart w); reflexivity.
  - destruct (is_white_space c); [exact IH | reflexivity].
Qed.

Lemma trim_skips_blank (w1 t w2 : jsstring) :
  blank w1 = true -> blank w2 = true -> trim (w1 ++ t ++ w2) = trim t.
Proof.
  intros H1 H2. unfold trim. rewrite (@trimStart_skips_blank w1 (t ++ w2) H1), trimStart_app.
  destruct (trimStart t) as [|c r] eqn:E.
  - unfold blank in H2. now rewrite (trimStart_blank _ H2).
  - now apply trimEnd_skips_blank.
Qed.

(** X2: white space around a reply, line breaks and no-break spaces
    included, does not change what the validator returns. *)
Theorem safeJsonParse_ignores_outer_white_space (w1 text w2 : jsstring) :
  blank w1 = true ->
  blank w2 = true ->
  safeJsonParse (w1 ++ text ++ w2) = safeJsonParse text.
Proof.
  intros H1 H2. unfold safeJsonParse, clean_text.
  now rewrite (@trim_skips_blank w1 text w2 H1 H2).
Qed.

Lemma safeJsonParse_ignores_outer_white_space_witness :
  safeJsonParse ([LF; 160; SPACE]%N ++ lit "[1, 2]" ++ [TAB; 8233]%N)
  = safeJsonParse (lit "[1, 2]").
Proof.
  apply (@safeJsonParse_ignores_outer_white_space [LF; 160; SPACE]%N (lit "[1, 2]")
           [TAB; 8233]%N); reflexivity.
Defined.

(** ** Outcomes of the orchestrator *)

Section OrchestratorOutcomes.

Variable Chat : Type.
Variable chats_create : GoogleGenAI -> Chat.
Variable sendMessage : Chat -> jsstring -> Chat * completion GenerateContentResponse.
Variable generateContent : GoogleGenAI -> jsstring -> completion GenerateContentResponse.

(** What the shared [try] body returns is a truthy value that the
    validator read from the text of the response. *)
Lemma read_response_returns (r : completion GenerateContentResponse) (v : jsvalue) :
  bind r read_response = Normal v ->
  truthy v = true /\
  exists response t,
    r = Normal response /\ text response = Some t /\ safeJsonParse t = Normal v.
Proof.
  destruct r as [response | e]; [|discriminate]. cbn [bind]. unfold read_response.
  destruct (text response) as [[|c t]|] eqn:Ht; try discriminate.
  destruct (safeJsonParse (c :: t)) as [parsed | e] eqn:Hp; [|discriminate].
  cbn [bind]. destruct (truthy parsed) eqn:Hv; [|discriminate].
  intros [= <-]. split; [assumption|]. exists response, (c :: t). auto.
Qed.

Lemma try_body_outcome (r : completion GenerateContentResponse) (fallback : jsvalue) :
  truthy fallback = true ->
  exists v,
    try_catch (bind r read_response) (fun _ => Normal fallback) = Normal v /\
    truthy v = true /\
    (v = fallback \/
     exists response t,
       r = Normal response /\ text response = Some t /\ safeJsonParse t = Normal v).
Proof.
  intros Hf. destruct (bind r read_response) as [v | e] eqn:E; cbn [try_catch].
  - destruct (read_response_returns _ E) as [Hv Hr]. exists v. auto.
  - exists fallback. auto.
Qed.

(** X3: [startNewStory] throws only when the connection was never
    initialised, and then leaves the module as it was. Otherwise it opens
    a new chat, sends the opening message, keeps the chat as the session
    and returns a truthy value: the value the validator read from the
    reply, or the fixed fallback. *)
Theorem startNewStory_outcomes (premise : jsstring) (m : Service Chat) :
  (aiInstance m = None ->
   startNewStory chats_create sendMessage premise m
   = (Throw (Error (lit "Gemini not initialized.")), m)) /\
  (forall ai,
      aiInstance m = Some ai ->
      snd (startNewStory chats_create sendMessage premise m)
      = {| chatSession := Some (fst (sendMessage (chats_create ai) (start_prompt premise)));
           aiInstance := Some ai |} /\
      exists v,
        fst (startNewStory chats_create sendMessage premise m) = Normal v /\
        truthy v = true /\
        (v = START_FALLBACK \/
         exists response t,
           snd (sendMessage (chats_create ai) (start_prompt premise)) = Normal response /\
           text response = Some t /\ safeJsonParse t = Normal v)).
Proof.
  unfold startNewStory. split.
  - intros H. now rewrite H.
  - intros ai H. rewrite H.
    destruct (sendMessage (chats_create ai) (start_prompt premise)) as [chat' r].
    cbn [fst snd]. split; [reflexivity|].
    apply try_body_outcome. reflexivity.
Qed.

(** X4: with an active session [generateNextEntry] never throws: it sends
    one message on the session's chat, keeps the chat as it is after the
    message, and returns a truthy value, the one the validator read from
    the reply or the fallback built from the caller's state. *)
Theorem generateNextEntry_outcomes
    (userAction : jsstring) (currentStats : CharacterStats)
    (currentInventory : list jsstring) (currentCharacters : list GameCharacter.t)
    (m : Service Chat) (chat : Chat) :
  chatSession m = Some chat ->
  let sent :=
    sendMessage chat (next_prompt (final_action userAction) currentStats
                        currentInventory currentCharacters) in
  snd (generateNextEntry sendMessage userAction currentStats currentInventory
         currentCharacters m)
  = {| chatSession := Some (fst sent); aiInstance := aiInstance m |} /\
  exists v,
    fst (generateNextEntry sendMessage userAction currentStats currentInventory
           currentCharacters m) = Normal v /\
    truthy v = true /\
    (v = NEXT_FALLBACK currentStats currentInventory currentCharacters \/
     exists response t,
       snd sent = Normal response /\ text response = Some t /\
       safeJsonParse t = Normal v).
Proof.
  intros H sent. subst sent. unfold generateNextEntry. rewrite H.
  destruct (sendMessage chat _) as [chat' r]. cbn [fst snd].
  split; [reflexivity|]. apply try_body_outcome. reflexivity.
Qed.

Lemma perform_client (c : call) (m : Service Chat) :
  aiInstance (snd (perform chats_create sendMessage generateContent c m))
  = match c with
    | CallInitialize ((_ :: _) as key) => Some {| apiKey := key |}
    | _ => aiInstance m
    end.
Proof.
  destruct c as [key | premise | a s i cs | premise]; cbn [perform].
  - destruct key; reflexivity.
  - unfold startNewStory. destruct (aiInstance m) as [ai|] eqn:E; [|exact E].
    destruct (sendMessage _ _). reflexivity.
  - unfold generateNextEntry. destruct (chatSession m); [|reflexivity].
    destruct (sendMessage _ _). reflexivity.
  - reflexivity.
Qed.

Lemma perform_all_client (cs : list call) :
  forall (m : Service Chat) (k : option jsstring),
    aiInstance m = client_of k ->
    aiInstance (snd (perform_all chats_create sendMessage generateContent cs m))
    = client_of (last_key cs k).
Proof.
  induction cs as [|c cs IH]; intros m k Hk; [exact Hk|].
  cbn [perform_all].
  pose proof (perform_client c m) as Hc.
  destruct (perform chats_create sendMessage generateContent c m) as [o m1].
  cbn [snd] in Hc.
  specialize (IH m1).
  destruct (perform_all chats_create sendMessage generateContent cs m1) as [os m2] eqn:E.
  cbn [snd] in IH |- *.
  destruct c as [[|x key] | premise | a s i cs' | premise]; cbn [last_key];
    apply IH; rewrite Hc; auto.
Qed.

Lemma startNewStory_reads_client_only (premise : jsstring) (m m' : Service Chat) :
  aiInstance m = aiInstance m' ->
  fst (startNewStory chats_create sendMessage premise m)
  = fst (startNewStory chats_create sendMessage premise m') /\
  chatSession (snd (startNewStory chats_create sendMessage premise m))
  = match aiInstance m with
    | Some _ => chatSession (snd (startNewStory chats_create sendMessage premise m'))
    | None => chatSession m
    end.
Proof.
  intros H. unfold startNewStory. rewrite <- H.
  destruct (aiInstance m) as [ai|]; [|auto].
  destruct (sendMessage _ _). auto.
Qed.

Lemma startNewStory_replaces_session (premise : jsstring) (m m' : Service Chat) :
  aiInstance m = aiInstance m' ->
  aiInstance m <> None ->
  startNewStory chats_create sendMessage premise m
  = startNewStory chats_create sendMessage premise m'.
Proof.
  intros H Hn. unfold startNewStory. rewrite <- H.
  destruct (aiInstance m) as [ai|]; [|contradiction].
  destruct (sendMessage _ _). reflexivity.
Qed.

(** X5: after any sequence of calls from the initial module state the
    connection is the one made from the last non-empty key handed to
    [initializeGemini], and a new story depends on nothing else of the
    past: it returns what it returns on a fresh module with that key, the
    session of the earlier story being replaced, not continued. *)
Theorem new_story_depends_on_last_key_only (cs : list call) (premise : jsstring) :
  let m := snd (perform_all chats_create sendMessage generateContent cs (initial Chat)) in
  let fresh := {| chatSession := None; aiInstance := client_of (last_key cs None) |} in
  aiInstance m = client_of (last_key cs None) /\
  fst (startNewStory chats_create sendMessage premise m)
  = fst (startNewStory chats_create sendMessage premise fresh) /\
  (last_key cs None <> None ->
   snd (startNewStory chats_create sendMessage premise m)
   = snd (startNewStory chats_create sendMessage premise fresh)).
Proof.
  intros m fresh.
  assert (Ha : aiInstance m = client_of (last_key cs None))
    by (apply perform_all_client; reflexivity).
  split; [exact Ha|]. split.
  - apply startNewStory_reads_client_only. exact Ha.
  - intros Hk. f_equal. apply startNewStory_replaces_session; [exact Ha|].
    rewrite Ha. destruct (last_key cs None); [discriminate | contradiction].
Qed.

(** X6: a new key in the middle of a story does not reach the running
    session. A turn gives the same result before and after
    [initializeGemini], and the two calls leave the same module state in
    either order. *)
Theorem generateNextEntry_commutes_with_initializeGemini
    (key userAction : jsstring) (currentStats : CharacterStats)
    (currentInventory : list jsstring) (currentCharacters : list GameCharacter.t)
    (m : Service Chat) :
  generateNextEntry sendMessage userAction currentStats currentInventory
    currentCharacters (initializeGemini key m)
  = (fst (generateNextEntry sendMessage userAction currentStats currentInventory
            currentCharacters m),
     initializeGemini key
       (snd (generateNextEntry sendMessage userAction currentStats currentInventory
               currentCharacters m))).
Proof.
  unfold generateNextEntry.
  assert (Hs : chatSession (initializeGemini key m) = chatSession m)
    by (destruct key; reflexivity).
  rewrite Hs. destruct (chatSession m) as [chat|]; [|reflexivity].
  destruct (sendMessage chat _) as [chat' r]. cbn [fst snd].
  destruct key; reflexivity.
Qed.

End OrchestratorOutcomes.

Lemma startNewStory_outcomes_witness :
  startNewStory (fun _ => tt) offline_send (lit "A rainy night.") (initial unit)
  = (Throw (Error (lit "Gemini not initialized.")), initial unit).
Proof.
  apply (proj1 (@startNewStory_outcomes unit (fun _ => tt) offline_send
                  (lit "A rainy night.") (initial unit))).
  reflexivity.
Defined.

Lemma generateNextEntry_outcomes_witness :
  exists v,
    fst (generateNextEntry (answering_send (lit "[7]")) (lit "Look around") sample_stats
           sample_inventory sample_characters
           {| chatSession := Some tt; aiInstance := Some sample_ai |}) = Normal v /\
    truthy v = true /\
    (v = NEXT_FALLBACK sample_stats sample_inventory sample_characters \/
     exists response t,
       snd (answering_send (lit "[7]") tt
              (next_prompt (final_action (lit "Look around")) sample_stats
                 sample_inventory sample_characters)) = Normal response /\
       text response = Some t /\ safeJsonParse t = Normal v).
Proof.
  apply (proj2 (@generateNextEntry_outcomes unit (answering_send (lit "[7]"))
                  (lit "Look around") sample_stats sample_inventory
                  sample_characters {| chatSession := Some tt; aiInstance := Some sample_ai |}
                  tt eq_refl)).
Defined.

Lemma new_story_depends_on_last_key_only_witness :
  snd (startNewStory (fun _ => tt) offline_send (lit "Another night.")
         (snd (perform_all (fun _ => tt) offline_send offline_generate
                 [CallInitialize (lit "old"); CallStart (lit "A rainy night.");
                  CallInitialize []; CallInitialize (lit "new")]
                 (initial unit))))
  = snd (startNewStory (fun _ => tt) offline_send (lit "Another night.")
           {| chatSession := None; aiInstance := Some {| apiKey := lit "new" |} |}).
Proof.
  apply (proj2 (proj2 (@new_story_depends_on_last_key_only unit (fun _ => tt) offline_send
                         offline_generate
                         [CallInitialize (lit "old"); CallStart (lit "A rainy night.");
                          CallInitialize []; CallInitialize (lit "new")]
                         (lit "Another night.")))).
  discriminate.
Defined.

(** ** The case summary *)

Lemma slice_last_app {A : Type} (n : nat) (older recent : list A) :
  n <= List.length recent ->
  slice_last n (older ++ recent) = slice_last n recent.
Proof.
  intros H. unfold slice_last. rewrite length_app, skipn_app.
  rewrite skipn_all2 by lia. cbn [app]. f_equal. lia.
Qed.

(** X7: the summary is asked about the last twenty entries only: entries
    older than those change neither the request nor the summary. *)
Theorem generateCaseSummary_reads_last_twenty
    (Chat : Type)
    (generateContent : GoogleGenAI -> jsstring -> completion GenerateContentResponse)
    (older recent : list DiaryEntry.t) (m : Service Chat) :
  20 <= List.length recent ->
  story_text (older ++ recent) = story_text recent /\
  generateCaseSummary generateContent (older ++ recent) m
  = generateCaseSummary generateContent recent m.
Proof.
  intros H.
  assert (E : story_text (older ++ recent) = story_text recent)
    by (unfold story_text; now rewrite slice_last_app).
  split; [exact E|]. unfold generateCaseSummary. now rewrite E.
Qed.

Lemma generateCaseSummary_reads_last_twenty_witness :
  generateCaseSummary offline_generate
    (session_entries sample_session
     ++ repeat (DiaryEntry.mk (lit "ai-1") (lit "Rain.") (lit "3:02:00 AM") (Some false)) 20)
    {| chatSession := @None unit; aiInstance := Some sample_ai |}
  = generateCaseSummary offline_generate
      (repeat (DiaryEntry.mk (lit "ai-1") (lit "Rain.") (lit "3:02:00 AM") (Some false)) 20)
      {| chatSession := @None unit; aiInstance := Some sample_ai |}.
Proof.
  refine (proj2 (@generateCaseSummary_reads_last_twenty unit offline_generate
                   (session_entries sample_session)
                   (repeat (DiaryEntry.mk (lit "ai-1") (lit "Rain.") (lit "3:02:00 AM")
                              (Some false)) 20)
                   {| chatSession := None; aiInstance := Some sample_ai |} _)).
  simpl. lia.
Defined.

(** X8: the summary is never empty, whatever the call does: not
    initialised, rejected, answered without text or with an empty one. *)
Theorem generateCaseSummary_never_empty
    (Chat : Type)
    (generateContent : GoogleGenAI -> jsstring -> completion GenerateContentResponse)
    (entries : list DiaryEntry.t) (m : Service Chat) :
  generateCaseSummary generateContent entries m <> [].
Proof.
  unfold generateCaseSummary.
  destruct (aiInstance m) as [ai|]; [|discriminate].
  destruct (generateContent ai _) as [response | e]; [|discriminate].
  destruct (text response) as [[|c t]|]; discriminate.
Qed.

(** ** More on the achievement merge *)

(** X9: a merge only appends to the list held when the update is
    applied. That list stays in front in its order, and what follows are
    achievements of the batch whose identifier the handler's own list did
    not hold: an identifier the handler knows is never appended again. *)
Theorem merge_achievements_appends_new_only (achievements prev : list Achievement.t)
    (new_achievements : option (list Achievement.t)) :
  exists appended,
    fst (merge_achievements achievements prev new_achievements) = prev ++ appended /\
    forall na,
      In na appended ->
      (exists batch, new_achievements = Some batch /\ In na batch) /\
      ~ In (Achievement.id na) (map Achievement.id achievements).
Proof.
  unfold merge_achievements.
  destruct new_achievements as [[|d ds]|];
    try (exists []; rewrite app_nil_r; split; [reflexivity | intros ? []]).
  destruct (filter (fun na => negb (known achievements na)) (d :: ds))
    as [|first rest] eqn:E.
  - exists []. rewrite app_nil_r. split; [reflexivity | intros ? []].
  - exists (first :: rest). split; [reflexivity|]. intros na Hin.
    rewrite <- E in Hin. apply filter_In in Hin as [Hb Hk].
    split; [eauto|]. apply negb_true_iff in Hk. rewrite <- known_spec. congruence.
Qed.

(** X10: identifiers that were unique stay unique through a merge
    whenever the batch itself repeats no identifier and the handler's list
    holds every identifier of the list appended to, as it does when no
    other update landed while the turn was pending. *)
Theorem merge_achievements_keeps_ids_unique (achievements prev : list Achievement.t)
    (new_achievements : option (list Achievement.t)) :
  NoDup (map Achievement.id prev) ->
  (forall batch, new_achievements = Some batch -> NoDup (map Achievement.id batch)) ->
  incl (map Achievement.id prev) (map Achievement.id achievements) ->
  NoDup (map Achievement.id
           (fst (merge_achievements achievements prev new_achievements))).
Proof.
  intros Ha Hb Hincl. destruct new_achievements as [batch|]; [|exact Ha].
  apply merge_unique_for_distinct_batch; auto.
Qed.

Lemma merge_achievements_keeps_ids_unique_witness :
  NoDup (map Achievement.id
           (fst (merge_achievements [first_blood] [first_blood]
                   (Some [first_blood;
                          Achievement.mk (lit "first_clue") (lit "First Clue")
                            (lit "You found a clue.")])))).
Proof.
  apply (@merge_achievements_keeps_ids_unique [first_blood] [first_blood]
           (Some [first_blood;
                  Achievement.mk (lit "first_clue") (lit "First Clue")
                    (lit "You found a clue.")])).
  - repeat constructor. simpl. tauto.
  - intros batch [= <-]. repeat constructor; simpl; intuition discriminate.
  - apply incl_refl.
Defined.

Lemma filter_none (keep : Achievement.t -> bool) (batch : list Achievement.t) :
  (forall na, In na batch -> keep na = false) -> filter keep batch = [].
Proof.
  induction batch as [|b batch IH]; intros H; [reflexivity|].
  cbn [filter]. rewrite (H b (or_introl eq_refl)). apply IH.
  intros na Hin. apply H. now right.
Qed.

(** The list a merge leaves, spelled out. *)
Lemma merge_achievements_fst (achievements prev batch : list Achievement.t) :
  fst (merge_achievements achievements prev (Some batch))
  = prev ++ filter (fun a => negb (known achievements a)) batch.
Proof.
  unfold merge_achievements. destruct batch as [|d ds]; [now rewrite app_nil_r|].
  destruct (filter _ (d :: ds)); [now rewrite app_nil_r | reflexivity].
Qed.

(** After a merge every identifier of the batch is held, provided the
    list appended to holds what the handler's list held. *)
Lemma merged_batch_is_held (achievements prev batch : list Achievement.t)
    (na : Achievement.t) :
  incl (map Achievement.id achievements) (map Achievement.id prev) ->
  In na batch ->
  In (Achievement.id na)
     (map Achievement.id (fst (merge_achievements achievements prev (Some batch)))).
Proof.
  intros Hincl Hin. rewrite merge_achievements_fst, map_app. apply in_or_app.
  destruct (known achievements na) eqn:E.
  - left. apply Hincl. now apply known_spec.
  - right. apply in_map. apply filter_In. split; [assumption|]. now rewrite E.
Qed.

(** X11: once a batch has been merged, delivering it again to a handler
    whose list has seen that merge changes nothing and raises no
    notification, also when the batch repeats an identifier. The first
    merge may be any in which the list appended to holds what its handler
    held. *)
Theorem merge_achievements_redelivery (achievements prev later held : list Achievement.t)
    (new_achievements : option (list Achievement.t)) :
  incl (map Achievement.id achievements) (map Achievement.id prev) ->
  incl (map Achievement.id (fst (merge_achievements achievements prev new_achievements)))
       (map Achievement.id later) ->
  merge_achievements later held new_achievements = (held, None).
Proof.
  intros Hfirst Hseen. destruct new_achievements as [[|d ds]|]; try reflexivity.
  set (batch := d :: ds) in *.
  assert (Hn : filter (fun na => negb (known later na)) batch = []).
  { apply filter_none. intros na Hin. apply negb_false_iff, known_spec.
    apply Hseen. now apply merged_batch_is_held. }
  unfold merge_achievements. subst batch. now rewrite Hn.
Qed.

Lemma merge_achievements_redelivery_witness :
  merge_achievements [first_blood; first_blood] [first_blood; first_blood]
    (Some [first_blood; first_blood])
  = ([first_blood; first_blood], None).
Proof.
  apply (@merge_achievements_redelivery [] [] [first_blood; first_blood]
           [first_blood; first_blood] (Some [first_blood; first_blood])).
  - apply incl_refl.
  - apply incl_refl.
Defined.

(** X12: a notification is raised exactly when the list grows, and it
    shows the first achievement appended, whatever the handler's list and
    the list appended to are. *)
Theorem merge_achievements_notification (achievements prev : list Achievement.t)
    (new_achievements : option (list Achievement.t)) :
  (snd (merge_achievements achievements prev new_achievements) = None <->
   fst (merge_achievements achievements prev new_achievements) = prev) /\
  (forall shown,
      snd (merge_achievements achievements prev new_achievements) = Some shown ->
      exists rest,
        fst (merge_achievements achievements prev new_achievements)
        = prev ++ shown :: rest).
Proof.
  unfold merge_achievements.
  destruct new_achievements as [[|d ds]|];
    try (split; [split; reflexivity | discriminate]).
  destruct (filter _ (d :: ds)) as [|first rest]; cbn [fst snd].
  - split; [split; reflexivity | discriminate].
  - split.
    + split; [discriminate|]. intros H.
      rewrite <- (app_nil_r prev) in H at 2. apply app_inv_head in H.
      discriminate H.
    + intros shown [= <-]. now exists rest.
Qed.

(** X22: the filter and the update read different lists. When the
    handler's list misses an identifier that the list appended to already
    holds, as after another turn that landed while this one was pending,
    and the batch delivers that identifier, the merged list holds it
    twice. *)
Theorem merge_achievements_stale_list_repeats (achievements prev batch : list Achievement.t)
    (na : Achievement.t) :
  In na batch ->
  known achievements na = false ->
  In (Achievement.id na) (map Achievement.id prev) ->
  ~ NoDup (map Achievement.id
             (fst (merge_achievements achievements prev (Some batch)))).
Proof.
  intros Hin Hk Hheld. rewrite merge_achievements_fst, map_app. intros Hu.
  apply NoDup_app_remove_l in Hu as Hr.
  assert (Hnew : In (Achievement.id na)
                    (map Achievement.id
                       (filter (fun a => negb (known achievements a)) batch))).
  { apply in_map. apply filter_In. split; [assumption|]. now rewrite Hk. }
  clear Hr. induction prev as [|p prev IH]; [contradiction|].
  cbn [map app] in Hu. apply NoDup_cons_iff in Hu as [Hfresh Hu].
  destruct Hheld as [E | Hheld].
  - apply Hfresh. rewrite E. apply in_or_app. now right.
  - now apply IH.
Qed.

Lemma merge_achievements_stale_list_repeats_witness :
  ~ NoDup (map Achievement.id
             (fst (merge_achievements [] [first_blood] (Some [first_blood])))).
Proof.
  apply (@merge_achievements_stale_list_repeats [] [first_blood] [first_blood] first_blood).
  - now left.
  - reflexivity.
  - now left.
Defined.

(** ** More on save and load *)

Lemma getItem_removeItem (k : jsstring) (ls : Storage) :
  getItem k (removeItem k ls) = None.
Proof.
  induction ls as [|[k' v] ls IH]; [reflexivity|].
  cbn [removeItem]. destruct (JSString.eqb k' k) eqn:E; [exact IH|].
  cbn [getItem]. now rewrite E.
Qed.

(** X13: a saved record that cannot be read (it is not JSON, or it is the
    JSON null) is dropped: the session and the screen stay as they were,
    the save flag goes off, no record is left under the key, and loading
    again does nothing. *)
Theorem handleLoad_drops_unreadable_record (a : AppState) (ls : Storage)
    (c : N) (raw : jsstring) :
  getItem SAVE_KEY ls = Some (c :: raw) ->
  JSON.parse (c :: raw) = Throw SyntaxError \/ JSON.parse (c :: raw) = Normal JNull ->
  same_session (fst (handleLoad a ls)) a /\
  gameState (fst (handleLoad a ls)) = gameState a /\
  hasSave (fst (handleLoad a ls)) = false /\
  getItem SAVE_KEY (snd (handleLoad a ls)) = None /\
  handleLoad (fst (handleLoad a ls)) (snd (handleLoad a ls)) = handleLoad a ls.
Proof.
  intros Hg Hp.
  assert (E : handleLoad a ls
              = ({| gameState := gameState a; entries := entries a; stats := stats a;
                    inventory := inventory a; characters := characters a;
                    achievements := achievements a; premise := premise a;
                    hasSave := false |},
                 removeItem SAVE_KEY ls)).
  { unfold handleLoad. rewrite Hg. destruct Hp as [-> | ->]; reflexivity. }
  rewrite E. cbn [fst snd]. repeat split.
  - apply getItem_removeItem.
  - unfold handleLoad. now rewrite getItem_removeItem.
Qed.

Lemma handleLoad_drops_unreadable_record_witness :
  getItem SAVE_KEY (snd (handleLoad sample_app [(SAVE_KEY, lit "{ entries: [")])) = None.
Proof.
  apply (@handleLoad_drops_unreadable_record sample_app [(SAVE_KEY, lit "{ entries: [")]
           LBRACE (lit " entries: [")).
  - reflexivity.
  - left. reflexivity.
Defined.

(** X14: a record that parses to an object is loaded without any check.
    The game goes to the loading screen, the record stays, and each part
    of the session becomes the member of that name, undefined when the
    record has none. *)
Theorem handleLoad_checks_no_member (a : AppState) (ls : Storage)
    (c : N) (raw : jsstring) (members : list (jsstring * jsvalue)) :
  getItem SAVE_KEY ls = Some (c :: raw) ->
  JSON.parse (c :: raw) = Normal (JObj members) ->
  snd (handleLoad a ls) = ls /\
  gameState (fst (handleLoad a ls)) = LOADING_ANIMATION /\
  hasSave (fst (handleLoad a ls)) = hasSave a /\
  (forall (part : AppState -> jsvalue) (k : string),
      In (part, k) [(entries, "entries"); (stats, "stats"); (inventory, "inventory");
                    (characters, "characters"); (achievements, "achievements");
                    (premise, "premise")]%string ->
      part (fst (handleLoad a ls))
      = match lookup (lit k) members with
        | Some v => v
        | None => JUndefined
        end).
Proof.
  intros Hg Hp. rewrite (handleLoad_object a ls Hg Hp).
  split; [|split; [reflexivity | split; [reflexivity|]]].
  - unfold handleLoad. rewrite Hg, Hp. reflexivity.
  - intros part k Hin. cbn [In] in Hin.
    repeat destruct Hin as [[= <- <-] | Hin]; try reflexivity. contradiction.
Qed.

Lemma handleLoad_checks_no_member_witness :
  gameState (fst (handleLoad sample_app [(SAVE_KEY, lit "{}")])) = LOADING_ANIMATION.
Proof.
  apply (@handleLoad_checks_no_member sample_app [(SAVE_KEY, lit "{}")] LBRACE (lit "}") []);
    reflexivity.
Defined.

(** X15: once the erasure is confirmed the start screen is back on the
    menu, the save flag is off, the session is untouched, and loading
    does nothing, whatever was saved before. *)
Theorem confirmDelete_leaves_nothing_to_load (a : AppState) (ls : Storage) :
  snd (fst (confirmDelete a ls)) = MENU /\
  hasSave (fst (fst (confirmDelete a ls))) = false /\
  same_session (fst (fst (confirmDelete a ls))) a /\
  handleLoad (fst (fst (confirmDelete a ls))) (snd (confirmDelete a ls))
  = (fst (fst (confirmDelete a ls)), snd (confirmDelete a ls)).
Proof.
  unfold confirmDelete. cbn [fst snd]. repeat split.
  unfold handleLoad. now rewrite getItem_removeItem.
Qed.

(** ** The start of an investigation and the news lookup *)

Lemma trim_nil : trim [] = [].
Proof. reflexivity. Qed.

(** A property of a truthy value can be read: the read does not throw. *)
Lemma truthy_member (k : string) (v : jsvalue) :
  truthy v = true -> member k v = Normal (get k v).
Proof.
  destruct v; try reflexivity; discriminate.
Qed.

Section ScreenOutcomes.

Variable Chat : Type.
Variable chats_create : GoogleGenAI -> Chat.
Variable sendMessage : Chat -> jsstring -> Chat * completion GenerateContentResponse.
Variable generateContent : GoogleGenAI -> jsstring -> completion GenerateContentResponse.

(** X16: the news lookup always ends with some text to show, never an
    empty one, and with the fetching flag off, whatever the service
    answered. *)
Theorem handleFetchNews_always_shows_text (premise : jsstring) (m : Service Chat) :
  isFetchingNews (handleFetchNews generateContent premise m) = false /\
  exists c t, newsContent (handleFetchNews generateContent premise m) = Some (c :: t).
Proof.
  unfold handleFetchNews.
  destruct (fetchWorldNews generateContent premise m) as [result | e].
  - cbn [isFetchingNews newsContent]. split; [reflexivity|].
    destruct (news_text result) as [[|c t]|]; eexists _, _; reflexivity.
  - cbn [isFetchingNews newsContent]. split; [reflexivity|]. eexists _, _; reflexivity.
Qed.

(** X17: [startInvestigation] has two outcomes. With a blank key it only
    reports the missing key and leaves the session and the module as they
    were. With any other key it connects with that key, opens a chat and
    shows the loading screen with one narrator entry, no achievements and
    no error: the report of a lost signal is never shown. *)
Theorem startInvestigation_outcomes (env_key : option jsstring)
    (userApiKey story_premise now_id now_time : jsstring)
    (ui : StartScreen) (m : Service Chat) :
  let key := keyToUse env_key userApiKey in
  let r := startInvestigation chats_create sendMessage env_key userApiKey
             story_premise now_id now_time ui m in
  (trim key = [] /\
   r = ({| appState := appState ui; isProcessing := false;
           errorMsg := Some (lit "API Key Missing. Check Config Channel.") |}, m)) \/
  (trim key <> [] /\
   errorMsg (fst r) = None /\
   isProcessing (fst r) = false /\
   gameState (appState (fst r)) = LOADING_ANIMATION /\
   (exists narrative,
       entries (appState (fst r))
       = JArr [JObj [(lit "id", JStr now_id); (lit "text", narrative);
                     (lit "timestamp", JStr now_time);
                     (lit "isUserAction", JBool false)]]) /\
   truthy (characters (appState (fst r))) = true /\
   achievements (appState (fst r)) = JArr [] /\
   premise (appState (fst r)) = premise (appState ui) /\
   hasSave (appState (fst r)) = hasSave (appState ui) /\
   aiInstance (snd r) = Some {| apiKey := key |} /\
   exists chat, chatSession (snd r) = Some chat).
Proof.
  intros key r. subst r. unfold startInvestigation. fold key.
  destruct (trim key) as [|c t] eqn:Ht; [left; split; reflexivity|].
  right. split; [discriminate|].
  assert (Hk : exists k0 kr, key = k0 :: kr).
  { destruct key as [|k0 kr]; [rewrite trim_nil in Ht; discriminate | eauto]. }
  destruct Hk as (k0 & kr & Hk). rewrite Hk.
  unfold startNewStory. cbn [initializeGemini aiInstance].
  destruct (sendMessage (chats_create {| apiKey := k0 :: kr |}) (start_prompt story_premise))
    as [chat' response].
  destruct (@try_body_outcome response START_FALLBACK eq_refl) as (v & -> & Hv & _).
  rewrite (truthy_member "stats" v Hv).
  cbn [fst snd errorMsg isProcessing appState gameState entries characters achievements
       premise hasSave aiInstance chatSession].
  repeat split; eauto.
  destruct (truthy (get "characters" v)) eqn:Hc; [exact Hc | reflexivity].
Qed.

End ScreenOutcomes.

(** ** The input bar *)

Lemma trimStart_head (s : jsstring) :
  trimStart s = [] \/ exists c r, trimStart s = c :: r /\ is_white_space c = false.
Proof.
  induction s as [|c s IH]; [now left|].
  cbn [trimStart]. destruct (is_white_space c) eqn:Hc; [exact IH|]. right. eauto.
Qed.

Lemma trimStart_idempotent (s : jsstring) : trimStart (trimStart s) = trimStart s.
Proof.
  destruct (trimStart_head s) as [-> | (c & r & -> & Hc)]; [reflexivity|].
  cbn [trimStart]. now rewrite Hc.
Qed.

Lemma trimEnd_idempotent (s : jsstring) : trimEnd (trimEnd s) = trimEnd s.
Proof.
  unfold trimEnd. now rewrite rev_involutive, trimStart_idempotent.
Qed.

Lemma trimEnd_keeps_head (c : N) (s : jsstring) :
  is_white_space c = false -> trimEnd (c :: s) = c :: trimEnd s.
Proof.
  intros Hc. exact (@trimEnd_after [] s c Hc).
Qed.

Lemma trim_idempotent (s : jsstring) : trim (trim s) = trim s.
Proof.
  unfold trim. destruct (trimStart_head s) as [-> | (c & r & -> & Hc)]; [reflexivity|].
  rewrite (@trimEnd_keeps_head c r Hc). cbn [trimStart]. rewrite Hc.
  rewrite (@trimEnd_keeps_head c (trimEnd r) Hc).
  now rewrite trimEnd_idempotent.
Qed.

Lemma trimStart_nil_blank (s : jsstring) : trimStart s = [] -> blank s = true.
Proof.
  unfold blank. induction s as [|c s IH]; [reflexivity|].
  cbn [trimStart forallb]. destruct (is_white_space c); [exact IH | discriminate].
Qed.

Lemma trim_nil_blank (s : jsstring) : trim s = [] -> blank s = true.
Proof.
  unfold trim. destruct (trimStart_head s) as [E | (c & r & E & Hc)].
  - intros _. now apply trimStart_nil_blank.
  - rewrite E, (@trimEnd_keeps_head c r Hc). discriminate.
Qed.

(** X18: what the input bar submits is the typed text without its outer
    white space. It is never empty, trimming it again changes nothing, the
    bar is cleared, nothing is submitted while a turn is processed, and
    [generateNextEntry] takes the text as it is, not as a wait. *)
Theorem handleSubmit_sends_trimmed_text (inputValue : jsstring) (processing : bool)
    (sent rest : jsstring) :
  handleSubmit inputValue processing = (Some sent, rest) ->
  processing = false /\ rest = [] /\
  sent = trim inputValue /\ sent <> [] /\ trim sent = sent /\
  final_action sent = sent.
Proof.
  unfold handleSubmit. destruct (trim inputValue) as [|c t] eqn:Ht; [discriminate|].
  destruct processing; cbn [negb]; [discriminate|]. intros [= <- <-].
  repeat split; try discriminate.
  - rewrite <- Ht. apply trim_idempotent.
  - unfold final_action. rewrite <- Ht, trim_idempotent, Ht. reflexivity.
Qed.

Lemma handleSubmit_sends_trimmed_text_witness :
  final_action (lit "look around") = lit "look around".
Proof.
  apply (@handleSubmit_sends_trimmed_text (lit "  look around ") false
           (lit "look around") []).
  reflexivity.
Defined.

(** X19: the input bar submits nothing exactly when a turn is being
    processed or the typed text is blank, and then the typed text stays
    in the bar. *)
Theorem handleSubmit_holds_back (inputValue : jsstring) (processing : bool) :
  (fst (handleSubmit inputValue processing) = None
   <-> processing = true \/ blank inputValue = true) /\
  (fst (handleSubmit inputValue processing) = None ->
   snd (handleSubmit inputValue processing) = inputValue).
Proof.
  unfold handleSubmit. destruct (trim inputValue) as [|c t] eqn:Ht.
  - cbn [fst snd]. split; [|reflexivity]. split; [|reflexivity].
    intros _. right. now apply trim_nil_blank.
  - destruct processing; cbn [negb fst snd].
    + split; [|reflexivity]. split; auto.
    + split; [|discriminate]. split; [discriminate|].
      intros [H | H]; [discriminate|].
      unfold blank in H. rewrite (trim_blank _ H) in Ht. discriminate.
Qed.

(** ** Saving over a save, and saving what was loaded *)

Lemma removeItem_again (k : jsstring) (ls : Storage) :
  removeItem k (removeItem k ls) = removeItem k ls.
Proof.
  induction ls as [|[k' v] ls IH]; [reflexivity|].
  cbn [removeItem]. destruct (JSString.eqb k' k) eqn:E; [exact IH|].
  cbn [removeItem]. rewrite E. now f_equal.
Qed.

Lemma getItem_other_removeItem (k k' : jsstring) (ls : Storage) :
  k' <> k -> getItem k' (removeItem k ls) = getItem k' ls.
Proof.
  intros Hk. induction ls as [|[k0 v] ls IH]; [reflexivity|].
  cbn [removeItem getItem]. destruct (JSString.eqb k0 k) eqn:E.
  - destruct (JSString.eqb k0 k') eqn:E'; [|exact IH].
    apply eqb_eq in E, E'. congruence.
  - cbn [getItem]. now rewrite IH.
Qed.

(** X20: a state whose six saved parts are values JSON can carry (no
    undefined, no Number that is not finite or is minus zero, no repeated
    key) comes back from a save and a later load, whatever the state is
    when the record is loaded: the six parts are the saved ones, the same
    values with each Number in the carrier the reader gives it, the
    loading screen is shown and the save flag is left as it was. *)
Theorem save_then_load_restores_safe_state (a held : AppState) (now : jsstring)
    (ls : Storage) :
  forallb json_safe [entries a; stats a; inventory a; characters a; achievements a;
                     premise a] = true ->
  equal_session (save_then_load now a held ls) a /\
  gameState (save_then_load now a held ls) = LOADING_ANIMATION /\
  hasSave (save_then_load now a held ls) = hasSave held.
Proof.
  intros H. rewrite (save_then_load_record a held now ls H).
  unfold equal_session. cbn [entries stats inventory characters achievements premise
                             gameState hasSave].
  repeat split; apply same_value_normal.
Qed.

Lemma save_then_load_restores_safe_state_witness :
  equal_session
    (save_then_load (lit "1/1/2025, 3:00:00 AM")
       (app_of_session fractional_session PLAYING false) sample_app [])
    (app_of_session fractional_session PLAYING false).
Proof.
  refine (proj1 (@save_then_load_restores_safe_state
                   (app_of_session fractional_session PLAYING false) sample_app
                   (lit "1/1/2025, 3:00:00 AM") [] _)).
  vm_compute. reflexivity.
Defined.

(** X21: a save replaces the earlier one: saving twice leaves the state
    and the storage as the second save alone would, and a save touches no
    other key of the storage. *)
Theorem handleSave_replaces_earlier_save (now1 now2 : jsstring) (a : AppState)
    (ls : Storage) :
  handleSave now2 (fst (handleSave now1 a ls)) (snd (handleSave now1 a ls))
  = handleSave now2 a ls /\
  forall k, k <> SAVE_KEY -> getItem k (snd (handleSave now1 a ls)) = getItem k ls.
Proof.
  split.
  - unfold handleSave. cbn [fst snd entries stats inventory characters achievements premise
                            gameState hasSave].
    f_equal. unfold setItem. f_equal.
    cbn [removeItem]. rewrite eqb_refl. apply removeItem_again.
  - intros k Hk. unfold handleSave. cbn [snd]. unfold setItem. cbn [getItem].
    destruct (JSString.eqb SAVE_KEY k) eqn:E.
    + apply eqb_eq in E. congruence.
    + now apply getItem_other_removeItem.
Qed.
